(** * etl_analysis: the SFTP connection pool and the KNFO job scheduler

    A shallow embedding of [src/sftpPool.js] (class [SftpPool]) and of the
    scheduling core of [src/excelAutoKNFO.js] ([scanCtx], [scanAll],
    [pickBatch], [processBatch], [tick]), followed by the properties the
    specification states about them.

    Conventions.
    - A JavaScript string is modelled as a [string] whose characters are
      its UTF-16 code units, each below 256 (the Latin-1 range): the letter
      Ñ is the one character 209, not the two bytes of its UTF-8 form, so
      a name with such a letter is written with [Ascii.ascii_of_nat] (see
      [accented]). Strings with other code units are outside the model.
      On this range [toLowerCase] maps A-Z and the capitals 192-222 other
      than the sign 215 to the letter 32 places further, as JavaScript
      does; the [i] flag of a regular expression without the [u] flag
      identifies only A-Z with a-z when the pattern is made of ASCII
      characters.
    - [Date.now()] is the field [now] of the pool state.  [sleep d] advances
      it by exactly [d]; a handshake and a remote operation take the time
      the environment says.
    - The outside world is an explicit environment: the result of the n-th
      handshake, the result of the i-th attempt of an operation, the remote
      listings a scan sees and the outcome of each worker.
    - One asynchronous call is one function application: a function runs to
      its end before the next call starts.  Leases that overlap in time are
      obtained by calling [acquire] several times before [release]. *)

From Stdlib Require Import ZArith QArith Lia.
From stdpp Require Import gmap strings list fin_maps sorting.
Close Scope Q_scope.
Open Scope string_scope.

(** ** String helpers (the JavaScript string methods the code uses) *)

Module Str.

(** The lower-case mapping of Unicode on the code units below 256: the
    capitals are A-Z (65-90) and À-Þ (192-222) without the multiplication
    sign (215); each maps to the code unit 32 above it. Every other code
    unit of the range, ß (223), ÿ (255) and µ (181) included, is its own
    lower case. *)
Definition lowerChar (c : Ascii.ascii) : Ascii.ascii :=
  let n := Ascii.N_of_ascii c in
  if ((65 <=? n) && (n <=? 90))%N ||
     ((192 <=? n) && (n <=? 222) && negb (n =? 215))%N
  then Ascii.ascii_of_N (n + 32) else c.

(** [s.toLowerCase()] *)
Fixpoint toLowerCase (s : string) : string :=
  match s with
  | EmptyString => EmptyString
  | String c s' => String (lowerChar c) (toLowerCase s')
  end.

(** What the [i] flag does to a subject matched against ASCII pattern
    characters: a code unit of 128 or more never matches one of them, and
    A-Z match as a-z. *)
Definition foldChar (c : Ascii.ascii) : Ascii.ascii :=
  let n := Ascii.N_of_ascii c in
  if ((65 <=? n) && (n <=? 90))%N then Ascii.ascii_of_N (n + 32) else c.

Fixpoint ignoreCase (s : string) : string :=
  match s with
  | EmptyString => EmptyString
  | String c s' => String (foldChar c) (ignoreCase s')
  end.

(** [s.includes(p)] *)
Fixpoint includes (s p : string) : bool :=
  if String.prefix p s then true
  else match s with
       | EmptyString => false
       | String _ s' => includes s' p
       end.

(** [s.endsWith(suf)] *)
Definition endsWith (s suf : string) : bool :=
  (String.length suf <=? String.length s)%nat &&
  String.eqb (String.substring (String.length s - String.length suf)
                (String.length suf) s) suf.

(** [s.slice(0, -n)] *)
Definition dropLast (n : nat) (s : string) : string :=
  String.substring 0 (String.length s - n) s.

(** [path.posix.basename(s)] for a path that does not end in a slash. *)
Fixpoint basename (s : string) : string :=
  match s with
  | EmptyString => EmptyString
  | String c s' =>
      if includes s' "/" then basename s'
      else if Ascii.eqb c (Ascii.ascii_of_nat 47) then s' else s
  end.

End Str.

(** ** src/sftpPool.js *)

Module SftpPool.

Definition MAX_CONN : nat := 10.
Definition CONNECT_GAP_MS : Z := 1000.
Definition IDLE_MS : Z := 90000.
Definition OP_RETRIES : nat := 2.
Definition BREAKER_BASE_MS : Z := 60000.
Definition LOCAL_RETRIES : nat := 6.
Definition BACKOFF_MS : Z := 2000.

(** A thrown value: [err.code] and its rendering [String(err)]. *)
Record error := Error { code : string; text : string }.

(** [transient]: the regular expression
    [/ECONN|handshake|keepalive|not connected|socket|channel|no response/i]
    tested on [String(e)]: one of the alternatives, all ASCII, occurs in
    the text with A-Z read as a-z. *)
Definition transient_symptoms : list string :=
  ["econn"; "handshake"; "keepalive"; "not connected"; "socket"; "channel";
   "no response"].

Definition transient (e : error) : bool :=
  existsb (Str.includes (Str.ignoreCase (text e))) transient_symptoms.

Definition refused (e : error) : bool := String.eqb (code e) "ECONNREFUSED".

(** A pool entry [{client, busy, lastUse, ok}]; [client] is the identity of
    the [SftpClient] object it currently holds. *)
Record entry := Entry { client : nat; busy : bool; lastUse : Z; ok : bool }.

(** What the model records of a run, oldest first. *)
Inductive event :=
| ECreate (i : nat)                (* #newEntry pushed as pool[i] *)
| EInvalidate (i : nat)            (* entry.ok = false after a transient error *)
| EHandshake (i : nat) (good : bool)  (* entry.client.connect(cfg) settled *)
| EAttempt (i : nat) (n : nat)     (* n-th attempt of the operation on pool[i] *)
| ERelease (i : nat).              (* #release *)

#[global] Instance event_eq_dec : EqDecision event.
Proof. solve_decision. Defined.

(** The private fields of [SftpPool], the clock, and the bookkeeping of the
    model: [hs] counts the handshakes started so far, [clients] the
    [SftpClient] objects created so far. *)
Record state := State {
  pool : list entry;
  next : nat;
  lastHS : Z;
  fails : nat;
  breakerUntil : Z;
  now : Z;
  hs : nat;
  clients : nat;
  events : list event
}.

Definition init : state :=
  {| pool := []; next := 0; lastHS := 0; fails := 0; breakerUntil := 0;
     now := 0; hs := 0; clients := 0; events := [] |}.

Definition set_pool (f : list entry → list entry) (s : state) : state :=
  {| pool := f (pool s); next := next s; lastHS := lastHS s; fails := fails s;
     breakerUntil := breakerUntil s; now := now s; hs := hs s;
     clients := clients s; events := events s |}.

Definition set_now (t : Z) (s : state) : state :=
  {| pool := pool s; next := next s; lastHS := lastHS s; fails := fails s;
     breakerUntil := breakerUntil s; now := t; hs := hs s;
     clients := clients s; events := events s |}.

Definition emit (e : event) (s : state) : state :=
  {| pool := pool s; next := next s; lastHS := lastHS s; fails := fails s;
     breakerUntil := breakerUntil s; now := now s; hs := hs s;
     clients := clients s; events := events s ++ [e] |}.

Definition set_ok (b : bool) (e : entry) : entry :=
  {| client := client e; busy := busy e; lastUse := lastUse e; ok := b |}.
Definition set_busy (b : bool) (e : entry) : entry :=
  {| client := client e; busy := b; lastUse := lastUse e; ok := ok e |}.
Definition set_lastUse (t : Z) (e : entry) : entry :=
  {| client := client e; busy := busy e; lastUse := t; ok := ok e |}.
Definition set_client (c : nat) (e : entry) : entry :=
  {| client := c; busy := busy e; lastUse := lastUse e; ok := ok e |}.

(** Field reads through a reference [i] into the pool. *)
Definition ok_at (s : state) (i : nat) : bool :=
  match pool s !! i with Some e => ok e | None => false end.
Definition busy_at (s : state) (i : nat) : bool :=
  match pool s !! i with Some e => busy e | None => false end.

(** [await sleep(d)] and time spent waiting on the network. *)
Definition sleep (d : Z) (s : state) : state := set_now (now s + Z.max 0 d)%Z s.

(** [#awaitBreaker]: [while (breakerUntil > now) await sleep(breakerUntil - now)].
    The sleep is exact, so the body runs at most once
    (see [awaitBreaker_closed]). *)
Definition awaitBreaker (s : state) : state :=
  if (now s <? breakerUntil s)%Z then sleep (breakerUntil s - now s) s else s.

(** The open time the breaker adds: [BREAKER_BASE_MS * 2 ** Math.min(fails-1, 5)],
    [fails] being the count after the increment. *)
Definition openFor (k : nat) : Z :=
  (BREAKER_BASE_MS * 2 ^ Z.min (Z.of_nat k - 1) 5)%Z.

(** [#failure] *)
Definition failure (s : state) : state :=
  {| pool := pool s; next := next s; lastHS := lastHS s;
     fails := S (fails s);
     breakerUntil := (now s + openFor (S (fails s)))%Z;
     now := now s; hs := hs s; clients := clients s; events := events s |}.

(** [#success] *)
Definition success (s : state) : state :=
  {| pool := pool s; next := next s; lastHS := lastHS s;
     fails := 0; breakerUntil := 0;
     now := now s; hs := hs s; clients := clients s; events := events s |}.

(** [#release] *)
Definition release (i : nat) (s : state) : state :=
  emit (ERelease i)
    (set_pool (alter (λ e, set_lastUse (now s) (set_busy false e)) i) s).

(** The environment of the pool: the n-th handshake takes [hs_ms]
    milliseconds and fails with [hs_err], if any. *)
Record handshake := Handshake { hs_ms : N; hs_err : option error }.

(** The result of one attempt of a remote operation: it takes [op_ms] and
    returns a value or throws. *)
Record attempt (V : Type) := Attempt { op_ms : N; op_out : V + error }.
Arguments Attempt {V}.
Arguments op_ms {V}.
Arguments op_out {V}.

(** How a proxied call ends.  [FellThrough] is the [for] loop of [op]
    running out, which returns [undefined]. *)
Inductive outcome (V : Type) :=
| Returned (v : V)
| Thrown (e : error)
| FellThrough.
Arguments Returned {V}.
Arguments Thrown {V}.
Arguments FellThrough {V}.

Section WithNetwork.

Variable net : nat → handshake.

(** [#connect(entry)] for the entry [pool[i]]; [None] is normal completion,
    [Some err] the error thrown by [entry.client.connect]. *)
Definition connect (i : nat) (s : state) : state * option error :=
  let s1 := awaitBreaker s in
  let gap := (CONNECT_GAP_MS - (now s1 - lastHS s1))%Z in
  let s2 := if (0 <? gap)%Z then sleep gap s1 else s1 in
  let s3 := {| pool := pool s2; next := next s2; lastHS := now s2;
               fails := fails s2; breakerUntil := breakerUntil s2;
               now := (now s2 + Z.of_N (hs_ms (net (hs s2))))%Z;
               hs := S (hs s2); clients := clients s2;
               events := events s2 |} in
  match hs_err (net (hs s2)) with
  | Some err => (emit (EHandshake i false) s3, Some err)
  | None =>
      (success (set_pool (alter (set_ok true) i) (emit (EHandshake i true) s3)),
       None)
  end.

(** The body of [#ready] when the entry is not ok: replace the client. *)
Definition recreate (i : nat) (s : state) : state :=
  {| pool := alter (set_client (clients s)) i (pool s); next := next s;
     lastHS := lastHS s; fails := fails s; breakerUntil := breakerUntil s;
     now := now s; hs := hs s; clients := S (clients s);
     events := events s |}.

(** The [for] loop of [#ready], with [n] iterations left and loop
    variable [k]. *)
Fixpoint ready_loop (n k : nat) (i : nat) (s : state) : state * option error :=
  match n with
  | O => (s, None)
  | S n' =>
      let s1 := if ok_at s i then s else recreate i s in
      match connect i s1 with
      | (s2, None) => (s2, None)
      | (s2, Some err) =>
          let s3 := if refused err then failure s2 else s2 in
          let s4 := set_pool (alter (set_ok false) i) s3 in
          if (k =? LOCAL_RETRIES - 1)%nat then (s4, Some err)
          else ready_loop n' (S k) i (sleep (BACKOFF_MS * (Z.of_nat k + 1))%Z s4)
      end
  end.

(** [#ready(entry)] *)
Definition ready (i : nat) (s : state) : state * option error :=
  if ok_at s i then (s, None) else ready_loop LOCAL_RETRIES 0 i s.

(** The first loop of [#acquire]: close free entries idle for more than
    [IDLE_MS]. *)
Definition reapEntry (t : Z) (e : entry) : entry :=
  if negb (busy e) && ok e && (IDLE_MS <? t - lastUse e)%Z
  then set_ok false e else e.

Definition reap (s : state) : state := set_pool (map (reapEntry (now s))) s.

(** [#newEntry] followed by [this.#pool.push(entry)]. *)
Definition pushEntry (s : state) : state :=
  {| pool := pool s ++ [{| client := clients s; busy := false; lastUse := 0;
                           ok := false |}];
     next := next s; lastHS := lastHS s; fails := fails s;
     breakerUntil := breakerUntil s; now := now s; hs := hs s;
     clients := S (clients s);
     events := events s ++ [ECreate (length (pool s))] |}.

Definition bump_next (s : state) : state :=
  {| pool := pool s; next := S (next s); lastHS := lastHS s; fails := fails s;
     breakerUntil := breakerUntil s; now := now s; hs := hs s;
     clients := clients s; events := events s |}.

(** [#acquire]: the result is the reference of the leased entry, or the
    error [#ready] threw.  [this.#pool[this.#next++ % this.#pool.length]]
    is [undefined] exactly when the pool is empty (the index is [NaN]). *)
Definition acquire (s : state) : state * (nat + error) :=
  let s1 := reap s in
  let len := length (pool s1) in
  let cur := next s1 in
  let s2 := bump_next s1 in
  let '(s3, i) :=
    if (len =? 0)%nat || (len <? MAX_CONN)%nat
    then (pushEntry s2, len)
    else (s2, cur mod len) in
  match ready i s3 with
  | (s4, Some err) => (s4, inr err)
  | (s4, None) => (set_pool (alter (set_busy true) i) s4, inl i)
  end.

Section Call.

Context {V : Type}.
Variable run : nat → attempt V.

(** The state once the [k]-th attempt on [pool[i]] has settled. *)
Definition attempted (k i : nat) (s : state) : state :=
  emit (EAttempt i k) (set_now (now s + Z.of_N (op_ms (run k)))%Z s).

(** The retry branch of the [catch]:
    [entry.ok=false; if(err.code==='ECONNREFUSED') this.#failure();] *)
Definition invalidate (err : error) (i : nat) (s : state) : state :=
  let s1 := emit (EInvalidate i) (set_pool (alter (set_ok false) i) s) in
  if refused err then failure s1 else s1.

(** The [for] loop of [op] in [getProxy], with [n] iterations left and loop
    variable [k], on the leased entry [pool[i]]. *)
Fixpoint op_loop (n k : nat) (i : nat) (s : state) : state * outcome V :=
  match n with
  | O => (s, FellThrough)
  | S n' =>
      let s1 := attempted k i s in
      match op_out (run k) with
      | inl v => (release i s1, Returned v)
      | inr err =>
          if negb (transient err) || (k =? OP_RETRIES)%nat
          then (release i s1, Thrown err)
          else
            match ready i (invalidate err i s1) with
            | (s4, Some err') => (s4, Thrown err')
            | (s4, None) => op_loop n' (S k) i s4
            end
      end
  end.

Definition op (i : nat) (s : state) : state * outcome V :=
  op_loop (S OP_RETRIES) 0 i s.

(** The function the proxy returns for a property: acquire, then [op].
    The second component is the lease, when one was taken. *)
Definition call (s : state) : state * option nat * outcome V :=
  match acquire s with
  | (s1, inr err) => (s1, None, Thrown err)
  | (s1, inl i) => let '(s2, r) := op i s1 in (s2, Some i, r)
  end.

End Call.

End WithNetwork.

(** How often [#release] ran on [pool[i]] in a run. *)
Definition releases (i : nat) (evs : list event) : nat :=
  length (filter (λ e, e = ERelease i) evs).

(** *** Environments and states used in the examples *)

(** A network on which every handshake succeeds at once. *)
Definition good : nat → handshake := λ _, Handshake 0 None.

(** The pool after [n] leases taken and not yet released. *)
Definition leased (n : nat) : state :=
  Nat.iter n (λ s, (acquire good s).1) init.

(** Ten calls have taken their leases and nine of them have finished:
    the pool holds [MAX_CONN] healthy entries, [pool[0]] is still leased,
    the other nine are free, and the cursor [next] is at 10. *)
Definition oneLeased : state :=
  foldl (λ s i, release i s) (leased MAX_CONN) (seq 1 9).

(** [#failure] called once per element of [ds], the clock advancing by that
    element before the call: consecutive refusals with no success between. *)
Definition refusals (ds : list N) (s : state) : state :=
  foldl (λ s d, failure (set_now (now s + Z.of_N d)%Z s)) s ds.

Definition econnreset : error := Error "ECONNRESET" "Error: read ECONNRESET".
Definition enoent : error := Error "2" "Error: No such file".
Definition hsTimeout : error :=
  Error "ETIMEDOUT" "Error: Timed out while waiting for handshake".

(** The first handshake succeeds, every later one times out. *)
Definition goesDown : nat → handshake :=
  λ n, if (n =? 0)%nat then Handshake 0 None else Handshake 30000 (Some hsTimeout).

(** Every handshake is refused by the endpoint after 5 ms. *)
Definition refusing : nat → handshake :=
  λ _, Handshake 5 (Some (Error "ECONNREFUSED"
                            "Error: connect ECONNREFUSED 10.4.0.2:22")).

(** An operation whose every attempt dies of a connection reset. *)
Definition resets : nat → attempt nat := λ _, Attempt 10 (inr econnreset).

(** An operation that is reset [OP_RETRIES] times and then returns 7. *)
Definition recovers : nat → attempt nat :=
  λ k, if (k <? OP_RETRIES)%nat then Attempt 10 (inr econnreset)
       else Attempt 10 (inl 7%nat).

End SftpPool.

(** ** src/excelAutoKNFO.js (main-thread scheduler) *)

Module Scheduler.

(** The configuration read from the environment at start-up. *)
Record config := Config {
  CTXS : list string;
  TH_MB : Q;
  PARALLEL_LIMIT : Z;
  MAX_FAILURES : nat
}.

(** The values used when the environment sets nothing. *)
Definition defaults : config :=
  {| CTXS := ["CAN"]; TH_MB := 20 # 1; PARALLEL_LIMIT := 5; MAX_FAILURES := 3 |}.

Definition PATTERNS : list string :=
  ["MB51"; "MB5B"; "ME5A"; "S_P99_41000062"; "ME2L"; "ZMMR_SQVI_BUS_RAPIDA";
   "ZMMREPO"; "MRO_IO"; "KOB1"; "CJI3"; "KSB1"; "ZFIR_STATSLOAD"; "CN41N";
   "ZRPT_PS_PROJECT"; "IW49N"; "LEK2DAT_FORECAST"; "LEK2DAT_STRUCTURE_EE";
   "LEK2DAT_STRUCTURE_CC"; "LEK2DAT_STRUCTURE_CCEE"; "LEK2DAT_STRUCTURE_ACC";
   "PRESU"; "PATRI"].

(** [keyOf(ctx, file)] *)
Definition keyOf (ctx file : string) : string := ctx +:+ ":" +:+ file.

(** A queue element [{ name, sizeMB }]. *)
Record item := Item { name : string; sizeMB : Q }.

(** A batch element [{ ctx, file, large }]. *)
Record pick := Pick { ctx : string; file : string; large : bool }.

Inductive phase_t := IDLE | BOOTED | RESCANNED.

(** The module-level state of the main thread. *)
Record state := State {
  queues : gmap string (list item);
  inFlight : gset string;
  processedOK : gset string;
  flags : gmap string bool;
  failedFiles : gmap string nat;
  phase : phase_t;
  ticking : bool
}.

Definition set_queues (q : gmap string (list item)) (s : state) : state :=
  {| queues := q; inFlight := inFlight s; processedOK := processedOK s;
     flags := flags s; failedFiles := failedFiles s; phase := phase s;
     ticking := ticking s |}.
Definition set_phase (p : phase_t) (s : state) : state :=
  {| queues := queues s; inFlight := inFlight s; processedOK := processedOK s;
     flags := flags s; failedFiles := failedFiles s; phase := p;
     ticking := ticking s |}.
Definition set_ticking (b : bool) (s : state) : state :=
  {| queues := queues s; inFlight := inFlight s; processedOK := processedOK s;
     flags := flags s; failedFiles := failedFiles s; phase := phase s;
     ticking := b |}.
Definition add_processed (k : string) (s : state) : state :=
  {| queues := queues s; inFlight := inFlight s;
     processedOK := {[k]} ∪ processedOK s;
     flags := flags s; failedFiles := failedFiles s; phase := phase s;
     ticking := ticking s |}.
Definition set_failed (f : gmap string nat) (s : state) : state :=
  {| queues := queues s; inFlight := inFlight s; processedOK := processedOK s;
     flags := flags s; failedFiles := f; phase := phase s;
     ticking := ticking s |}.

(** An entry of a remote directory listing: [f.name], [f.type], [f.size]. *)
Record fileInfo := FileInfo { f_name : string; f_type : string; f_size : N }.

(** What [scanCtx] reads from the remote store for one context: the
    listings of [excelDir], of [knfoDir] and of [metaRoot]; a listing that
    fails is the empty list ([.catch(() => [])]). *)
Record listing := Listing {
  xlsList : list fileInfo;
  knfoList : list fileInfo;
  metaFiles : list fileInfo
}.

(** How the worker of a dispatched job ends, as seen by [processBatch]:
    it resolves, rejects with a message, runs into the per-file timeout of
    [withTimeout], or is still running when the tick stops waiting. *)
Inductive result := Resolved | Rejected (msg : string) | TimedOut | Pending.

(** The environment of one tick. [scan ctx = None]: [getSftpShared()]
    rejects in [scanCtx]. [work k]: the result of the worker of job [k]. *)
Record env := Env {
  scan : string → option listing;
  work : string → result
}.

(** [listAllMetaFiles] *)
Definition listAllMetaFiles (files : list fileInfo) : list string :=
  flat_map (λ f,
    if String.eqb (f_type f) "-" &&
       Str.endsWith (Str.toLowerCase (f_name f)) ".meta"
    then match Str.basename (f_name f) with
         | EmptyString => []
         | fileName => [Str.toLowerCase fileName]
         end
    else []) files.

(** [items.sort((a, b) => b.sizeMB - a.sizeMB)]: descending, stable. *)
Fixpoint insertDesc (x : item) (l : list item) : list item :=
  match l with
  | [] => [x]
  | y :: l' =>
      if Qle_bool (sizeMB y) (sizeMB x) then x :: y :: l'
      else y :: insertDesc x l'
  end.

Fixpoint sortDesc (l : list item) : list item :=
  match l with
  | [] => []
  | x :: l' => insertDesc x (sortDesc l')
  end.

Definition knfoSetOf (l : listing) : gset string :=
  list_to_set (map (λ f, Str.toLowerCase (f_name f)) (knfoList l)).
Definition metaSetOf (l : listing) : gset string :=
  list_to_set (map Str.toLowerCase (listAllMetaFiles (metaFiles l))).

Definition baseLower (nm : string) : string := Str.toLowerCase (Str.dropLast 5 nm).

(** [hasKnfo] and [hasMeta] of the first pass of [scanCtx]. *)
Definition hasKnfo (l : listing) (nm : string) : bool :=
  bool_decide (baseLower nm +:+ ".knfo" ∈ knfoSetOf l).
Definition hasMeta (l : listing) (nm : string) : bool :=
  bool_decide (baseLower nm +:+ ".meta" ∈ metaSetOf l).

(** One iteration of the first pass: [Some] is [items.push], [None] is
    [continue]. *)
Definition scanFile (c : string) (l : listing) (done : gset string)
    (f : fileInfo) : option item :=
  if negb (String.eqb (f_type f) "-") ||
     negb (Str.endsWith (Str.toLowerCase (f_name f)) ".xlsx") then None
  else if negb (existsb (Str.includes (f_name f)) PATTERNS) then None
  else if hasKnfo l (f_name f) && hasMeta l (f_name f) then None
  else if bool_decide (keyOf c (f_name f) ∈ done) &&
          negb (hasKnfo l (f_name f) && negb (hasMeta l (f_name f))) then None
  else Some {| name := f_name f; sizeMB := Z.of_N (f_size f) # 1048576 |}.

(** [scanCtx] once the listings are read. The second pass only counts
    .knfo files for the log and is left out. *)
Definition scanCtx (c : string) (l : listing) (done : gset string) : list item :=
  sortDesc (omap (scanFile c l done) (xlsList l)).

Definition isLarge (th : Q) (it : item) : bool := Qle_bool th (sizeMB it).

Section WithConfig.

Variable cfg : config.

(** [scanAll]: [None] when a [scanCtx] throws, which happens before any
    queue is written. *)
Definition scanAll (e : env) (s : state) : option state :=
  tmp ← mapM (λ c, l ← scan e c; Some (c, scanCtx c l (processedOK s))) (CTXS cfg);
  if (size (inFlight s) =? 0)%nat
  then Some (set_queues
               (foldl (λ q (ci : string * list item), <[ci.1 := ci.2]> q) ∅ tmp) s)
  else Some s.

(** [queuesEmpty] *)
Definition queuesEmpty (s : state) : bool :=
  bool_decide (map_Forall (λ _ (q : list item), length q = 0%nat) (queues s)).

(** [[...flags.values()].some(v => v.large)] *)
Definition largeInFlight (s : state) : bool :=
  bool_decide (map_Exists (λ _ (b : bool), b = true) (flags s)).

(** [queues.get(ctx) || []] *)
Definition queueOf (q : gmap string (list item)) (c : string) : list item :=
  default [] (q !! c).

(** First loop of [pickBatch]: the first context whose head is large. *)
Fixpoint pickLarge (cs : list string) (q : gmap string (list item))
    : option (pick * gmap string (list item)) :=
  match cs with
  | [] => None
  | c :: cs' =>
      match queueOf q c with
      | [] => pickLarge cs' q
      | it :: rest =>
          if isLarge (TH_MB cfg) it
          then Some ({| ctx := c; file := name it; large := true |}, <[c := rest]> q)
          else pickLarge cs' q
      end
  end.

(** The [while] loop of the second loop, on the queue [q] of context [c]. *)
Fixpoint takeSmall (c : string) (max : Z) (q : list item) (picks : list pick)
    : list item * list pick :=
  match q with
  | [] => (q, picks)
  | it :: rest =>
      if (Z.of_nat (length picks) <? max)%Z
      then if isLarge (TH_MB cfg) it then (q, picks)
           else takeSmall c max rest
                  (picks ++ [{| ctx := c; file := name it; large := false |}])
      else (q, picks)
  end.

(** Second loop of [pickBatch]. *)
Fixpoint pickSmall (cs : list string) (max : Z) (q : gmap string (list item))
    (picks : list pick) : list pick * gmap string (list item) :=
  match cs with
  | [] => (picks, q)
  | c :: cs' =>
      let '(rest, picks') := takeSmall c max (queueOf q c) picks in
      let q' := <[c := rest]> q in
      if (Z.of_nat (length picks') =? max)%Z then (picks', q')
      else pickSmall cs' max q' picks'
  end.

(** [pickBatch(max)]: the batch and the queues it leaves. *)
Definition pickBatch (max : Z) (q : gmap string (list item))
    : list pick * gmap string (list item) :=
  match pickLarge (CTXS cfg) q with
  | Some (p, q') => ([p], q')
  | None => pickSmall (CTXS cfg) max q []
  end.

Definition jobKey (p : pick) : string := keyOf (ctx p) (file p).

(** [failedFiles.get(k) || 0] *)
Definition failureCount (s : state) (k : string) : nat :=
  default 0%nat (failedFiles s !! k).

(** [inFlight.add(k); flags.set(k, { large })] *)
Definition enter (p : pick) (s : state) : state :=
  {| queues := queues s; inFlight := {[jobKey p]} ∪ inFlight s;
     processedOK := processedOK s;
     flags := <[jobKey p := large p]> (flags s);
     failedFiles := failedFiles s; phase := phase s; ticking := ticking s |}.

(** The [finally] block: [inFlight.delete(k); flags.delete(k)] *)
Definition leave (k : string) (s : state) : state :=
  {| queues := queues s; inFlight := inFlight s ∖ {[k]};
     processedOK := processedOK s;
     flags := delete k (flags s);
     failedFiles := failedFiles s; phase := phase s; ticking := ticking s |}.

(** [e?.message] of the error [withTimeout(runWorker(...))] rejects with. *)
Definition errorMsg (p : pick) (r : result) : string :=
  match r with
  | Rejected msg => msg
  | TimedOut =>
      "TIMEOUT runWorker(" +:+ ctx p +:+ ", " +:+ file p +:+ ") (" +:+
      (if large p then "600000" else "120000") +:+ "ms)"
  | _ => ""
  end.

(** The part of a job after [await withTimeout(runWorker(ctx, file), ...)]
    settles: the rest of the [try], the [catch] and the [finally]. *)
Definition settle (r : result) (p : pick) (s : state) : state :=
  let k := jobKey p in
  match r with
  | Pending => s
  | Resolved =>
      leave k (set_failed (delete k (failedFiles s)) (add_processed k s))
  | _ =>
      let n := S (failureCount s k) in
      let s1 := set_failed (<[k := n]> (failedFiles s)) s in
      let s2 := if Str.includes (errorMsg p r) "TIMEOUT" &&
                   (MAX_FAILURES cfg <=? n)%nat
                then add_processed k s1 else s1 in
      leave k s2
  end.

(** One element of [batch.map(async ...)]. The boolean tells whether
    [runWorker] was called. *)
Definition processOne (e : env) (p : pick) (s : state) : state * bool :=
  let k := jobKey p in
  let s1 := enter p s in
  if (MAX_FAILURES cfg <=? failureCount s1 k)%nat
  then (leave k (add_processed k s1), false)
  else (settle (work e k) p s1, true).

(** [processBatch]: the jobs in batch order; the second component lists
    the jobs whose worker ran. A job reads and writes the entries of its
    own key only, so for jobs with different keys the order in which they
    settle does not matter. *)
Fixpoint processBatch (e : env) (batch : list pick) (s : state)
    : state * list pick :=
  match batch with
  | [] => (s, [])
  | p :: batch' =>
      let '(s1, ran) := processOne e p s in
      let '(s2, rans) := processBatch e batch' s1 in
      (s2, if ran then p :: rans else rans)
  end.

(** What a call of [tick] did. *)
Record report := Report {
  after : state;
  batch : list pick;     (* the batch handed to [processBatch] *)
  ran : list pick;       (* the jobs whose worker was started *)
  threw : bool           (* the [catch] of [tick] logged an error *)
}.

(** The [try] block of [tick]. *)
Definition tickBody (e : env) (s : state) : report :=
  if largeInFlight s then Report s [] [] false
  else
    let scanned :=
      if queuesEmpty s && (size (inFlight s) =? 0)%nat then
        match phase s with
        | IDLE => set_phase BOOTED <$> scanAll e s
        | BOOTED => set_phase RESCANNED <$> scanAll e s
        | RESCANNED => Some (set_phase IDLE s)
        end
      else Some s in
    match scanned with
    | None => Report s [] [] true
    | Some s1 =>
        let avail := Z.max 0 (PARALLEL_LIMIT cfg - Z.of_nat (size (inFlight s1))) in
        if (avail <=? 0)%Z then Report s1 [] [] false
        else
          let '(b, q) := pickBatch avail (queues s1) in
          let s2 := set_queues q s1 in
          match b with
          | [] => Report s2 [] [] false
          | _ => let '(s3, r) := processBatch e b s2 in Report s3 b r false
          end
    end.

(** [tick] *)
Definition tick (e : env) (s : state) : report :=
  if ticking s then Report s [] [] false
  else
    let r := tickBody e (set_ticking true s) in
    Report (set_ticking false (after r)) (batch r) (ran r) (threw r).

(** The job [p] dispatched once per element of [es], each time with the
    environment of that tick; the number counts the calls of [runWorker]. *)
Fixpoint redispatch (es : list env) (p : pick) (s : state) : state * nat :=
  match es with
  | [] => (s, 0%nat)
  | e :: es' =>
      let '(s1, ran) := processOne e p s in
      let '(s2, n) := redispatch es' p s1 in
      (s2, ((if ran then 1 else 0) + n)%nat)
  end.

(** The small jobs at the front of a queue, as picks of context [c]. *)
Fixpoint smallRun (c : string) (q : list item) : list pick :=
  match q with
  | [] => []
  | it :: rest =>
      if isLarge (TH_MB cfg) it then []
      else {| ctx := c; file := name it; large := false |} :: smallRun c rest
  end.

(** The selection the specification words describe for small jobs:
    passes over the sources, each pass taking at most one small head from
    every source in turn, until [max] jobs are taken or a pass takes none. *)
Fixpoint spec_rrPass (cs : list string) (max : Z) (q : gmap string (list item))
    (picks : list pick) : list pick * gmap string (list item) :=
  match cs with
  | [] => (picks, q)
  | c :: cs' =>
      if (Z.of_nat (length picks) <? max)%Z then
        match queueOf q c with
        | it :: rest =>
            if isLarge (TH_MB cfg) it then spec_rrPass cs' max q picks
            else spec_rrPass cs' max (<[c := rest]> q)
                   (picks ++ [{| ctx := c; file := name it; large := false |}])
        | [] => spec_rrPass cs' max q picks
        end
      else (picks, q)
  end.

Fixpoint spec_roundRobin (passes : nat) (max : Z) (q : gmap string (list item))
    (picks : list pick) : list pick * gmap string (list item) :=
  match passes with
  | O => (picks, q)
  | S n =>
      let '(picks', q') := spec_rrPass (CTXS cfg) max q picks in
      if (length picks' =? length picks)%nat then (picks', q')
      else spec_roundRobin n max q' picks'
  end.

End WithConfig.

(** A worker that fails: it rejected or ran into the per-file timeout. *)
Definition isFailure (r : result) : bool :=
  match r with Rejected _ | TimedOut => true | _ => false end.

(** The head of a queue is at or above the threshold. *)
Definition largeHead (cfg : config) (q : gmap string (list item)) (c : string) : Prop :=
  ∃ it rest, queueOf q c = it :: rest ∧ isLarge (TH_MB cfg) it = true.

(** The jobs of a batch that come from source [c]. *)
Definition pickedFrom (c : string) (picks : list pick) : list pick :=
  filter (λ p, ctx p = c) picks.

(** A source [c] has jobs in flight. *)
Definition ctxInFlight (c : string) (s : state) : Prop :=
  ∃ f, keyOf c f ∈ inFlight s.

(** Descending by size. *)
Definition sortedDesc (l : list item) : Prop :=
  Sorted (λ a b, Qle (sizeMB b) (sizeMB a)) l.

(** *** Configurations, environments and states used in the examples *)

Definition twoCtx : config :=
  {| CTXS := ["CAN"; "CAS"]; TH_MB := 20 # 1; PARALLEL_LIMIT := 5;
     MAX_FAILURES := 3 |}.

Definition start : state :=
  {| queues := ∅; inFlight := ∅; processedOK := ∅; flags := ∅;
     failedFiles := ∅; phase := IDLE; ticking := false |}.

Definition with_queues (q : gmap string (list item)) : state :=
  set_queues q start.

(** In the next four the remote store cannot be reached ([scan] rejects);
    here every worker resolves. *)
Definition allResolve : env := {| scan := λ _, None; work := λ _, Resolved |}.
(** Every worker is still running when the tick stops waiting. *)
Definition allPending : env := {| scan := λ _, None; work := λ _, Pending |}.
(** Every worker rejects with the message of a failed analysis. *)
Definition allReject : env :=
  {| scan := λ _, None; work := λ _, Rejected "worker failed" |}.
Definition allTimeOut : env := {| scan := λ _, None; work := λ _, TimedOut |}.

(** The queue [100MB, 2MB, 3MB] of the specification's example. *)
Definition exampleQueue : gmap string (list item) :=
  {[ "CAN" := [Item "MB51_big.xlsx" (100 # 1); Item "MB51_b.xlsx" (2 # 1);
               Item "MB51_c.xlsx" (3 # 1)] ]}.

Definition twoQueues : gmap string (list item) :=
  <["CAN" := [Item "KOB1_a.xlsx" (3 # 1); Item "KOB1_b.xlsx" (2 # 1)]]>
    {[ "CAS" := [Item "KSB1_c.xlsx" (1 # 1)] ]}.

Definition poison : pick := Pick "CAN" "MB51_bad.xlsx" false.

(** A store where the poison file is the only workbook, with no artifacts;
    the same with its .knfo but no .meta; and with both. *)
Definition bare : listing :=
  {| xlsList := [FileInfo "MB51_bad.xlsx" "-" 4194304]; knfoList := [];
     metaFiles := [] |}.
Definition knfoOnly : listing :=
  {| xlsList := [FileInfo "MB51_bad.xlsx" "-" 4194304];
     knfoList := [FileInfo "mb51_bad.knfo" "-" 10]; metaFiles := [] |}.

(** A workbook with a capital outside A-Z in its name, here Ñ (code unit
    209): KOB1_AÑO.xlsx, stored with KOB1_AÑO.knfo and, in a
    subdirectory of the meta root, kob1_año.meta (ñ is 241). *)
Definition accented : string :=
  "KOB1_A" +:+ String (Ascii.ascii_of_nat 209) "O.xlsx".
Definition accentedKnfo : string :=
  "KOB1_A" +:+ String (Ascii.ascii_of_nat 209) "O.knfo".
Definition accentedMeta : string :=
  "kob1/kob1_a" +:+ String (Ascii.ascii_of_nat 241) "o.meta".
Definition accentedStore : listing :=
  {| xlsList := [FileInfo accented "-" 4194304];
     knfoList := [FileInfo accentedKnfo "-" 10];
     metaFiles := [FileInfo accentedMeta "-" 10] |}.

(** A scan of CAN finds one new workbook while a CAS job is in flight. *)
Definition casBusy : state :=
  {| queues := <["CAN" := []]> {[ "CAS" := [] ]};
     inFlight := {[ keyOf "CAS" "KSB1_x.xlsx" ]}; processedOK := ∅;
     flags := {[ keyOf "CAS" "KSB1_x.xlsx" := false ]};
     failedFiles := ∅; phase := BOOTED; ticking := false |}.
Definition storeBare : env := {| scan := λ _, Some bare; work := λ _, Resolved |}.

End Scheduler.

(** ** src/excelAutoKNFO.js: the HTTP control surface *)

Module Control.
Import Scheduler.

Definition MAX_ITERATIONS : nat := 1000.
Definition MAX_CONSECUTIVE_EMPTY : nat := 3.

(** The state clearing of the [/run] handler; [ticking] is not touched. *)
Definition reset (s : state) : state :=
  {| queues := ∅; inFlight := ∅; processedOK := ∅; flags := ∅;
     failedFiles := ∅; phase := IDLE; ticking := ticking s |}.

(** [!queuesEmpty() || inFlight.size > 0] *)
Definition hasPending (s : state) : bool :=
  negb (queuesEmpty s) || negb (size (inFlight s) =? 0)%nat.

(** What holds each time the loop of [runUntilComplete] is entered when
    no scan of a tick throws: the counter of empty ticks is 0, or it is 1
    and the state is at rest in phase IDLE. *)
Definition atLoopHead (c : nat) (s : state) : Prop :=
  dom (flags s) = inFlight s ∧ (c ≤ 1)%nat ∧
  (c = 1%nat → phase s = IDLE ∧ hasPending s = false).

(** The two parts of the [try] block of [tick] after the barrier: the
    scan governed by the phase, and the dispatch of a batch. *)
Definition scanPhase (cfg : config) (e : env) (s : state) : option state :=
  if queuesEmpty s && (size (inFlight s) =? 0)%nat then
    match phase s with
    | IDLE => set_phase BOOTED <$> scanAll cfg e s
    | BOOTED => set_phase RESCANNED <$> scanAll cfg e s
    | RESCANNED => Some (set_phase IDLE s)
    end
  else Some s.

Definition dispatch (cfg : config) (e : env) (s1 : state) : report :=
  let avail := Z.max 0 (PARALLEL_LIMIT cfg - Z.of_nat (size (inFlight s1))) in
  if (avail <=? 0)%Z then Report s1 [] [] false
  else
    let '(b, q) := pickBatch cfg avail (queues s1) in
    let s2 := set_queues q s1 in
    match b with
    | [] => Report s2 [] [] false
    | _ => let '(s3, r) := processBatch cfg e b s2 in Report s3 b r false
    end.

(** The phase that follows a phase in the cycle of [tick]. *)
Definition nextPhase (p : phase_t) : phase_t :=
  match p with IDLE => BOOTED | BOOTED => RESCANNED | RESCANNED => IDLE end.

(** How [runUntilComplete] ends: by its [break], by reaching
    [MAX_ITERATIONS], or because the [FINAL_CHECK] scan threw. *)
Inductive runEnd := Completed | LimitReached | Crashed.

Section WithConfig.

Variable cfg : config.
(** The environment of the tick of each iteration and of the
    [FINAL_CHECK] scan of each iteration. *)
Variable ticks : nat → env.
Variable checks : nat → env.

(** The [while] loop of [runUntilComplete] with [n] iterations left. A
    tick that is still marked running after the 30 polls of the wait loop
    has its flag forced off. The pauses of the loop are not modelled. *)
Fixpoint runLoop (n iterations consecutiveEmptyTicks : nat) (s : state)
    : state * nat * runEnd :=
  match n with
  | O => (s, iterations, LimitReached)
  | S n' =>
      let iterations := S iterations in
      let s0 := if ticking s then set_ticking false s else s in
      let s1 := after (tick cfg (ticks iterations) s0) in
      if hasPending s1 then runLoop n' iterations 0 s1
      else
        let c := S consecutiveEmptyTicks in
        match phase s1 with
        | IDLE =>
            if (MAX_CONSECUTIVE_EMPTY <=? c)%nat then
              match scanAll cfg (checks iterations) s1 with
              | None => (s1, iterations, Crashed)
              | Some s2 =>
                  if queuesEmpty s2 && (size (inFlight s2) =? 0)%nat
                  then (s2, iterations, Completed)
                  else runLoop n' iterations 0 s2
              end
            else runLoop n' iterations c s1
        | _ => runLoop n' iterations 0 (set_phase IDLE s1)
        end
  end.

(** The [/run] handler: clear the state, then [runUntilComplete]. *)
Definition run (s : state) : state * nat * runEnd :=
  runLoop MAX_ITERATIONS 0 0 (reset s).

End WithConfig.

(** [key.split(':')] *)
Fixpoint split (s : string) : list string :=
  match s with
  | EmptyString => [EmptyString]
  | String c s' =>
      if Ascii.eqb c (Ascii.ascii_of_nat 58) then EmptyString :: split s'
      else match split s' with
           | h :: t => String c h :: t
           | [] => [String c EmptyString]
           end
  end.

(** [const [ctx, file] = key.split(':')]: the first two parts, [None] for
    [undefined]. *)
Definition keyParts (key : string) : option string * option string :=
  (split key !! 0%nat, split key !! 1%nat).

(** An element of [inFlightFiles] in the answer of [/status]. *)
Definition flightInfo (s : state) (key : string)
    : option string * option string * bool :=
  (keyParts key, default false (flags s !! key)).

(** [totalPending] of [/status]:
    [[...queues.values()].reduce((acc, arr) => acc + arr.length, 0)] *)
Definition totalPending (s : state) : nat :=
  map_fold (λ _ (q : list item) acc, (acc + length q)%nat) 0%nat (queues s).

(** [byContext] of [/status], as the list of its entries. *)
Definition byContext (cfg : config) (s : state) : list (string * nat) :=
  map (λ c, (c, length (queueOf (queues s) c))) (CTXS cfg).

(** [capacity.available] of [/status] *)
Definition available (cfg : config) (s : state) : Z :=
  Z.max 0 (PARALLEL_LIMIT cfg - Z.of_nat (size (inFlight s))).

(** The string has no colon. *)
Definition noColon (s : string) : Prop := Str.includes s ":" = false.

(** Every worker resolves but that of the poison file, which rejects. *)
Definition onePoison : env :=
  {| scan := λ _, None;
     work := λ k, if String.eqb k (jobKey poison)
                  then Rejected "worker failed" else Resolved |}.

(** At rest after a rescan. *)
Definition rescanned : state := set_phase RESCANNED start.

(** An environment in which the store is reachable and holds nothing. *)
Definition emptyStore : env :=
  {| scan := λ _, Some (Listing [] [] []); work := λ _, Resolved |}.

End Control.

(** * The JSON helpers of the worker (excelAutoKNFO.js)

    The values the worker cleans before it persists a KNFO, as trees: an
    object is the list of its own enumerable entries in the order of
    [Object.entries], with distinct keys. Numbers pass through the
    helpers untouched. Values that share or contain themselves are outside
    this model. *)

Module Knfo.
Local Set Warnings "-register-all".

Inductive value :=
  | VNull
  | VUndefined
  | VBool (b : bool)
  | VNum (q : Q)
  | VStr (s : string)
  | VArr (items : list value)
  | VObj (entries : list (string * value)).

(** The negation of [v !== null && v !== undefined && v !== ''] *)
Definition isEmpty (v : value) : bool :=
  match v with
  | VNull | VUndefined => true
  | VStr s => String.eqb s ""
  | _ => false
  end.

(** [removeEmptyAttributes]. The result object is an ordinary [{}], so
    the assignment [out[k] = clean] for the key [__proto__] reaches the
    setter of [Object.prototype] and adds no entry. *)
Fixpoint removeEmptyAttributes (obj : value) : value :=
  match obj with
  | VArr l =>
      VArr (List.filter (λ v, negb (isEmpty v))
              (List.map removeEmptyAttributes l))
  | VObj l =>
      VObj ((fix entries (l : list (string * value)) :=
               match l with
               | [] => []
               | (k, v) :: l' =>
                   let clean := removeEmptyAttributes v in
                   if isEmpty clean || String.eqb k "__proto__"
                   then entries l'
                   else (k, clean) :: entries l'
               end) l)
  | _ => obj
  end.

(** The loop over [Object.entries(obj)] of [removeEmptyAttributes]. *)
Definition cleanEntries : list (string * value) → list (string * value) :=
  fix entries (l : list (string * value)) :=
    match l with
    | [] => []
    | (k, v) :: l' =>
        let clean := removeEmptyAttributes v in
        if isEmpty clean || String.eqb k "__proto__"
        then entries l'
        else (k, clean) :: entries l'
    end.

(** [pruneFrequencySinglesDeep(input, stats)]: the second component is
    [stats.removed], threaded through the calls. The result objects have
    no prototype, so every kept key is defined as an entry. *)
Fixpoint pruneFrequencySinglesDeep (input : value) (removed : nat)
    : value * nat :=
  match input with
  | VArr l =>
      let '(arr, n) :=
        (fix items (l : list value) (n : nat) : list value * nat :=
           match l with
           | [] => ([], n)
           | x :: l' =>
               let '(x', n1) := pruneFrequencySinglesDeep x n in
               let '(r, n2) := items l' n1 in
               (x' :: r, n2)
           end) l removed in
      (VArr arr, n)
  | VObj l =>
      let '(out, n) :=
        (fix entries (l : list (string * value)) (n : nat)
             : list (string * value) * nat :=
           match l with
           | [] => ([], n)
           | (k, v) :: l' =>
               if String.eqb k "frequencySingles" then entries l' (S n)
               else
                 let '(v', n1) := pruneFrequencySinglesDeep v n in
                 let '(r, n2) := entries l' n1 in
                 ((k, v') :: r, n2)
           end) l removed in
      (VObj out, n)
  | _ => (input, removed)
  end.

(** The two loops of [pruneFrequencySinglesDeep]. *)
Definition pruneItems : list value → nat → list value * nat :=
  fix items (l : list value) (n : nat) : list value * nat :=
    match l with
    | [] => ([], n)
    | x :: l' =>
        let '(x', n1) := pruneFrequencySinglesDeep x n in
        let '(r, n2) := items l' n1 in
        (x' :: r, n2)
    end.

Definition pruneEntries
    : list (string * value) → nat → list (string * value) * nat :=
  fix entries (l : list (string * value)) (n : nat)
      : list (string * value) * nat :=
    match l with
    | [] => ([], n)
    | (k, v) :: l' =>
        if String.eqb k "frequencySingles" then entries l' (S n)
        else
          let '(v', n1) := pruneFrequencySinglesDeep v n in
          let '(r, n2) := entries l' n1 in
          ((k, v') :: r, n2)
    end.

(** No array holds, and no object has an entry with, a value that is
    [null], [undefined] or the empty string, at any depth; and no object
    has an entry [__proto__]. *)
Definition cleanItem (clean : value → bool) (x : value) : bool :=
  negb (isEmpty x) && clean x.
Definition cleanEntry (clean : value → bool) (kv : string * value) : bool :=
  let '(k, v) := kv in
  negb (String.eqb k "__proto__") && negb (isEmpty v) && clean v.

Fixpoint clean (v : value) : bool :=
  match v with
  | VArr l => forallb (cleanItem clean) l
  | VObj l => forallb (cleanEntry clean) l
  | _ => true
  end.

(** No object has an entry [frequencySingles], at any depth. *)
Definition noSinglesEntry (noSingles : value → bool) (kv : string * value)
    : bool :=
  let '(k, v) := kv in
  negb (String.eqb k "frequencySingles") && noSingles v.

Fixpoint noSingles (v : value) : bool :=
  match v with
  | VArr l => forallb noSingles l
  | VObj l => forallb (noSinglesEntry noSingles) l
  | _ => true
  end.

(** What one call does, for every value of the counter it is given. *)
Definition pruned (v : value) : Prop :=
  ∀ n,
    noSingles (pruneFrequencySinglesDeep v n).1 = true ∧
    (n ≤ (pruneFrequencySinglesDeep v n).2)%nat ∧
    ((pruneFrequencySinglesDeep v n).2 = n → (pruneFrequencySinglesDeep v n).1 = v) ∧
    (noSingles v = true → (pruneFrequencySinglesDeep v n).2 = n) ∧
    isEmpty (pruneFrequencySinglesDeep v n).1 = isEmpty v ∧
    (clean v = true → clean (pruneFrequencySinglesDeep v n).1 = true) ∧
    (pruneFrequencySinglesDeep v n).1 = (pruneFrequencySinglesDeep v 0%nat).1 ∧
    (pruneFrequencySinglesDeep v n).2 = (n + (pruneFrequencySinglesDeep v 0%nat).2)%nat.

(** A value with empty attributes and a [frequencySingles] entry. *)
Definition exampleKnfo : value :=
  VObj [("__meta__", VObj [("tcode", VStr "MB51"); ("note", VStr "")]);
        ("columns", VArr [VObj [("name", VStr "Material");
                                ("frequencySingles", VArr [VNum 1; VNum 2]);
                                ("unit", VNull)];
                          VStr ""])].

End Knfo.

(** * Properties of the pool *)

(** Membership in an explicit list, case by case. *)
Ltac elem_cases H :=
  repeat match type of H with
         | _ ∈ _ :: _ => apply elem_of_cons in H as [H|H]
         | _ ∈ [] => inversion H
         end.


Module SftpPoolFacts.
Import SftpPool.
Local Open Scope nat_scope.
Local Open Scope list_scope.

Lemma awaitBreaker_closed s :
  (breakerUntil (awaitBreaker s) ≤ now (awaitBreaker s))%Z.
Proof.
  unfold awaitBreaker. destruct (Z.ltb_spec (now s) (breakerUntil s)); simpl; lia.
Qed.

Lemma awaitBreaker_fields s :
  pool (awaitBreaker s) = pool s ∧ hs (awaitBreaker s) = hs s ∧
  breakerUntil (awaitBreaker s) = breakerUntil s ∧
  (now s ≤ now (awaitBreaker s))%Z.
Proof.
  unfold awaitBreaker. destruct (Z.ltb_spec (now s) (breakerUntil s)); simpl;
    repeat split; lia.
Qed.

Lemma ok_at_alter_ok b i s :
  i < length (pool s) → ok_at (set_pool (alter (set_ok b) i) s) i = b.
Proof.
  intros Hi. unfold ok_at; simpl. rewrite list_lookup_alter_eq.
  destruct (lookup_lt_is_Some_2 (pool s) i Hi) as [e ->]. reflexivity.
Qed.

(** [#connect] keeps the pool's shape, starts exactly one handshake, and
    ends normally exactly when that handshake succeeds. *)
Lemma connect_shape net i s :
  length (pool (connect net i s).1) = length (pool s) ∧
  hs (connect net i s).1 = S (hs s) ∧
  (connect net i s).2 = hs_err (net (hs s)).
Proof.
  unfold connect.
  destruct (awaitBreaker_fields s) as (Hp & Hh & _ & _).
  set (s1 := awaitBreaker s) in *.
  assert (Hs2 : ∀ g, pool (if (0 <? g)%Z then sleep g s1 else s1) = pool s
                 ∧ hs (if (0 <? g)%Z then sleep g s1 else s1) = hs s).
  { intros g. destruct (0 <? g)%Z; simpl; auto. }
  destruct (Hs2 (CONNECT_GAP_MS - (now s1 - lastHS s1))%Z) as [Hp2 Hh2].
  rewrite Hh2. destruct (hs_err (net (hs s))); simpl;
    rewrite ?length_alter, ?Hp2, ?Hh2; auto.
Qed.

Lemma connect_ok net i s :
  i < length (pool s) → (connect net i s).2 = None →
  ok_at (connect net i s).1 i = true.
Proof.
  intros Hi. destruct (connect_shape net i s) as (_ & _ & ->).
  unfold connect.
  destruct (awaitBreaker_fields s) as (Hp & Hh & _ & _).
  set (s1 := awaitBreaker s) in *.
  set (s2 := if (0 <? _)%Z then sleep _ s1 else s1).
  assert (Hp2 : pool s2 = pool s) by (subst s2; destruct (0 <? _)%Z; simpl; auto).
  assert (Hh2 : hs s2 = hs s) by (subst s2; destruct (0 <? _)%Z; simpl; auto).
  rewrite Hh2. intros ->. simpl. unfold ok_at. simpl.
  rewrite list_lookup_alter_eq, Hp2.
  destruct (lookup_lt_is_Some_2 (pool s) i Hi) as [e ->]. reflexivity.
Qed.

(** Case split on a loop's exit test [k =? m]. *)
Ltac case_exit k :=
  match goal with
  | |- context [(k =? ?m)%nat] => destruct (Nat.eqb_spec k m)
  end.

Lemma recreate_shape i s :
  length (pool (recreate i s)) = length (pool s) ∧ hs (recreate i s) = hs s.
Proof. unfold recreate; simpl. rewrite length_alter. auto. Qed.

Lemma ready_loop_shape net n k i s :
  length (pool (ready_loop net n k i s).1) = length (pool s).
Proof.
  revert k s. induction n as [|n IH]; intros k s; simpl; [reflexivity|].
  set (s1 := if ok_at s i then s else recreate i s).
  assert (H1 : length (pool s1) = length (pool s)).
  { subst s1. destruct (ok_at s i); [reflexivity|apply recreate_shape]. }
  destruct (connect_shape net i s1) as (Hl & _ & _).
  destruct (connect net i s1) as [s2 [err|]]; simpl in *; [|congruence].
  case_exit k; rewrite ?IH;
    destruct (refused err); simpl; rewrite length_alter; congruence.
Qed.

(** When the repair loop of [#ready] ends normally the entry is ok: its
    last iteration either connects or throws. *)
Lemma ready_loop_ok net n k i s :
  i < length (pool s) → n + k = LOCAL_RETRIES → 0 < n →
  (ready_loop net n k i s).2 = None → ok_at (ready_loop net n k i s).1 i = true.
Proof.
  revert k s. induction n as [|n IH]; intros k s Hi Hnk Hn; [lia|]. simpl.
  set (s1 := if ok_at s i then s else recreate i s).
  assert (H1 : length (pool s1) = length (pool s)).
  { subst s1. destruct (ok_at s i); [reflexivity|apply recreate_shape]. }
  destruct (connect_shape net i s1) as (Hl & _ & _).
  pose proof (connect_ok net i s1) as Hok.
  destruct (connect net i s1) as [s2 [err|]]; simpl in *.
  - case_exit k; simpl; [discriminate|].
    unfold LOCAL_RETRIES in *.
    apply IH; try lia. destruct (refused err); simpl; rewrite length_alter; lia.
  - intros _. apply Hok; [lia|reflexivity].
Qed.

Lemma ready_shape net i s :
  length (pool (ready net i s).1) = length (pool s).
Proof. unfold ready. destruct (ok_at s i); [reflexivity|apply ready_loop_shape]. Qed.

Lemma ready_ok net i s :
  i < length (pool s) → (ready net i s).2 = None → ok_at (ready net i s).1 i = true.
Proof.
  unfold ready. destruct (ok_at s i) eqn:E; [auto|].
  intros Hi. apply ready_loop_ok; unfold LOCAL_RETRIES; lia.
Qed.

(** Whether [#acquire] creates an entry depends on the size of the pool
    alone, also when it ends in an error. *)
Lemma acquire_growth net s :
  length (pool (acquire net s).1) =
  if (length (pool s) <? MAX_CONN)%nat then S (length (pool s)) else length (pool s).
Proof.
  unfold acquire. simpl. rewrite length_map.
  destruct (Nat.ltb_spec (length (pool s)) MAX_CONN) as [Hlt|Hge].
  - rewrite orb_true_r.
    pose proof (ready_shape net (length (pool s)) (pushEntry (bump_next (reap s)))) as Hr.
    destruct (ready net _ _) as [s4 [err|]]; simpl in *; rewrite ?length_alter, Hr;
      rewrite length_app, length_map; simpl; lia.
  - assert ((length (pool s) =? 0)%nat = false) as ->
      by (apply Nat.eqb_neq; unfold MAX_CONN in *; lia).
    simpl.
    pose proof (ready_shape net (next s `mod` length (pool s)) (bump_next (reap s))) as Hr.
    destruct (ready net _ _) as [s4 [err|]]; simpl in *; rewrite ?length_alter, Hr;
      rewrite length_map; lia.
Qed.

Lemma ready_next net i s : next (ready net i s).1 = next s.
Proof.
  assert (Hc : ∀ j t, next (connect net j t).1 = next t).
  { intros j t. unfold connect, awaitBreaker.
    destruct (now t <? breakerUntil t)%Z; simpl;
      match goal with |- context [(0 <? ?g)%Z] => destruct (0 <? g)%Z end;
      destruct (hs_err _); reflexivity. }
  assert (Hl : ∀ n k t, next (ready_loop net n k i t).1 = next t).
  { induction n as [|n IH]; intros k t; simpl; [reflexivity|].
    set (t1 := if ok_at t i then t else recreate i t).
    assert (next t1 = next t) by (subst t1; destruct (ok_at t i); reflexivity).
    specialize (Hc i t1).
    destruct (connect net i t1) as [t2 [err|]]; simpl in *; [|congruence].
    case_exit k; simpl; rewrite ?IH; simpl;
      destruct (refused err); simpl; congruence. }
  unfold ready. destruct (ok_at s i); [reflexivity|apply Hl].
Qed.

(** C1 (the code breaks it): with ten healthy entries of which only
    [pool[0]] is leased and nine are free, the next [#acquire] creates
    nothing, never looks at [busy], and hands out [pool[0]], the one entry
    that is leased at that moment; two calls then hold the same client. *)
Theorem acquire_hands_out_leased_entry :
  length (pool oneLeased) = MAX_CONN ∧
  next oneLeased = MAX_CONN ∧
  busy_at oneLeased 0 = true ∧ ok_at oneLeased 0 = true ∧
  (∀ j, 1 ≤ j < MAX_CONN →
     busy_at oneLeased j = false ∧ ok_at oneLeased j = true) ∧
  (acquire good oneLeased).2 = inl 0 ∧
  pool (acquire good oneLeased).1 !! 0 = pool oneLeased !! 0 ∧
  length (pool (acquire good oneLeased).1) = MAX_CONN.
Proof.
  split; [vm_compute; reflexivity|].
  split; [vm_compute; reflexivity|].
  split; [vm_compute; reflexivity|].
  split; [vm_compute; reflexivity|].
  split; [|split; [|split]]; try (vm_compute; reflexivity).
  intros j [Hj1 Hj2]. unfold MAX_CONN in Hj2.
  destruct j as [|j]; [lia|].
  do 9 (destruct j as [|j]; [split; vm_compute; reflexivity|]). lia.
Qed.

(** At capacity with every entry leased, the next [#acquire] succeeds and
    hands out [pool[0]], which is leased at that moment. *)
Lemma acquire_reuses_leased_entry :
  length (pool (leased MAX_CONN)) = MAX_CONN ∧
  (∀ i, i < MAX_CONN → busy_at (leased MAX_CONN) i = true) ∧
  (acquire good (leased MAX_CONN)).2 = inl 0 ∧
  busy_at (leased MAX_CONN) 0 = true ∧
  length (pool (acquire good (leased MAX_CONN)).1) = MAX_CONN.
Proof.
  split; [vm_compute; reflexivity|].
  split; [|split; [|split]]; try (vm_compute; reflexivity).
  intros i Hi. unfold MAX_CONN in Hi.
  do 10 (destruct i as [|i]; [vm_compute; reflexivity|]). lia.
Qed.

(** X26: what [#acquire] does. A successful [#acquire] returns an entry of
    the pool that is ok and marks it busy; it creates an entry exactly when
    the pool holds fewer than [MAX_CONN] entries (an empty pool included)
    and returns the new one; otherwise it returns the entry under the
    round-robin cursor, [pool[next mod length]]; the cursor advances by
    one. *)
Theorem acquire_spec net s s' i :
  acquire net s = (s', inl i) →
  i < length (pool s') ∧ ok_at s' i = true ∧ busy_at s' i = true ∧
  next s' = S (next s) ∧
  (length (pool s) < MAX_CONN →
     length (pool s') = S (length (pool s)) ∧ i = length (pool s)) ∧
  ((MAX_CONN ≤ length (pool s))%nat →
     length (pool s') = length (pool s) ∧ i = next s `mod` length (pool s)).
Proof.
  intros Ha. pose proof (acquire_growth net s) as Hg. rewrite Ha in Hg. simpl in Hg.
  unfold acquire in Ha. simpl in Ha. rewrite length_map in Ha.
  set (grow := (length (pool s) =? 0)%nat || (length (pool s) <? MAX_CONN)%nat) in Ha.
  set (si := if grow then (pushEntry (bump_next (reap s)), length (pool s))
             else (bump_next (reap s), next s `mod` length (pool s))) in Ha.
  assert (Hsi : si.2 < length (pool si.1) ∧ next si.1 = S (next s) ∧
                si.2 = if (length (pool s) <? MAX_CONN)%nat then length (pool s)
                       else next s `mod` length (pool s)).
  { subst si grow. destruct (Nat.ltb_spec (length (pool s)) MAX_CONN) as [Hlt|Hge].
    - rewrite orb_true_r. simpl. rewrite length_app, length_map. simpl. lia.
    - assert ((length (pool s) =? 0)%nat = false) as ->
        by (apply Nat.eqb_neq; unfold MAX_CONN in *; lia).
      simpl. rewrite length_map. repeat split.
      apply Nat.mod_upper_bound. unfold MAX_CONN in *; lia. }
  destruct si as [s3 j]. simpl in Hsi. destruct Hsi as (Hj & Hn & Hj').
  pose proof (ready_shape net j s3) as Hl.
  pose proof (ready_ok net j s3 Hj) as Hok.
  pose proof (ready_next net j s3) as Hnx.
  destruct (ready net j s3) as [s4 [err|]]; [discriminate|].
  injection Ha as <- <-. simpl in *.
  assert (Hj4 : j < length (pool s4)) by lia.
  destruct (lookup_lt_is_Some_2 (pool s4) j Hj4) as [e He].
  specialize (Hok eq_refl). unfold ok_at in Hok. rewrite He in Hok.
  unfold ok_at, busy_at. simpl. rewrite length_alter, list_lookup_alter_eq, He. simpl.
  rewrite length_alter in Hg.
  repeat split; try lia; try assumption;
    destruct (Nat.ltb_spec (length (pool s)) MAX_CONN); lia.
Qed.

Lemma acquire_spec_witness :
  acquire good (leased 2) = ((acquire good (leased 2)).1, inl 2) ∧
  ok_at (acquire good (leased 2)).1 2 = true ∧
  busy_at (acquire good (leased 2)).1 2 = true.
Proof.
  assert (H : acquire good (leased 2) = ((acquire good (leased 2)).1, inl 2))
    by (vm_compute; reflexivity).
  split; [exact H|].
  destruct (acquire_spec good (leased 2) _ 2 H) as (_ & Hok & Hbusy & _).
  split; assumption.
Defined.

Lemma refusals_snoc ds d s :
  refusals (ds ++ [d]) s =
  failure (set_now (now (refusals ds s) + Z.of_N d)%Z (refusals ds s)).
Proof. unfold refusals. rewrite foldl_app. reflexivity. Qed.

Lemma refusals_fails ds s : fails (refusals ds s) = fails s + length ds.
Proof.
  induction ds as [|d ds IH] using rev_ind; [simpl; lia|].
  rewrite refusals_snoc, length_app. simpl. lia.
Qed.

Lemma openFor_mono k j : k ≤ j → (openFor k ≤ openFor j)%Z.
Proof.
  intros Hkj. unfold openFor, BREAKER_BASE_MS.
  apply Z.mul_le_mono_nonneg_l; [lia|].
  apply Z.pow_le_mono_r; lia.
Qed.

(** [#connect] stamps [lastHS] after the breaker wait and the pacing
    sleep, so the handshake starts no earlier than the breaker allows. *)
Lemma connect_after_breaker net i s :
  (breakerUntil s ≤ lastHS (connect net i s).1)%Z.
Proof.
  pose proof (awaitBreaker_closed s) as Hc.
  destruct (awaitBreaker_fields s) as (_ & _ & Hb & _).
  unfold connect. set (s1 := awaitBreaker s) in *.
  set (g := (CONNECT_GAP_MS - (now s1 - lastHS s1))%Z).
  assert (Hs2 : (now s1 ≤ now (if (0 <? g)%Z then sleep g s1 else s1))%Z).
  { destruct (0 <? g)%Z; simpl; lia. }
  destruct (hs_err _); simpl; lia.
Qed.

Lemma connect_resets net i s :
  (connect net i s).2 = None →
  fails (connect net i s).1 = 0 ∧ breakerUntil (connect net i s).1 = 0%Z.
Proof. unfold connect. destruct (hs_err _); simpl; [discriminate|auto]. Qed.

(** C3: after [k >= 1] consecutive refusals, whatever the times at which
    they happen, the failure count is [k] and the breaker is open for
    [BREAKER_BASE_MS * 2^min(k-1, 5)] counted from the last of them; that
    duration does not decrease with [k]; [#connect] starts its handshake no
    earlier than the breaker's deadline; and a handshake that succeeds sets
    the count to 0 and closes the breaker. *)
Theorem breaker_backoff (k : nat) (ds : list N) (s : state) :
  1 ≤ k → length ds = k → fails s = 0 →
  fails (refusals ds s) = k ∧
  (breakerUntil (refusals ds s) - now (refusals ds s) = openFor k)%Z ∧
  (openFor k = 60000 * 2 ^ Z.min (Z.of_nat k - 1) 5)%Z ∧
  (∀ j, k ≤ j → (openFor k ≤ openFor j)%Z) ∧
  (∀ net i s0, (breakerUntil s0 ≤ lastHS (connect net i s0).1)%Z) ∧
  (∀ net i s0, (connect net i s0).2 = None →
     fails (connect net i s0).1 = 0 ∧ breakerUntil (connect net i s0).1 = 0%Z).
Proof.
  intros Hk Hlen H0.
  pose proof (refusals_fails ds s) as Hf. rewrite H0, Hlen in Hf. simpl in Hf.
  split; [exact Hf|]. split.
  - destruct ds as [|d ds _] using rev_ind; [simpl in Hlen; lia|].
    rewrite refusals_snoc. simpl.
    rewrite refusals_snoc in Hf. simpl in Hf. rewrite Hf. lia.
  - split; [reflexivity|]. split; [intros j; apply openFor_mono|].
    split; [apply connect_after_breaker|apply connect_resets].
Qed.

Lemma breaker_backoff_witness :
  fails (refusals [5; 0; 700]%N init) = 3 ∧
  (breakerUntil (refusals [5; 0; 700]%N init) - now (refusals [5; 0; 700]%N init)
   = 240000)%Z.
Proof.
  destruct (breaker_backoff 3 [5; 0; 700]%N init) as (Hf & Hb & _);
    [lia|reflexivity|reflexivity|].
  split; [exact Hf|exact Hb].
Defined.

Lemma connect_events net i s :
  events (connect net i s).1 =
  events s ++ [EHandshake i (bool_decide ((connect net i s).2 = None))].
Proof.
  unfold connect, awaitBreaker.
  destruct (now s <? breakerUntil s)%Z; simpl;
    match goal with |- context [(0 <? ?g)%Z] => destruct (0 <? g)%Z end;
    simpl; destruct (hs_err _); reflexivity.
Qed.

(** The handshakes of the repair loop: some that fail, then one that
    succeeds when the loop ends normally. *)
Lemma ready_loop_events net n k i s :
  0 < n → n + k = LOCAL_RETRIES →
  ∃ m, events (ready_loop net n k i s).1 =
       events s ++ replicate m (EHandshake i false) ++
       (if (ready_loop net n k i s).2 is None then [EHandshake i true] else []).
Proof.
  revert k s. induction n as [|n IH]; intros k s Hn Hnk; [lia|]. simpl.
  set (s1 := if ok_at s i then s else recreate i s).
  assert (H1 : events s1 = events s) by (subst s1; destruct (ok_at s i); reflexivity).
  pose proof (connect_events net i s1) as He.
  destruct (connect net i s1) as [s2 [err|]]; simpl in *.
  - case_exit k; simpl.
    + exists 1. rewrite app_nil_r. simpl.
      destruct (refused err); simpl; rewrite He, H1; reflexivity.
    + unfold LOCAL_RETRIES in *.
      destruct (IH (S k) (sleep (BACKOFF_MS * (Z.of_nat k + 1))
                  (set_pool (alter (set_ok false) i)
                     (if refused err then failure s2 else s2)))) as [m Hm];
        [lia|lia|].
      exists (S m). rewrite Hm. simpl.
      replace (events (if refused err then failure s2 else s2)) with (events s2)
        by (destruct (refused err); reflexivity).
      rewrite He, H1, <- !app_assoc. reflexivity.
  - exists 0. simpl. rewrite He, H1. reflexivity.
Qed.

Lemma ready_events net i s :
  ok_at s i = false →
  ∃ m, events (ready net i s).1 =
       events s ++ replicate m (EHandshake i false) ++
       (if (ready net i s).2 is None then [EHandshake i true] else []).
Proof.
  intros Hok. unfold ready. rewrite Hok.
  apply ready_loop_events; unfold LOCAL_RETRIES; lia.
Qed.

(** On a network whose handshakes all succeed, [#ready] ends normally. *)
Lemma ready_good net i s :
  (∀ n, hs_err (net n) = None) → (ready net i s).2 = None.
Proof.
  intros Hg. unfold ready. destruct (ok_at s i); [reflexivity|].
  unfold LOCAL_RETRIES. simpl.
  set (s1 := if ok_at s i then s else recreate i s).
  destruct (connect_shape net i s1) as (_ & _ & Hr). rewrite Hg in Hr.
  destruct (connect net i s1) as [s2 r]. simpl in Hr. subst r. reflexivity.
Qed.

Section Proxy.

Context {V : Type}.
Variable net : nat → handshake.
Variable run : nat → attempt V.

Lemma invalidate_shape err i s :
  length (pool (invalidate err i s)) = length (pool s) ∧
  events (invalidate err i s) = events s ++ [EInvalidate i] ∧
  (i < length (pool s) → ok_at (invalidate err i s) i = false).
Proof.
  unfold invalidate.
  destruct (refused err); simpl; rewrite length_alter; (split; [reflexivity|]);
    (split; [reflexivity|]); intros Hi; unfold ok_at; simpl;
    rewrite list_lookup_alter_eq;
    destruct (lookup_lt_is_Some_2 (pool s) i Hi) as [e ->]; reflexivity.
Qed.

(** One iteration that ends the call with a value. *)
Lemma op_loop_return n k i s v :
  op_out (run k) = inl v →
  op_loop net run (S n) k i s = (release i (attempted run k i s), Returned v).
Proof. intros H. simpl. rewrite H. reflexivity. Qed.

(** One iteration that ends the call by re-raising the attempt's error. *)
Lemma op_loop_raise n k i s e :
  op_out (run k) = inr e → transient e = false ∨ k = OP_RETRIES →
  op_loop net run (S n) k i s = (release i (attempted run k i s), Thrown e).
Proof.
  intros H Hc. simpl. rewrite H.
  destruct Hc as [-> | ->]; [reflexivity|].
  rewrite Nat.eqb_refl, orb_true_r. reflexivity.
Qed.

(** One iteration that retries: the entry is invalidated and [#ready]
    repairs it; the loop goes on only if that succeeds. *)
Lemma op_loop_retry n k i s e :
  op_out (run k) = inr e → transient e = true → k ≠ OP_RETRIES →
  op_loop net run (S n) k i s =
  match ready net i (invalidate e i (attempted run k i s)) with
  | (s4, Some e') => (s4, Thrown e')
  | (s4, None) => op_loop net run n (S k) i s4
  end.
Proof.
  intros H Ht Hk. simpl. rewrite H, Ht.
  apply Nat.eqb_neq in Hk. rewrite Hk. reflexivity.
Qed.

(** With every handshake succeeding, [m] transient failures in a row
    lead to the iteration after them. *)
Lemma op_loop_skip m n k i s :
  (∀ h, hs_err (net h) = None) →
  (∀ j, k ≤ j < k + m → ∃ e, op_out (run j) = inr e ∧ transient e = true) →
  k + m ≤ OP_RETRIES →
  ∃ s', op_loop net run (m + n) k i s = op_loop net run n (k + m) i s'.
Proof.
  intros Hg. revert k s. induction m as [|m IH]; intros k s Hf Hk.
  - exists s. rewrite Nat.add_0_r. reflexivity.
  - destruct (Hf k) as (e & He & Ht); [lia|].
    change (S m + n) with (S (m + n)).
    rewrite (op_loop_retry (m + n) k i s e He Ht) by lia.
    pose proof (ready_good net i (invalidate e i (attempted run k i s)) Hg) as Hr.
    destruct (ready net i _) as [s4 r]. simpl in Hr. subst r.
    destruct (IH (S k) s4) as [s' Hs']; [intros j Hj; apply Hf; lia|lia|].
    exists s'. rewrite Hs'. f_equal. lia.
Qed.

(** The attempts of the loop are numbered from [k] and there are at most
    [n] of them. *)
Lemma op_loop_attempts n k i s :
  ∃ tr, events (op_loop net run n k i s).1 = events s ++ tr ∧
        ∀ j, EAttempt i j ∈ tr → k ≤ j < k + n.
Proof.
  revert k s. induction n as [|n IH]; intros k s.
  - exists []. simpl. rewrite app_nil_r. split; [reflexivity|]. intros j Hj. inversion Hj.
  - simpl. destruct (op_out (run k)) as [v|e] eqn:Ho.
    + exists [EAttempt i k; ERelease i]. simpl. rewrite <- app_assoc. split; [reflexivity|].
      intros j Hj. elem_cases Hj; [injection Hj as ->; lia|discriminate].
    + destruct (negb (transient e) || (k =? OP_RETRIES)).
      * exists [EAttempt i k; ERelease i]. simpl. rewrite <- app_assoc. split; [reflexivity|].
        intros j Hj. elem_cases Hj; [injection Hj as ->; lia|discriminate].
      * set (s1 := invalidate e i (attempted run k i s)).
        assert (Hs1 : events s1 = events s ++ [EAttempt i k; EInvalidate i]).
        { subst s1. destruct (invalidate_shape e i (attempted run k i s)) as (_ & -> & _).
          simpl. rewrite <- app_assoc. reflexivity. }
        assert (Hr : ∃ m b, events (ready net i s1).1 =
                     events s1 ++ replicate m (EHandshake i false) ++
                     (if b : bool then [EHandshake i true] else [])).
        { unfold ready. destruct (ok_at s1 i).
          - exists 0, false. simpl. rewrite app_nil_r. reflexivity.
          - destruct (ready_loop_events net LOCAL_RETRIES 0 i s1) as [m Hm];
              [unfold LOCAL_RETRIES; lia|lia|].
            exists m. destruct (ready_loop net LOCAL_RETRIES 0 i s1).2;
              [exists false|exists true]; exact Hm. }
        destruct Hr as (m & b & Hr).
        assert (Hnone : ∀ j, EAttempt i j ∉ replicate m (EHandshake i false) ++
                               (if b then [EHandshake i true] else [])).
        { intros j Hj. apply elem_of_app in Hj as [Hj|Hj].
          - apply elem_of_replicate in Hj as [Hj _]. discriminate.
          - destruct b; elem_cases Hj; discriminate. }
        destruct (ready net i s1) as [s4 [e'|]]; simpl in *.
        -- eexists. rewrite Hr, Hs1, <- !app_assoc. split; [reflexivity|].
           intros j Hj. rewrite !elem_of_app in Hj. destruct Hj as [Hj|Hj].
           ++ elem_cases Hj; [injection Hj as ->; lia|discriminate].
           ++ exfalso. apply (Hnone j). apply elem_of_app. exact Hj.
        -- destruct (IH (S k) s4) as (tr & Htr & Hin).
           eexists. rewrite Htr, Hr, Hs1, <- !app_assoc. split; [reflexivity|].
           intros j Hj. rewrite !elem_of_app in Hj.
           destruct Hj as [Hj|[Hj|[Hj|Hj]]].
           ++ elem_cases Hj; [injection Hj as ->; lia|discriminate].
           ++ exfalso. apply (Hnone j). apply elem_of_app. left. exact Hj.
           ++ exfalso. apply (Hnone j). apply elem_of_app. right. exact Hj.
           ++ apply Hin in Hj. lia.
Qed.

End Proxy.

(** C6: in a proxied call on the leased entry [pool[i]],
    - an attempt before the last one that fails with a transient error
      marks the entry not ok and runs [#ready]: if that fails the call ends
      with its error, otherwise the entry is ok again after a handshake that
      succeeded and only then the next attempt is made;
    - the attempts are numbered 0 to [OP_RETRIES] at most;
    - [OP_RETRIES] transient failures followed by a success return the
      success value (the reconnections succeeding);
    - an error that is not transient, or the error of attempt [OP_RETRIES],
      is re-raised as it is. *)
Theorem proxy_retry {V : Type} (net : nat → handshake) (run : nat → attempt V)
    (i : nat) :
  (∀ n k s e, i < length (pool s) →
     op_out (run k) = inr e → transient e = true → k < OP_RETRIES →
     let s1 := invalidate e i (attempted run k i s) in
     ok_at s1 i = false ∧
     (∀ e', (ready net i s1).2 = Some e' →
        (op_loop net run (S n) k i s).2 = Thrown e') ∧
     ((ready net i s1).2 = None →
        ok_at (ready net i s1).1 i = true ∧
        (∃ m, events (ready net i s1).1 =
              events s ++ [EAttempt i k; EInvalidate i] ++
              replicate m (EHandshake i false) ++ [EHandshake i true]) ∧
        op_loop net run (S n) k i s = op_loop net run n (S k) i (ready net i s1).1)) ∧
  (∀ s, ∃ tr, events (op net run i s).1 = events s ++ tr ∧
        ∀ j, EAttempt i j ∈ tr → j ≤ OP_RETRIES) ∧
  (∀ s v, (∀ h, hs_err (net h) = None) →
     (∀ k, k < OP_RETRIES → ∃ e, op_out (run k) = inr e ∧ transient e = true) →
     op_out (run OP_RETRIES) = inl v →
     (op net run i s).2 = Returned v) ∧
  (∀ n k s e, op_out (run k) = inr e → transient e = false ∨ k = OP_RETRIES →
     (op_loop net run (S n) k i s).2 = Thrown e) ∧
  (∀ s e, (∀ h, hs_err (net h) = None) →
     (∀ k, k < OP_RETRIES → ∃ e', op_out (run k) = inr e' ∧ transient e' = true) →
     op_out (run OP_RETRIES) = inr e →
     (op net run i s).2 = Thrown e).
Proof.
  split; [|split; [|split; [|split]]].
  - intros n k s e Hi Ho Ht Hk s1.
    destruct (invalidate_shape e i (attempted run k i s)) as (Hl & Hev & Hok).
    fold s1 in Hl, Hev, Hok. simpl in Hl, Hok. specialize (Hok Hi).
    split; [exact Hok|].
    rewrite (op_loop_retry net run n k i s e Ho Ht) by lia. fold s1.
    pose proof (ready_ok net i s1) as Hrk.
    destruct (ready_events net i s1 Hok) as [m Hm].
    destruct (ready net i s1) as [s4 [e'|]]; simpl in *.
    + split; [intros e'' [= ->]; reflexivity|discriminate].
    + split; [discriminate|]. intros _.
      split; [apply Hrk; [lia|reflexivity]|].
      split; [|reflexivity].
      exists m. rewrite Hm, Hev. simpl. rewrite <- !app_assoc. reflexivity.
  - intros s. destruct (op_loop_attempts net run (S OP_RETRIES) 0 i s) as (tr & Htr & Hin).
    exists tr. split; [exact Htr|]. intros j Hj. apply Hin in Hj. lia.
  - intros s v Hg Hf Hv. unfold op.
    destruct (op_loop_skip net run OP_RETRIES 1 0 i s Hg) as [s' Hs'];
      [intros j Hj; apply Hf; lia|lia|].
    replace (S OP_RETRIES) with (OP_RETRIES + 1) by lia.
    rewrite Hs'. simpl "+". rewrite (op_loop_return net run 0 _ i s' v Hv). reflexivity.
  - intros n k s e Ho Hc. rewrite (op_loop_raise net run n k i s e Ho Hc). reflexivity.
  - intros s e Hg Hf He. unfold op.
    destruct (op_loop_skip net run OP_RETRIES 1 0 i s Hg) as [s' Hs'];
      [intros j Hj; apply Hf; lia|lia|].
    replace (S OP_RETRIES) with (OP_RETRIES + 1) by lia.
    rewrite Hs'. simpl "+".
    rewrite (op_loop_raise net run 0 _ i s' e He) by (right; reflexivity). reflexivity.
Qed.

Lemma proxy_retry_witness : (op good recovers 0 (leased 1)).2 = Returned 7.
Proof.
  destruct (proxy_retry good recovers 0) as (_ & _ & Hret & _).
  apply Hret; [reflexivity| |reflexivity].
  intros k Hk. exists econnreset. unfold OP_RETRIES in Hk.
  destruct k as [|[|k]]; [split; reflexivity|split; reflexivity|lia].
Defined.

(** [#release] clears the busy flag of the entry and is counted once. *)
Lemma release_clears i s :
  i < length (pool s) →
  busy_at (release i s) i = false ∧
  releases i (events (release i s)) = S (releases i (events s)).
Proof.
  intros Hi. unfold release, busy_at, releases. simpl.
  rewrite list_lookup_alter_eq.
  destruct (lookup_lt_is_Some_2 (pool s) i Hi) as [e ->]. simpl.
  split; [reflexivity|].
  rewrite filter_app, length_app.
  rewrite (filter_cons_True _ (ERelease i) []) by reflexivity. simpl. lia.
Qed.

Lemma busy_at_alter (f : entry → entry) i j s :
  (∀ e, busy (f e) = busy e) →
  busy_at (set_pool (alter f i) s) j = busy_at s j.
Proof.
  intros Hf. unfold busy_at. simpl. rewrite list_lookup_alter.
  destruct (decide (i = j)) as [->|]; [|reflexivity].
  destruct (pool s !! j); simpl; [apply Hf|reflexivity].
Qed.

Lemma connect_busy net i j s : busy_at (connect net i s).1 j = busy_at s j.
Proof.
  unfold connect, awaitBreaker.
  destruct (now s <? breakerUntil s)%Z; simpl;
    match goal with |- context [(0 <? ?g)%Z] => destruct (0 <? g)%Z end;
    simpl; destruct (hs_err _); simpl; try reflexivity;
    unfold busy_at; simpl; rewrite list_lookup_alter;
    destruct (decide (i = j)) as [->|]; try reflexivity;
    destruct (pool s !! j); reflexivity.
Qed.

Lemma ready_loop_busy net n k i j s :
  busy_at (ready_loop net n k i s).1 j = busy_at s j.
Proof.
  revert k s. induction n as [|n IH]; intros k s; simpl; [reflexivity|].
  set (s1 := if ok_at s i then s else recreate i s).
  assert (H1 : busy_at s1 j = busy_at s j).
  { subst s1. destruct (ok_at s i); [reflexivity|].
    unfold recreate, busy_at. simpl. rewrite list_lookup_alter.
    destruct (decide (i = j)) as [->|]; [|reflexivity].
    destruct (pool s !! j); reflexivity. }
  pose proof (connect_busy net i j s1) as Hc.
  destruct (connect net i s1) as [s2 [err|]]; simpl in *; [|congruence].
  assert (H4 : busy_at (set_pool (alter (set_ok false) i)
                 (if refused err then failure s2 else s2)) j = busy_at s j).
  { rewrite busy_at_alter by reflexivity.
    destruct (refused err); unfold busy_at in *; simpl; congruence. }
  case_exit k; simpl; [exact H4|]. rewrite IH. exact H4.
Qed.

Lemma ready_busy net i j s : busy_at (ready net i s).1 j = busy_at s j.
Proof. unfold ready. destruct (ok_at s i); [reflexivity|apply ready_loop_busy]. Qed.

Lemma releases_app i l1 l2 : releases i (l1 ++ l2) = releases i l1 + releases i l2.
Proof. unfold releases. rewrite filter_app, length_app. reflexivity. Qed.

Lemma releases_single i e : e ≠ ERelease i → releases i [e] = 0.
Proof. intros He. unfold releases. rewrite filter_cons_False by exact He. reflexivity. Qed.

Lemma releases_handshakes i j m b :
  releases i (replicate m (EHandshake j false) ++
              (if b : bool then [EHandshake j true] else [])) = 0.
Proof.
  rewrite releases_app.
  assert (releases i (replicate m (EHandshake j false)) = 0) as ->.
  { induction m as [|m IH]; [reflexivity|]. simpl. unfold releases in *.
    rewrite filter_cons_False by discriminate. exact IH. }
  destruct b; reflexivity.
Qed.

(** [#ready] releases nothing; when it fails the entry is left not ok. *)
Lemma ready_releases net i j s :
  releases j (events (ready net i s).1) = releases j (events s).
Proof.
  unfold ready. destruct (ok_at s i); [reflexivity|].
  destruct (ready_loop_events net LOCAL_RETRIES 0 i s) as [m Hm];
    [unfold LOCAL_RETRIES; lia|lia|].
  rewrite Hm, releases_app.
  destruct (ready_loop net LOCAL_RETRIES 0 i s).2.
  - rewrite (releases_handshakes j i m false). lia.
  - rewrite (releases_handshakes j i m true). lia.
Qed.

(** The lease at the end of the loop of [op]: released once, or, when the
    call ends with the error of a repair that failed, not released at all
    and still marked as it was. *)
Lemma op_loop_lease {V : Type} net (run : nat → attempt V) n k i s :
  i < length (pool s) → 0 < n → n + k = S OP_RETRIES →
  (busy_at (op_loop net run n k i s).1 i = false ∧
   releases i (events (op_loop net run n k i s).1) = S (releases i (events s))) ∨
  (∃ e, (op_loop net run n k i s).2 = Thrown e ∧
        busy_at (op_loop net run n k i s).1 i = busy_at s i ∧
        releases i (events (op_loop net run n k i s).1) = releases i (events s)).
Proof.
  revert k s. induction n as [|n IH]; intros k s Hi Hn Hnk; [lia|].
  assert (Hrel : busy_at (release i (attempted run k i s)) i = false ∧
                 releases i (events (release i (attempted run k i s))) =
                 S (releases i (events s))).
  { destruct (release_clears i (attempted run k i s)) as [Hb Hr]; [exact Hi|].
    split; [exact Hb|]. rewrite Hr. simpl.
    rewrite releases_app, releases_single by discriminate. lia. }
  simpl. destruct (op_out (run k)) as [v|e]; [left; exact Hrel|].
  destruct (negb (transient e)) eqn:Ht; simpl; [left; exact Hrel|].
  case_exit k; simpl; [left; exact Hrel|].
  set (s1 := invalidate e i (attempted run k i s)).
  destruct (invalidate_shape e i (attempted run k i s)) as (Hl & Hev & _).
  fold s1 in Hl, Hev. simpl in Hl.
  assert (Hb1 : busy_at s1 i = busy_at s i).
  { subst s1. unfold invalidate, busy_at. destruct (refused e); simpl;
      rewrite list_lookup_alter_eq; destruct (pool s !! i); reflexivity. }
  assert (Hr1 : releases i (events s1) = releases i (events s)).
  { rewrite Hev. simpl.
    rewrite !releases_app, !releases_single by discriminate. lia. }
  pose proof (ready_busy net i i s1) as Hb. pose proof (ready_releases net i i s1) as Hr.
  pose proof (ready_shape net i s1) as Hs.
  destruct (ready net i s1) as [s4 [e'|]]; simpl in *.
  - right. exists e'. split; [reflexivity|]. split; congruence.
  - unfold OP_RETRIES in *.
    destruct (IH (S k) s4) as [[Hb' Hr']|(e' & He' & Hb' & Hr')]; [lia|lia|lia| |].
    + left. split; [exact Hb'|]. congruence.
    + right. exists e'. split; [exact He'|]. split; congruence.
Qed.

(** C2 (the code breaks it): the lease is taken on a fresh pool, the first
    attempt dies of a connection reset, and the six handshakes of the
    repair that follows all fail. The call ends with the handshake error,
    [#release] has not run and [pool[0]] is still marked busy. *)
Theorem call_leaks_lease :
  (call goesDown resets init).2 = Thrown hsTimeout ∧
  (call goesDown resets init).1.2 = Some 0 ∧
  busy_at (call goesDown resets init).1.1 0 = true ∧
  releases 0 (events (call goesDown resets init).1.1) = 0 ∧
  events (call goesDown resets init).1.1 =
    [ECreate 0; EHandshake 0 true; EAttempt 0 0; EInvalidate 0] ++
    replicate LOCAL_RETRIES (EHandshake 0 false).
Proof. vm_compute. repeat split; reflexivity. Qed.

(** Six handshakes refused in a row inside [#ready]: the count is 6 and the
    breaker is open for [60000 * 2^5] from the last refusal. *)
Example ready_counts_refusals :
  (ready refusing 0 (pushEntry init)).2 =
    Some (Error "ECONNREFUSED" "Error: connect ECONNREFUSED 10.4.0.2:22") ∧
  fails (ready refusing 0 (pushEntry init)).1 = 6 ∧
  (breakerUntil (ready refusing 0 (pushEntry init)).1 -
   now (ready refusing 0 (pushEntry init)).1 = 1920000)%Z.
Proof. vm_compute. repeat split; reflexivity. Qed.

End SftpPoolFacts.

(** * Properties of the scheduler *)

Module SchedulerFacts.
Import Scheduler.
Local Open Scope nat_scope.
Local Open Scope list_scope.

(** ** The re-entrancy guard of [tick] *)

Lemma set_ticking_back s :
  ticking s = false → set_ticking false (set_ticking true s) = s.
Proof. destruct s; simpl; intros ->; reflexivity. Qed.

(** C9: a [tick] called while the flag is set returns at once with the
    state as it was (queues, in-flight set, flags, failure counters,
    processed set, phase, and the flag itself) and dispatches nothing; a
    [tick] that starts with the flag clear ends with the flag clear,
    whatever the environment does, also when its body threw. *)
Theorem tick_reentrancy cfg e s :
  (ticking s = true → tick cfg e s = Report s [] [] false) ∧
  (ticking s = false → ticking (after (tick cfg e s)) = false) ∧
  (ticking s = false → threw (tick cfg e s) = true →
     after (tick cfg e s) = s).
Proof.
  unfold tick. split; [intros ->; reflexivity|].
  split; intros Ht; rewrite Ht; simpl; [reflexivity|].
  unfold tickBody.
  destruct (largeInFlight _); simpl; [discriminate|].
  match goal with |- context [match ?x with Some _ => _ | None => _ end] =>
    destruct x as [s1|] end; simpl.
  - destruct (_ <=? 0)%Z; simpl; [discriminate|].
    destruct (pickBatch _ _ _) as [[|p b] q]; simpl; [discriminate|].
    destruct (processOne _ _ _ _) as [s3 r1]. destruct (processBatch _ _ _ _).
    simpl. discriminate.
  - intros _. apply set_ticking_back, Ht.
Qed.

Lemma tick_reentrancy_witness :
  tick defaults allResolve (set_ticking true (with_queues exampleQueue)) =
    Report (set_ticking true (with_queues exampleQueue)) [] [] false ∧
  threw (tick defaults allResolve start) = true ∧
  after (tick defaults allResolve start) = start.
Proof.
  destruct (tick_reentrancy defaults allResolve
              (set_ticking true (with_queues exampleQueue))) as (H1 & _).
  destruct (tick_reentrancy defaults allResolve start) as (_ & _ & H3).
  split; [apply H1; reflexivity|].
  assert (Ht : threw (tick defaults allResolve start) = true)
    by (vm_compute; reflexivity).
  split; [exact Ht|]. apply H3; [reflexivity|exact Ht].
Defined.

(** ** Picking a batch *)

Lemma queueOf_cons q c it rest :
  queueOf q c = it :: rest → q !! c = Some (it :: rest).
Proof. unfold queueOf. destruct (q !! c); simpl; [congruence|discriminate]. Qed.

Lemma pickLarge_Some cfg cs q :
  (∃ c, c ∈ cs ∧ largeHead cfg q c) →
  ∃ c it rest, c ∈ cs ∧ queueOf q c = it :: rest ∧
    isLarge (TH_MB cfg) it = true ∧
    pickLarge cfg cs q = Some (Pick c (name it) true, <[c := rest]> q).
Proof.
  induction cs as [|c0 cs IH]; intros (c & Hc & it & rest & Hq & Hl).
  - inversion Hc.
  - simpl. destruct (queueOf q c0) as [|it0 rest0] eqn:Hq0.
    + apply elem_of_cons in Hc as [->|Hc]; [congruence|].
      destruct IH as (c' & it' & rest' & ? & ? & ? & ?); [exists c; split; [|exists it, rest]; auto|].
      exists c', it', rest'. rewrite elem_of_cons. auto.
    + destruct (isLarge (TH_MB cfg) it0) eqn:Hl0.
      * exists c0, it0, rest0. rewrite elem_of_cons. auto.
      * apply elem_of_cons in Hc as [->|Hc]; [congruence|].
        destruct IH as (c' & it' & rest' & ? & ? & ? & ?); [exists c; split; [|exists it, rest]; auto|].
        exists c', it', rest'. rewrite elem_of_cons. auto.
Qed.

Lemma pickLarge_None cfg cs q :
  (∀ c, c ∈ cs → ¬ largeHead cfg q c) → pickLarge cfg cs q = None.
Proof.
  induction cs as [|c0 cs IH]; intros Hn; [reflexivity|]. simpl.
  destruct (queueOf q c0) as [|it0 rest0] eqn:Hq0.
  - apply IH. intros c Hc. apply Hn. rewrite elem_of_cons. auto.
  - destruct (isLarge (TH_MB cfg) it0) eqn:Hl0.
    + exfalso. apply (Hn c0); [rewrite elem_of_cons; auto|]. exists it0, rest0. auto.
    + apply IH. intros c Hc. apply Hn. rewrite elem_of_cons. auto.
Qed.

Lemma largeInFlight_true s k :
  flags s !! k = Some true → largeInFlight s = true.
Proof.
  intros Hk. unfold largeInFlight. apply bool_decide_eq_true.
  exists k, true. auto.
Qed.

(** C4: when the head of some source's queue is at or above the threshold,
    the batch is one job, the head of such a source, flagged large; it is
    removed from its queue and every other queue is as before. While a job
    flagged large is in flight a tick dispatches nothing and changes
    nothing. On the queue [100MB, 2MB, 3MB] (threshold 20MB, limit 5) the
    first tick dispatches the 100MB job alone; if that job is still
    running the next tick dispatches nothing; once it is done the next tick
    dispatches the 2MB and 3MB jobs together. *)
Theorem large_exclusive cfg max q :
  ((∃ c, c ∈ CTXS cfg ∧ largeHead cfg q c) →
   ∃ c it rest, c ∈ CTXS cfg ∧ q !! c = Some (it :: rest) ∧
     isLarge (TH_MB cfg) it = true ∧
     pickBatch cfg max q = ([Pick c (name it) true], <[c := rest]> q) ∧
     ∀ c', c' ≠ c → (pickBatch cfg max q).2 !! c' = q !! c') ∧
  (∀ e s k, flags s !! k = Some true →
     batch (tick cfg e s) = [] ∧ ran (tick cfg e s) = [] ∧
     after (tick cfg e s) = s) ∧
  (let t1 := tick defaults allResolve (with_queues exampleQueue) in
   let t2 := tick defaults allResolve (after t1) in
   let h1 := tick defaults allPending (with_queues exampleQueue) in
   let h2 := tick defaults allResolve (after h1) in
   batch t1 = [Pick "CAN" "MB51_big.xlsx" true] ∧
   queues (after t1) !! "CAN" =
     Some [Item "MB51_b.xlsx" (2 # 1); Item "MB51_c.xlsx" (3 # 1)] ∧
   batch t2 = [Pick "CAN" "MB51_b.xlsx" false; Pick "CAN" "MB51_c.xlsx" false] ∧
   ran t2 = batch t2 ∧
   flags (after h1) !! "CAN:MB51_big.xlsx" = Some true ∧
   batch h2 = [] ∧
   queues (after h2) !! "CAN" =
     Some [Item "MB51_b.xlsx" (2 # 1); Item "MB51_c.xlsx" (3 # 1)]).
Proof.
  split; [|split].
  - intros Hex. destruct (pickLarge_Some cfg (CTXS cfg) q Hex)
      as (c & it & rest & Hc & Hq & Hl & Hp).
    exists c, it, rest. unfold pickBatch. rewrite Hp. simpl.
    split; [exact Hc|]. split; [apply queueOf_cons, Hq|].
    split; [exact Hl|]. split; [reflexivity|].
    intros c' Hne. apply lookup_insert_ne. congruence.
  - intros e s k Hk. unfold tick. destruct (ticking s) eqn:Ht; simpl; [auto|].
    unfold tickBody.
    rewrite (largeInFlight_true (set_ticking true s) k) by exact Hk. simpl.
    split; [reflexivity|]. split; [reflexivity|]. apply set_ticking_back, Ht.
  - vm_compute. repeat split; reflexivity.
Qed.

Lemma large_exclusive_witness :
  ∃ it rest, exampleQueue !! "CAN" = Some (it :: rest) ∧
    pickBatch defaults 5 exampleQueue =
      ([Pick "CAN" (name it) true], <["CAN" := rest]> exampleQueue).
Proof.
  destruct (large_exclusive defaults 5 exampleQueue) as (H & _).
  destruct H as (c & it & rest & Hc & Hq & _ & Hp & _).
  - exists "CAN". split; [repeat constructor|].
    eexists _, _. split; vm_compute; reflexivity.
  - apply list_elem_of_singleton in Hc. subst c. exists it, rest. auto.
Defined.

(** ** Scanning *)

(** Case split on the test of the outermost [if] in a hypothesis. *)
Ltac case_if H :=
  match type of H with
  | (if ?b then _ else _) = _ => destruct b eqn:?
  end.

Lemma insertDesc_elem x y l : y ∈ insertDesc x l ↔ y = x ∨ y ∈ l.
Proof.
  induction l as [|z l IH]; simpl.
  - rewrite list_elem_of_singleton, elem_of_nil. tauto.
  - destruct (Qle_bool (sizeMB z) (sizeMB x)).
    + rewrite elem_of_cons. tauto.
    + rewrite !elem_of_cons, IH. tauto.
Qed.

Lemma sortDesc_elem y l : y ∈ sortDesc l ↔ y ∈ l.
Proof.
  induction l as [|x l IH]; simpl; [tauto|].
  rewrite insertDesc_elem, elem_of_cons, IH. tauto.
Qed.

Lemma insertDesc_hd x a l :
  HdRel (λ a b, Qle (sizeMB b) (sizeMB a)) a l → Qle (sizeMB x) (sizeMB a) →
  HdRel (λ a b, Qle (sizeMB b) (sizeMB a)) a (insertDesc x l).
Proof.
  intros Hl Hx. destruct l as [|y l]; simpl; [constructor; exact Hx|].
  destruct (Qle_bool (sizeMB y) (sizeMB x)); constructor; [exact Hx|].
  inversion Hl; assumption.
Qed.

Lemma insertDesc_sorted x l : sortedDesc l → sortedDesc (insertDesc x l).
Proof.
  unfold sortedDesc. induction 1 as [|y l Hs IH Hhd]; simpl.
  - repeat constructor.
  - destruct (Qle_bool (sizeMB y) (sizeMB x)) eqn:Hc.
    + constructor; [constructor; assumption|].
      constructor. apply Qle_bool_iff, Hc.
    + constructor; [exact IH|]. apply insertDesc_hd; [exact Hhd|].
      apply Qlt_le_weak, Qnot_le_lt. intros Hle.
      apply Qle_bool_iff in Hle. congruence.
Qed.

(** The queue [scanCtx] builds is in descending order of size. *)
Lemma sortDesc_sorted l : sortedDesc (sortDesc l).
Proof.
  induction l as [|x l IH]; simpl; [constructor|].
  apply insertDesc_sorted, IH.
Qed.

Lemma scanCtx_elem c l done it :
  it ∈ scanCtx c l done ↔ ∃ f, f ∈ xlsList l ∧ scanFile c l done f = Some it.
Proof. unfold scanCtx. rewrite sortDesc_elem. apply list_elem_of_omap. Qed.

(** *** What the artifact tests of a scan see in the listings *)

Lemma lowerChar_idem c : Str.lowerChar (Str.lowerChar c) = Str.lowerChar c.
Proof. destruct c as [[] [] [] [] [] [] [] []]; reflexivity. Qed.

Lemma toLowerCase_idem x : Str.toLowerCase (Str.toLowerCase x) = Str.toLowerCase x.
Proof.
  induction x as [|c x IH]; [reflexivity|]. simpl. rewrite lowerChar_idem, IH.
  reflexivity.
Qed.

Lemma append_suffix_nonempty a c b : a +:+ String c b ≠ "".
Proof. destruct a; discriminate. Qed.

(** [knfoSet.has(`${baseLower}.knfo`)]: some entry of the listing of
    [knfoDir], of whatever type, has that name up to letter case. *)
Lemma hasKnfo_listed l nm :
  hasKnfo l nm = true ↔
  ∃ k, k ∈ knfoList l ∧ Str.toLowerCase (f_name k) =
    Str.toLowerCase (Str.dropLast 5 nm) +:+ ".knfo".
Proof.
  unfold hasKnfo, knfoSetOf, baseLower. rewrite bool_decide_eq_true, elem_of_list_to_set.
  rewrite list_elem_of_In, in_map_iff. split.
  - intros (k & Hk & Hin). exists k. rewrite list_elem_of_In. auto.
  - intros (k & Hin & Hk). exists k. rewrite <- list_elem_of_In. auto.
Qed.

(** [metaSet.has(`${baseLower}.meta`)]: some regular file of the recursive
    listing of [metaRoot] whose name ends in .meta in any letter case has
    that base name up to letter case. *)
Lemma hasMeta_listed l nm :
  hasMeta l nm = true ↔
  ∃ m, m ∈ metaFiles l ∧ f_type m = "-" ∧
       Str.endsWith (Str.toLowerCase (f_name m)) ".meta" = true ∧
       Str.toLowerCase (Str.basename (f_name m)) =
         Str.toLowerCase (Str.dropLast 5 nm) +:+ ".meta".
Proof.
  unfold hasMeta, metaSetOf, baseLower. rewrite bool_decide_eq_true, elem_of_list_to_set.
  rewrite list_elem_of_In, in_map_iff. unfold listAllMetaFiles. split.
  - intros (x & Hx & Hin). apply in_flat_map in Hin as (m & Hm & Hin).
    exists m. rewrite list_elem_of_In. split; [exact Hm|].
    destruct (String.eqb (f_type m) "-") eqn:Hty; [|destruct Hin].
    destruct (Str.endsWith (Str.toLowerCase (f_name m)) ".meta") eqn:He;
      [|destruct Hin].
    apply String.eqb_eq in Hty. simpl in Hin.
    destruct (Str.basename (f_name m)) as [|c b] eqn:Hb; [destruct Hin|].
    destruct Hin as [<-|[]].
    change (String (Str.lowerChar c) (Str.toLowerCase b))
      with (Str.toLowerCase (String c b)) in Hx.
    rewrite toLowerCase_idem in Hx. auto.
  - intros (m & Hin & Hty & He & Hb).
    exists (Str.toLowerCase (Str.basename (f_name m))).
    split; [rewrite toLowerCase_idem; exact Hb|].
    apply in_flat_map. exists m. rewrite <- list_elem_of_In.
    split; [exact Hin|]. rewrite Hty, He. simpl.
    destruct (Str.basename (f_name m)) as [|c b] eqn:Hn.
    + exfalso. simpl in Hb. symmetry in Hb.
      exact (append_suffix_nonempty _ _ _ Hb).
    + left. reflexivity.
Qed.

(** C10: a workbook whose .knfo is in the listing of the knfo directory
    and whose .meta is among the regular .meta files under the meta root
    (names compared in lower case) is never enqueued by a scan; a regular
    .xlsx file of the listing that passes the name filter and has its
    .knfo listed but no .meta is enqueued whatever the processed set holds,
    its own key included; and a file of the processed set is enqueued in
    that case only. *)
Theorem scan_artifacts c l done :
  (∀ it k m, it ∈ scanCtx c l done →
     k ∈ knfoList l →
     Str.toLowerCase (f_name k) =
       Str.toLowerCase (Str.dropLast 5 (name it)) +:+ ".knfo" →
     m ∈ metaFiles l → f_type m = "-" →
     Str.endsWith (Str.toLowerCase (f_name m)) ".meta" = true →
     Str.toLowerCase (Str.basename (f_name m)) =
       Str.toLowerCase (Str.dropLast 5 (name it)) +:+ ".meta" →
     False) ∧
  (∀ f k, f ∈ xlsList l → f_type f = "-" →
     Str.endsWith (Str.toLowerCase (f_name f)) ".xlsx" = true →
     existsb (Str.includes (f_name f)) PATTERNS = true →
     k ∈ knfoList l →
     Str.toLowerCase (f_name k) =
       Str.toLowerCase (Str.dropLast 5 (f_name f)) +:+ ".knfo" →
     (∀ m, m ∈ metaFiles l → f_type m = "-" →
        Str.endsWith (Str.toLowerCase (f_name m)) ".meta" = true →
        Str.toLowerCase (Str.basename (f_name m)) ≠
          Str.toLowerCase (Str.dropLast 5 (f_name f)) +:+ ".meta") →
     Item (f_name f) (Z.of_N (f_size f) # 1048576) ∈ scanCtx c l done) ∧
  (∀ it, it ∈ scanCtx c l done → keyOf c (name it) ∈ done →
     (∃ k, k ∈ knfoList l ∧
           Str.toLowerCase (f_name k) =
             Str.toLowerCase (Str.dropLast 5 (name it)) +:+ ".knfo") ∧
     (∀ m, m ∈ metaFiles l → f_type m = "-" →
        Str.endsWith (Str.toLowerCase (f_name m)) ".meta" = true →
        Str.toLowerCase (Str.basename (f_name m)) ≠
          Str.toLowerCase (Str.dropLast 5 (name it)) +:+ ".meta")).
Proof.
  split; [|split].
  - intros it k m Hit Hk Hkn Hm Hty He Hmn.
    apply scanCtx_elem in Hit as (f & _ & Hf).
    unfold scanFile in Hf.
    case_if Hf; [discriminate|]. case_if Hf; [discriminate|].
    destruct (hasKnfo l (f_name f) && hasMeta l (f_name f)) eqn:Hboth; [discriminate|].
    case_if Hf; [discriminate|]. injection Hf as <-. simpl in *.
    assert (H1 : hasKnfo l (f_name f) = true) by (apply hasKnfo_listed; eauto).
    assert (H2 : hasMeta l (f_name f) = true) by (apply hasMeta_listed; eauto).
    rewrite H1, H2 in Hboth. discriminate.
  - intros f k Hf Hty Hx Hp Hk Hkn Hnone. apply scanCtx_elem.
    exists f. split; [exact Hf|].
    assert (H1 : hasKnfo l (f_name f) = true) by (apply hasKnfo_listed; eauto).
    assert (H2 : hasMeta l (f_name f) = false).
    { destruct (hasMeta l (f_name f)) eqn:E; [|reflexivity]. exfalso.
      apply hasMeta_listed in E as (m & Hm & Hmt & He & Hmn).
      exact (Hnone m Hm Hmt He Hmn). }
    unfold scanFile. rewrite Hty, Hx, Hp, H1, H2. simpl.
    rewrite andb_false_r. reflexivity.
  - intros it Hit Hdone. apply scanCtx_elem in Hit as (f & _ & Hf).
    unfold scanFile in Hf.
    case_if Hf; [discriminate|]. case_if Hf; [discriminate|].
    destruct (hasKnfo l (f_name f) && hasMeta l (f_name f)) eqn:Hboth; [discriminate|].
    destruct (bool_decide (keyOf c (f_name f) ∈ done) && _) eqn:Hskip; [discriminate|].
    injection Hf as <-. simpl in *.
    rewrite bool_decide_eq_true_2 in Hskip by exact Hdone. simpl in Hskip.
    destruct (hasKnfo l (f_name f)) eqn:H1, (hasMeta l (f_name f)) eqn:H2;
      simpl in *; try discriminate.
    split; [apply hasKnfo_listed, H1|].
    intros m Hm Hmt He Hmn.
    assert (H3 : hasMeta l (f_name f) = true) by (apply hasMeta_listed; eauto).
    congruence.
Qed.

Lemma scan_artifacts_witness :
  Item "MB51_bad.xlsx" (4194304 # 1048576) ∈
    scanCtx "CAN" knfoOnly {[ keyOf "CAN" "MB51_bad.xlsx" ]} ∧
  Item accented (4194304 # 1048576) ∉ scanCtx "CAN" accentedStore ∅.
Proof.
  split.
  - destruct (scan_artifacts "CAN" knfoOnly {[ keyOf "CAN" "MB51_bad.xlsx" ]})
      as (_ & H & _).
    apply (H (FileInfo "MB51_bad.xlsx" "-" 4194304)
             (FileInfo "mb51_bad.knfo" "-" 10));
      [repeat constructor| | | |repeat constructor| |];
      try (vm_compute; reflexivity).
    intros m Hm. inversion Hm.
  - intros Hin.
    destruct (scan_artifacts "CAN" accentedStore ∅) as (H & _).
    apply (H _ (FileInfo accentedKnfo "-" 10)
             (FileInfo accentedMeta "-" 10) Hin);
      try (vm_compute; reflexivity).
    + repeat constructor.
    + repeat constructor.
Defined.

(** The queues [scanAll] writes when nothing is in flight: one per
    context of [CTXS], holding what [scanCtx] returned for it. *)
Lemma rebuilt_lookup (e : env) (done : gset string) cs tmp :
  mapM (λ c, l ← scan e c; Some (c, scanCtx c l done)) cs = Some tmp →
  ∀ (q0 : gmap string (list item)) c,
    (c ∈ cs → ∃ l, scan e c = Some l ∧
       foldl (λ q (ci : string * list item), <[ci.1 := ci.2]> q) q0 tmp !! c =
       Some (scanCtx c l done)) ∧
    (c ∉ cs →
       foldl (λ q (ci : string * list item), <[ci.1 := ci.2]> q) q0 tmp !! c =
       q0 !! c).
Proof.
  intros Hm. apply mapM_Some_1 in Hm.
  induction Hm as [|c0 y cs tmp Hy _ IH]; intros q0 c; simpl.
  - split; [intros H; inversion H|reflexivity].
  - destruct (scan e c0) as [l0|] eqn:Hs0; simpl in Hy; [|discriminate].
    injection Hy as <-. simpl.
    destruct (IH (<[c0 := scanCtx c0 l0 done]> q0) c) as [Hin Hout].
    destruct (decide (c ∈ cs)) as [Hc|Hc].
    + split; [intros _; apply Hin, Hc|].
      intros Hn. exfalso. apply Hn. rewrite elem_of_cons. auto.
    + split.
      * intros Hc0. apply elem_of_cons in Hc0 as [->|Hc0]; [|contradiction].
        exists l0. split; [exact Hs0|]. rewrite (Hout Hc). apply lookup_insert_eq.
      * intros Hn. rewrite (Hout Hc). apply lookup_insert_ne.
        intros ->. apply Hn. rewrite elem_of_cons. auto.
Qed.

(** C8 (as stated it fails): with contexts CAN and CAS, a CAS job in flight
    and none of CAN, a scan that finds a new CAN workbook leaves the CAN
    queue as it was, empty. *)
Lemma scan_skip_is_global :
  ¬ ctxInFlight "CAN" casBusy ∧
  scanCtx "CAN" bare (processedOK casBusy) = [Item "MB51_bad.xlsx" (4194304 # 1048576)] ∧
  scanAll twoCtx storeBare casBusy = Some casBusy ∧
  queues casBusy !! "CAN" = Some [].
Proof.
  split; [|split; [|split]]; try (vm_compute; reflexivity).
  intros [f Hf]. unfold casBusy, keyOf in Hf. simpl in Hf.
  apply elem_of_singleton in Hf. discriminate.
Qed.

(** C8 (amended): a scan that completes with nothing in flight replaces
    the queues by one queue per configured source, holding the fresh scan
    result of that source in descending order of size, and changes nothing
    else; a scan that completes while any job is in flight, of whatever
    source, changes no queue at all. *)
Theorem scanAll_spec cfg e s s' :
  scanAll cfg e s = Some s' →
  (size (inFlight s) = 0 →
     (∀ c, c ∈ CTXS cfg → ∃ l, scan e c = Some l ∧
        queues s' !! c = Some (scanCtx c l (processedOK s)) ∧
        sortedDesc (scanCtx c l (processedOK s))) ∧
     (∀ c, c ∉ CTXS cfg → queues s' !! c = None) ∧
     set_queues (queues s) s' = s) ∧
  (size (inFlight s) ≠ 0 → s' = s).
Proof.
  unfold scanAll. intros H.
  destruct (mapM _ (CTXS cfg)) as [tmp|] eqn:Hm; simpl in H; [|discriminate].
  pose proof (rebuilt_lookup e (processedOK s) (CTXS cfg) tmp Hm ∅) as Hl.
  destruct (Nat.eqb_spec (size (inFlight s)) 0) as [Hz|Hnz];
    injection H as <-; (split; [|intros Hne; congruence]); intros Hz'.
  - split; [|split].
    + intros c Hc. destruct (Hl c) as [Hin _].
      destruct (Hin Hc) as (l & Hs & Hq). exists l.
      split; [exact Hs|]. split; [exact Hq|apply sortDesc_sorted].
    + intros c Hc. destruct (Hl c) as [_ Hout]. simpl. rewrite (Hout Hc).
      apply lookup_empty.
    + destruct s; reflexivity.
  - contradiction.
Qed.

Lemma scanAll_spec_witness :
  ∃ s', scanAll twoCtx storeBare start = Some s' ∧
        queues s' !! "CAS" = Some [Item "MB51_bad.xlsx" (4194304 # 1048576)].
Proof.
  destruct (scanAll twoCtx storeBare start) as [s'|] eqn:Hs;
    [|vm_compute in Hs; discriminate].
  exists s'. split; [reflexivity|].
  destruct (scanAll_spec twoCtx storeBare start s' Hs) as [Hempty _].
  destruct Hempty as (Hq & _); [reflexivity|].
  destruct (Hq "CAS") as (l & Hl & Hc & _); [repeat constructor|].
  injection Hl as <-. exact Hc.
Defined.

(** ** Failure counting and quarantine *)

Section Quarantine.

Variable cfg : config.
Variable p : pick.
Local Abbreviation k := (jobKey p).

(** A job whose counter has reached [MAX_FAILURES] is skipped: the worker
    is not started, the key is marked processed, the counter stays. *)
Lemma processOne_skip e s :
  MAX_FAILURES cfg ≤ failureCount s k →
  (processOne cfg e p s).2 = false ∧
  k ∈ processedOK (processOne cfg e p s).1 ∧
  failureCount (processOne cfg e p s).1 k = failureCount s k.
Proof.
  intros Hmax. unfold processOne.
  change (failureCount (enter p s) k) with (failureCount s k).
  destruct (Nat.leb_spec (MAX_FAILURES cfg) (failureCount s k)); [|lia].
  simpl. split; [reflexivity|]. split; [set_solver|reflexivity].
Qed.

(** A run that fails below the limit: the worker ran, the counter grows by
    one, and the key is marked processed only if the failure is a timeout
    that brings the counter to the limit. *)
Lemma processOne_failure e s :
  failureCount s k < MAX_FAILURES cfg → isFailure (work e k) = true →
  (processOne cfg e p s).2 = true ∧
  failureCount (processOne cfg e p s).1 k = S (failureCount s k) ∧
  processedOK (processOne cfg e p s).1 =
    if Str.includes (errorMsg p (work e k)) "TIMEOUT" &&
       (MAX_FAILURES cfg <=? S (failureCount s k))
    then {[k]} ∪ processedOK s else processedOK s.
Proof.
  intros Hlt Hf. unfold processOne.
  change (failureCount (enter p s) k) with (failureCount s k).
  destruct (Nat.leb_spec (MAX_FAILURES cfg) (failureCount s k)); [lia|].
  simpl. split; [reflexivity|].
  unfold settle. change (failureCount (enter p s) k) with (failureCount s k).
  destruct (work e k) as [|msg| |]; simpl in Hf; try discriminate;
    (destruct (Str.includes _ "TIMEOUT" && _); simpl;
     (split; [unfold failureCount; simpl; rewrite lookup_insert_eq; reflexivity
             |reflexivity])).
Qed.

(** A run that succeeds: the key is marked processed and its counter is
    removed. *)
Lemma processOne_success e s :
  failureCount s k < MAX_FAILURES cfg → work e k = Resolved →
  (processOne cfg e p s).2 = true ∧
  k ∈ processedOK (processOne cfg e p s).1 ∧
  failedFiles (processOne cfg e p s).1 !! k = None.
Proof.
  intros Hlt Hw. unfold processOne.
  change (failureCount (enter p s) k) with (failureCount s k).
  destruct (Nat.leb_spec (MAX_FAILURES cfg) (failureCount s k)); [lia|].
  rewrite Hw. simpl. split; [reflexivity|].
  split; [set_solver|apply lookup_delete_eq].
Qed.

Lemma redispatch_app es1 es2 s :
  redispatch cfg (es1 ++ es2) p s =
  (let r1 := redispatch cfg es1 p s in
   let r2 := redispatch cfg es2 p r1.1 in (r2.1, r1.2 + r2.2)).
Proof.
  revert s. induction es1 as [|e es1 IH]; intros s; simpl.
  - destruct (redispatch cfg es2 p s); reflexivity.
  - destruct (processOne cfg e p s) as [s1 b]. rewrite IH. simpl.
    destruct (redispatch cfg es1 p s1) as [s2 n]. simpl.
    destruct (redispatch cfg es2 p s2) as [s3 m]. simpl. f_equal. lia.
Qed.

(** Once the counter is at the limit no later dispatch starts the worker. *)
Lemma redispatch_quarantined es s :
  MAX_FAILURES cfg ≤ failureCount s k →
  (redispatch cfg es p s).2 = 0 ∧
  failureCount (redispatch cfg es p s).1 k = failureCount s k ∧
  (es ≠ [] → k ∈ processedOK (redispatch cfg es p s).1) ∧
  (k ∈ processedOK s → k ∈ processedOK (redispatch cfg es p s).1).
Proof.
  revert s. induction es as [|e es IH]; intros s Hmax; simpl.
  - repeat split; [congruence|auto].
  - destruct (processOne_skip e s Hmax) as (Hr & Hin & Hc).
    destruct (processOne cfg e p s) as [s1 b]. simpl in *. subst b.
    destruct (IH s1) as (Hn & Hc' & _ & Hkeep); [lia|].
    destruct (redispatch cfg es p s1) as [s2 n]. simpl in *.
    repeat split; [lia|lia|auto|auto].
Qed.

(** Failures below the limit: each one runs the worker and counts, and
    none of them marks the key. *)
Lemma redispatch_failing fs s :
  Forall (λ e, isFailure (work e k) = true) fs →
  failureCount s k + length fs < MAX_FAILURES cfg →
  (redispatch cfg fs p s).2 = length fs ∧
  failureCount (redispatch cfg fs p s).1 k = failureCount s k + length fs ∧
  processedOK (redispatch cfg fs p s).1 = processedOK s.
Proof.
  intros Hf. revert s. induction Hf as [|e fs He _ IH]; intros s Hlt; simpl in *.
  - repeat split; lia.
  - destruct (processOne_failure e s) as (Hr & Hc & Hp); [lia|exact He|].
    destruct (Nat.leb_spec (MAX_FAILURES cfg) (S (failureCount s k))); [lia|].
    rewrite andb_false_r in Hp.
    destruct (processOne cfg e p s) as [s1 b]. simpl in *. subst b.
    destruct (IH s1) as (Hn & Hc' & Hp'); [lia|].
    destruct (redispatch cfg fs p s1) as [s2 n]. simpl in *.
    repeat split; [lia|lia|congruence].
Qed.

End Quarantine.

(** C5 (as stated it fails): with [MAX_FAILURES = 3], a job whose worker
    rejected three times in a row has run three times, its counter is 3, and
    it is not in the processed set; the next scan enqueues it again. *)
Lemma failures_not_quarantined :
  (redispatch defaults [allReject; allReject; allReject] poison start).2 = 3 ∧
  failureCount (redispatch defaults [allReject; allReject; allReject] poison start).1
    (jobKey poison) = 3 ∧
  processedOK (redispatch defaults [allReject; allReject; allReject] poison start).1 = ∅ ∧
  scanCtx "CAN" bare
    (processedOK (redispatch defaults [allReject; allReject; allReject] poison start).1)
  = [Item "MB51_bad.xlsx" (4194304 # 1048576)].
Proof. vm_compute. repeat split; reflexivity. Qed.

(** C5 (amended): a job that fails [MAX_FAILURES] times in a row, its
    counter starting at 0, has run [MAX_FAILURES] times and its counter is
    [MAX_FAILURES]; however often it is dispatched afterwards its worker is
    not started again and the counter stays; it is in the processed set
    after the first such later dispatch, and already after the last failure
    exactly when that failure carries a TIMEOUT message (or the key was
    marked before). A run that succeeds marks the key processed and removes
    its counter. *)
Theorem quarantine cfg p s fs rest :
  failureCount s (jobKey p) = 0 →
  length fs = MAX_FAILURES cfg →
  Forall (λ e, isFailure (work e (jobKey p)) = true) fs →
  let k := jobKey p in
  let q := redispatch cfg fs p s in
  let r := redispatch cfg (fs ++ rest) p s in
  q.2 = MAX_FAILURES cfg ∧ failureCount q.1 k = MAX_FAILURES cfg ∧
  r.2 = MAX_FAILURES cfg ∧ failureCount r.1 k = MAX_FAILURES cfg ∧
  (rest ≠ [] → k ∈ processedOK r.1) ∧
  (∀ e0, last fs = Some e0 →
     processedOK q.1 =
       if Str.includes (errorMsg p (work e0 k)) "TIMEOUT"
       then {[k]} ∪ processedOK s else processedOK s) ∧
  (∀ e s0, failureCount s0 k < MAX_FAILURES cfg → work e k = Resolved →
     (processOne cfg e p s0).2 = true ∧
     k ∈ processedOK (processOne cfg e p s0).1 ∧
     failedFiles (processOne cfg e p s0).1 !! k = None).
Proof.
  intros H0 Hlen Hf k q r. subst k.
  assert (Hq : q.2 = MAX_FAILURES cfg ∧
               failureCount q.1 (jobKey p) = MAX_FAILURES cfg ∧
               ∀ e0, last fs = Some e0 →
                 processedOK q.1 =
                   if Str.includes (errorMsg p (work e0 (jobKey p))) "TIMEOUT"
                   then {[jobKey p]} ∪ processedOK s else processedOK s).
  { subst q. destruct fs as [|e0 fs' _] using rev_ind.
    - simpl in *. split; [lia|]. split; [lia|]. intros e0 [=].
    - rewrite length_app in Hlen. simpl in Hlen.
      apply Forall_app in Hf as [Hf' He0]. rewrite Forall_singleton in He0.
      destruct (redispatch_failing cfg p fs' s Hf') as (Hn & Hc & Hp); [lia|].
      rewrite redispatch_app. simpl.
      set (s1 := (redispatch cfg fs' p s).1) in *.
      destruct (processOne_failure cfg p e0 s1) as (Hr & Hc1 & Hp1); [lia|exact He0|].
      destruct (processOne cfg e0 p s1) as [s2 b]. simpl in *. subst b.
      assert ((MAX_FAILURES cfg <=? S (failureCount s1 (jobKey p))) = true) as Hle
        by (apply Nat.leb_le; lia).
      rewrite Hle, andb_true_r in Hp1.
      split; [lia|]. split; [lia|].
      intros e1 Hlast. rewrite last_snoc in Hlast. injection Hlast as <-.
      rewrite Hp1, Hp. reflexivity. }
  destruct Hq as (Hq1 & Hq2 & Hq3).
  assert (Hr : r = ((redispatch cfg rest p q.1).1, q.2 + (redispatch cfg rest p q.1).2))
    by (subst r q; apply redispatch_app).
  destruct (redispatch_quarantined cfg p rest q.1) as (Hn & Hc & Hin & _); [lia|].
  rewrite Hr. simpl.
  split; [exact Hq1|]. split; [exact Hq2|]. split; [lia|]. split; [lia|].
  split; [exact Hin|]. split; [exact Hq3|].
  intros e s0. apply processOne_success.
Qed.

Lemma quarantine_witness :
  (redispatch defaults ([allReject; allReject; allTimeOut] ++ [allResolve; allResolve])
     poison start).2 = 3 ∧
  jobKey poison ∈
    processedOK (redispatch defaults [allReject; allReject; allTimeOut] poison start).1.
Proof.
  destruct (quarantine defaults poison start [allReject; allReject; allTimeOut]
              [allResolve; allResolve]) as (_ & _ & Hr & _ & _ & Hq & _);
    [reflexivity|reflexivity|repeat constructor|].
  split; [exact Hr|].
  rewrite (Hq allTimeOut eq_refl). apply elem_of_union_l, elem_of_singleton.
  reflexivity.
Defined.

(** ** Picking small jobs *)

Section Picking.

Variable cfg : config.

Lemma smallRun_ctx c l : Forall (λ p, ctx p = c) (smallRun cfg c l).
Proof.
  induction l as [|it rest IH]; simpl; [constructor|].
  destruct (isLarge (TH_MB cfg) it); constructor; [reflexivity|exact IH].
Qed.

Lemma smallRun_drop c l :
  smallRun cfg c (drop (length (smallRun cfg c l)) l) = [].
Proof.
  induction l as [|it rest IH]; simpl; [reflexivity|].
  destruct (isLarge (TH_MB cfg) it) eqn:Hl; simpl; [rewrite Hl; reflexivity|exact IH].
Qed.

Lemma pickedFrom_all c l : Forall (λ p, ctx p = c) l → pickedFrom c l = l.
Proof.
  unfold pickedFrom. induction 1 as [|p l Hp _ IH]; [reflexivity|].
  rewrite filter_cons_True by exact Hp. rewrite IH. reflexivity.
Qed.

Lemma pickedFrom_none c l : Forall (λ p, ctx p ≠ c) l → pickedFrom c l = [].
Proof.
  unfold pickedFrom. induction 1 as [|p l Hp _ IH]; [reflexivity|].
  rewrite filter_cons_False by exact Hp. exact IH.
Qed.

Lemma runs_ctx (q : gmap string (list item)) cs :
  Forall (λ p, ctx p ∈ cs) (flat_map (λ c, smallRun cfg c (queueOf q c)) cs).
Proof.
  induction cs as [|c cs IH]; simpl; [constructor|].
  apply Forall_app. split.
  - eapply Forall_impl; [apply smallRun_ctx|]. simpl. intros p ->. apply elem_of_cons. auto.
  - eapply Forall_impl; [exact IH|]. simpl. intros p Hp. apply elem_of_cons. auto.
Qed.

Lemma runs_not_from (q : gmap string (list item)) c cs n :
  c ∉ cs →
  pickedFrom c (take n (flat_map (λ c, smallRun cfg c (queueOf q c)) cs)) = [].
Proof.
  intros Hc. apply pickedFrom_none, Forall_take.
  eapply Forall_impl; [apply runs_ctx|]. simpl. intros p Hp Heq.
  rewrite Heq in Hp. contradiction.
Qed.

Lemma runs_insert (q : gmap string (list item)) c l cs :
  c ∉ cs →
  flat_map (λ c', smallRun cfg c' (queueOf (<[c := l]> q) c')) cs =
  flat_map (λ c', smallRun cfg c' (queueOf q c')) cs.
Proof.
  induction cs as [|c0 cs IH]; intros Hc; simpl; [reflexivity|].
  apply not_elem_of_cons in Hc as [Hne Hc]. rewrite IH by exact Hc.
  unfold queueOf at 1. rewrite lookup_insert_ne by exact Hne. reflexivity.
Qed.

(** The [while] loop takes as much of the small run at the head of the
    queue as the capacity left allows. *)
Lemma takeSmall_spec c max l picks :
  takeSmall cfg c max l picks =
  (drop (length (take (Z.to_nat (max - Z.of_nat (length picks))) (smallRun cfg c l))) l,
   picks ++ take (Z.to_nat (max - Z.of_nat (length picks))) (smallRun cfg c l)).
Proof.
  revert picks. induction l as [|it rest IH]; intros picks; simpl.
  - rewrite take_nil. simpl. rewrite app_nil_r. reflexivity.
  - destruct (Z.ltb_spec (Z.of_nat (length picks)) max) as [Hlt|Hge].
    + destruct (isLarge (TH_MB cfg) it).
      * rewrite take_nil. simpl. rewrite app_nil_r. reflexivity.
      * rewrite IH, length_app. simpl.
        replace (Z.to_nat (max - Z.of_nat (length picks)))
          with (S (Z.to_nat (max - Z.of_nat (length picks + 1)))) by lia.
        simpl. rewrite <- app_assoc. reflexivity.
    + replace (Z.to_nat (max - Z.of_nat (length picks))) with 0 by lia.
      rewrite take_0. simpl. rewrite app_nil_r. reflexivity.
Qed.

(** The second loop of [pickBatch]: source after source in the order of
    [CTXS], each one drained of its small run before the next is looked at,
    up to the capacity. *)
Lemma pickSmall_spec cs :
  NoDup cs → ∀ max q picks,
  (pickSmall cfg cs max q picks).1 =
    picks ++ take (Z.to_nat (max - Z.of_nat (length picks)))
               (flat_map (λ c, smallRun cfg c (queueOf q c)) cs) ∧
  ∀ c, queueOf (pickSmall cfg cs max q picks).2 c =
       drop (length (pickedFrom c
               (take (Z.to_nat (max - Z.of_nat (length picks)))
                  (flat_map (λ c, smallRun cfg c (queueOf q c)) cs))))
            (queueOf q c).
Proof.
  induction 1 as [|c0 cs Hc0 Hnd IH]; intros max q picks; simpl.
  - rewrite take_nil, app_nil_r. split; [reflexivity|]. intros c. reflexivity.
  - rewrite takeSmall_spec.
    set (n := Z.to_nat (max - Z.of_nat (length picks))).
    set (l0 := queueOf q c0). set (run0 := smallRun cfg c0 l0).
    set (r0 := take n run0). set (q1 := <[c0 := drop (length r0) l0]> q).
    set (rest := flat_map (λ c, smallRun cfg c (queueOf q c)) cs).
    assert (Hr0 : length r0 = Nat.min n (length run0)) by apply length_take.
    assert (Hnew : take n (run0 ++ rest) = r0 ++ take (n - length r0) rest).
    { rewrite take_app. fold r0. f_equal. f_equal. lia. }
    assert (Hfrom0 : pickedFrom c0 r0 = r0).
    { apply pickedFrom_all, Forall_take, smallRun_ctx. }
    assert (Hother : ∀ c, c ≠ c0 → pickedFrom c r0 = []).
    { intros c Hne. apply pickedFrom_none, Forall_take.
      eapply Forall_impl; [apply smallRun_ctx|]. simpl. intros p -> ->. contradiction. }
    assert (Hq1 : ∀ c, queueOf q1 c =
                       if decide (c = c0) then drop (length r0) l0 else queueOf q c).
    { intros c. unfold queueOf, q1. destruct (decide (c = c0)) as [->|Hne].
      - rewrite lookup_insert_eq. reflexivity.
      - rewrite lookup_insert_ne by congruence. reflexivity. }
    rewrite Hnew.
    destruct (Z.eqb_spec (Z.of_nat (length (picks ++ r0))) max) as [Hfull|Hmore]; simpl.
    + rewrite length_app in Hfull.
      replace (n - length r0) with 0 by lia. rewrite take_0, app_nil_r.
      split; [reflexivity|]. intros c. rewrite Hq1.
      destruct (decide (c = c0)) as [->|Hne].
      * rewrite Hfrom0. reflexivity.
      * rewrite (Hother c Hne). reflexivity.
    + destruct (IH max q1 (picks ++ r0)) as [Hp Hq].
      unfold q1 in Hp, Hq. rewrite runs_insert in Hp, Hq by exact Hc0.
      fold q1 rest in Hp, Hq.
      replace (Z.to_nat (max - Z.of_nat (length (picks ++ r0)))) with (n - length r0)
        in Hp, Hq by (rewrite length_app; lia).
      split; [rewrite Hp, <- app_assoc; reflexivity|].
      intros c. rewrite Hq, Hq1. unfold pickedFrom at 2. rewrite filter_app.
      fold (pickedFrom c r0) (pickedFrom c (take (n - length r0) rest)).
      destruct (decide (c = c0)) as [->|Hne].
      * rewrite Hfrom0. unfold rest. rewrite (runs_not_from q c0 cs _ Hc0).
        simpl. rewrite app_nil_r. reflexivity.
      * rewrite (Hother c Hne). reflexivity.
Qed.

Lemma pickedFrom_runs (q : gmap string (list item)) c cs :
  NoDup cs → c ∈ cs →
  pickedFrom c (flat_map (λ c', smallRun cfg c' (queueOf q c')) cs) =
  smallRun cfg c (queueOf q c).
Proof.
  induction 1 as [|c0 cs Hc0 Hnd IH]; intros Hc; [inversion Hc|]. simpl.
  unfold pickedFrom. rewrite filter_app.
  fold (pickedFrom c (smallRun cfg c0 (queueOf q c0)))
       (pickedFrom c (flat_map (λ c', smallRun cfg c' (queueOf q c')) cs)).
  destruct (decide (c = c0)) as [->|Hne].
  - rewrite (pickedFrom_all c0) by apply smallRun_ctx.
    rewrite <- (take_ge (flat_map _ cs) (length (flat_map (λ c', smallRun cfg c' (queueOf q c')) cs)))
      by lia.
    rewrite (runs_not_from q c0 cs _ Hc0). apply app_nil_r.
  - apply elem_of_cons in Hc as [?|Hc]; [contradiction|].
    rewrite (pickedFrom_none c (smallRun cfg c0 _)).
    + simpl. apply IH, Hc.
    + eapply Forall_impl; [apply smallRun_ctx|]. simpl. intros p -> ->. contradiction.
Qed.

End Picking.

Lemma twoQueues_small c : c ∈ CTXS twoCtx → ¬ largeHead twoCtx twoQueues c.
Proof.
  intros Hc (it & rest & Hq & Hl). simpl in Hc. elem_cases Hc; subst c;
    vm_compute in Hq; injection Hq as <- <-; vm_compute in Hl; discriminate.
Qed.

Lemma twoCtx_NoDup : NoDup (CTXS twoCtx).
Proof.
  simpl. repeat constructor; intros H; elem_cases H; discriminate.
Qed.

(** C7 (as stated it fails): contexts CAN and CAS, no head at or above the
    threshold, room for two jobs. The code takes both jobs of CAN and
    leaves the job at the head of CAS; taking from each source in turn
    gives one job of CAN and one of CAS. *)
Lemma pickBatch_drains_first_source :
  (∀ c, c ∈ CTXS twoCtx → ¬ largeHead twoCtx twoQueues c) ∧
  (pickBatch twoCtx 2 twoQueues).1 =
    [Pick "CAN" "KOB1_a.xlsx" false; Pick "CAN" "KOB1_b.xlsx" false] ∧
  queueOf (pickBatch twoCtx 2 twoQueues).2 "CAS" = [Item "KSB1_c.xlsx" (1 # 1)] ∧
  (spec_roundRobin twoCtx 2 2 twoQueues []).1 =
    [Pick "CAN" "KOB1_a.xlsx" false; Pick "CAS" "KSB1_c.xlsx" false] ∧
  (pickBatch twoCtx 2 twoQueues).1 ≠ (spec_roundRobin twoCtx 2 2 twoQueues []).1.
Proof.
  split; [exact twoQueues_small|].
  split; [|split; [|split]]; try (vm_compute; reflexivity).
  vm_compute. discriminate.
Qed.

(** C7 (amended): when no source of [CTXS] (taken without repetitions) has
    a head at or above the threshold, the batch is the first [max] jobs of
    the list made of the small run at the head of the first source's queue,
    then that of the second source, and so on in the order of [CTXS]: a
    source is drained of its small run before the next one is visited. The
    picked jobs are removed from the front of their queues, and when the
    batch stays below the capacity no source is left with a small job at
    its head. *)
Theorem pickBatch_small cfg max q :
  NoDup (CTXS cfg) → (∀ c, c ∈ CTXS cfg → ¬ largeHead cfg q c) →
  let runs := flat_map (λ c, smallRun cfg c (queueOf q c)) (CTXS cfg) in
  let b := pickBatch cfg max q in
  b.1 = take (Z.to_nat max) runs ∧
  length b.1 = Nat.min (Z.to_nat max) (length runs) ∧
  (∀ c, queueOf b.2 c = drop (length (pickedFrom c b.1)) (queueOf q c)) ∧
  (length b.1 < Z.to_nat max →
     b.1 = runs ∧ ∀ c, c ∈ CTXS cfg → smallRun cfg c (queueOf b.2 c) = []).
Proof.
  intros Hnd Hsmall runs b. subst b. unfold pickBatch.
  rewrite (pickLarge_None cfg (CTXS cfg) q Hsmall).
  destruct (pickSmall_spec cfg (CTXS cfg) Hnd max q []) as [Hp Hq].
  simpl in Hp, Hq. rewrite Z.sub_0_r in Hp, Hq. fold runs in Hp, Hq.
  rewrite Hp. split; [reflexivity|].
  split; [apply length_take|]. split; [exact Hq|].
  rewrite length_take. intros Hlt.
  assert (Hall : take (Z.to_nat max) runs = runs) by (apply take_ge; lia).
  split; [exact Hall|]. intros c Hc.
  rewrite Hq, Hall. unfold runs. rewrite (pickedFrom_runs cfg q c (CTXS cfg) Hnd Hc).
  apply smallRun_drop.
Qed.

Lemma pickBatch_small_witness :
  (pickBatch twoCtx 2 twoQueues).1 =
    take 2 (flat_map (λ c, smallRun twoCtx c (queueOf twoQueues c)) ["CAN"; "CAS"]) ∧
  (pickBatch twoCtx 5 twoQueues).1 =
    [Pick "CAN" "KOB1_a.xlsx" false; Pick "CAN" "KOB1_b.xlsx" false;
     Pick "CAS" "KSB1_c.xlsx" false].
Proof.
  destruct (pickBatch_small twoCtx 2 twoQueues twoCtx_NoDup twoQueues_small)
    as (H2 & _).
  destruct (pickBatch_small twoCtx 5 twoQueues twoCtx_NoDup twoQueues_small)
    as (H5 & _).
  split; [exact H2|]. rewrite H5. vm_compute. reflexivity.
Defined.

End SchedulerFacts.

(** * Further properties of the pool *)

Module SftpPoolMore.
Import SftpPool SftpPoolFacts.
Local Open Scope nat_scope.
Local Open Scope list_scope.

(** ** The size of the pool *)

Lemma op_loop_shape {V : Type} net (run : nat → attempt V) n k i s :
  length (pool (op_loop net run n k i s).1) = length (pool s).
Proof.
  revert k s. induction n as [|n IH]; intros k s; simpl; [reflexivity|].
  assert (Hrel : length (pool (release i (attempted run k i s))) = length (pool s)).
  { unfold release. simpl. apply length_alter. }
  destruct (op_out (run k)) as [v|e]; [exact Hrel|].
  destruct (negb (transient e) || (k =? OP_RETRIES)); [exact Hrel|].
  destruct (invalidate_shape e i (attempted run k i s)) as (Hl & _ & _).
  pose proof (ready_shape net i (invalidate e i (attempted run k i s))) as Hr.
  destruct (ready net i _) as [s4 [e'|]]; simpl in *; [congruence|].
  rewrite IH. congruence.
Qed.

(** X1: a proxied call never shrinks the pool, grows it by one entry at most,
    and keeps it within [MAX_CONN] entries. *)
Theorem call_pool_bound {V : Type} net (run : nat → attempt V) s :
  length (pool s) ≤ MAX_CONN →
  length (pool (call net run s).1.1) ≤ MAX_CONN ∧
  length (pool s) ≤ length (pool (call net run s).1.1) ≤ S (length (pool s)).
Proof.
  intros Hb. unfold call. pose proof (acquire_growth net s) as Hg.
  destruct (acquire net s) as [s1 [i|e]]; simpl in *.
  - pose proof (op_loop_shape net run (S OP_RETRIES) 0 i s1) as Ho.
    unfold op. destruct (op_loop net run (S OP_RETRIES) 0 i s1) as [s2 r].
    simpl in *. rewrite Ho, Hg.
    destruct (Nat.ltb_spec (length (pool s)) MAX_CONN); lia.
  - rewrite Hg. destruct (Nat.ltb_spec (length (pool s)) MAX_CONN); lia.
Qed.

Lemma call_pool_bound_witness :
  length (pool (call goesDown resets (leased MAX_CONN)).1.1) ≤ MAX_CONN.
Proof.
  destruct (call_pool_bound goesDown resets (leased MAX_CONN)) as [H _];
    [vm_compute; lia|exact H].
Defined.

(** ** Handshake pacing *)

Lemma connect_paced net i s :
  (lastHS s + CONNECT_GAP_MS ≤ lastHS (connect net i s).1)%Z.
Proof.
  destruct (awaitBreaker_fields s) as (_ & _ & _ & Hn).
  assert (Hl : lastHS (awaitBreaker s) = lastHS s).
  { unfold awaitBreaker. destruct (now s <? breakerUntil s)%Z; reflexivity. }
  unfold connect. set (s1 := awaitBreaker s) in *.
  set (g := (CONNECT_GAP_MS - (now s1 - lastHS s1))%Z).
  assert (Hs2 : (lastHS s1 + CONNECT_GAP_MS ≤ now (if (0 <? g)%Z then sleep g s1 else s1))%Z).
  { destruct (Z.ltb_spec 0 g); simpl; lia. }
  destruct (hs_err _); simpl; lia.
Qed.

Lemma ready_loop_paced net n k i s :
  hs s ≤ hs (ready_loop net n k i s).1 ∧
  (lastHS s + CONNECT_GAP_MS * Z.of_nat (hs (ready_loop net n k i s).1 - hs s)
   ≤ lastHS (ready_loop net n k i s).1)%Z.
Proof.
  revert k s. induction n as [|n IH]; intros k s; simpl.
  - rewrite Nat.sub_diag. split; lia.
  - set (s1 := if ok_at s i then s else recreate i s).
    assert (H1 : hs s1 = hs s ∧ lastHS s1 = lastHS s).
    { subst s1. destruct (ok_at s i); split; reflexivity. }
    destruct H1 as [Hh1 Hl1].
    destruct (connect_shape net i s1) as (_ & Hh & _).
    pose proof (connect_paced net i s1) as Hp.
    destruct (connect net i s1) as [s2 [err|]]; simpl in *.
    + set (s3 := if refused err then failure s2 else s2).
      assert (H3 : hs s3 = hs s2 ∧ lastHS s3 = lastHS s2).
      { subst s3. destruct (refused err); split; reflexivity. }
      destruct H3 as [Hh3 Hl3]. clearbody s3.
      case_exit k; simpl.
      * rewrite Hh3, Hl3. split; [lia|].
        replace (hs s2 - hs s) with 1 by lia. lia.
      * destruct (IH (S k) (sleep (BACKOFF_MS * (Z.of_nat k + 1))
                    (set_pool (alter (set_ok false) i) s3))) as [Hm Hq].
        simpl in Hm, Hq. split; [lia|].
        unfold CONNECT_GAP_MS in *. nia.
    + split; [lia|]. replace (hs s2 - hs s) with 1 by lia. lia.
Qed.

(** Each handshake [#ready] makes starts at least [CONNECT_GAP_MS] after
    the one before it, the last one of earlier calls included. *)
Lemma ready_paced net i s :
  hs s ≤ hs (ready net i s).1 ∧
  (lastHS s + CONNECT_GAP_MS * Z.of_nat (hs (ready net i s).1 - hs s)
   ≤ lastHS (ready net i s).1)%Z.
Proof.
  unfold ready. destruct (ok_at s i); [|apply ready_loop_paced].
  simpl. rewrite Nat.sub_diag. split; lia.
Qed.

Lemma pace_trans (la lb lc : Z) (ha hb hc : nat) :
  ha ≤ hb → hb ≤ hc →
  (la + CONNECT_GAP_MS * Z.of_nat (hb - ha) ≤ lb)%Z →
  (lb + CONNECT_GAP_MS * Z.of_nat (hc - hb) ≤ lc)%Z →
  ha ≤ hc ∧ (la + CONNECT_GAP_MS * Z.of_nat (hc - ha) ≤ lc)%Z.
Proof. unfold CONNECT_GAP_MS. lia. Qed.

Lemma acquire_paced net s :
  hs s ≤ hs (acquire net s).1 ∧
  (lastHS s + CONNECT_GAP_MS * Z.of_nat (hs (acquire net s).1 - hs s)
   ≤ lastHS (acquire net s).1)%Z.
Proof.
  unfold acquire. simpl.
  destruct (_ || _); simpl;
    match goal with |- context [ready net ?i ?t] =>
      pose proof (ready_paced net i t) as Hr; destruct (ready net i t) as [s4 [e|]]
    end; simpl in *; exact Hr.
Qed.

Lemma op_loop_paced {V : Type} net (run : nat → attempt V) n k i s :
  hs s ≤ hs (op_loop net run n k i s).1 ∧
  (lastHS s + CONNECT_GAP_MS * Z.of_nat (hs (op_loop net run n k i s).1 - hs s)
   ≤ lastHS (op_loop net run n k i s).1)%Z.
Proof.
  revert k s. induction n as [|n IH]; intros k s; simpl.
  - rewrite Nat.sub_diag. split; lia.
  - assert (Hrel : hs s ≤ hs (release i (attempted run k i s)) ∧
        (lastHS s + CONNECT_GAP_MS *
           Z.of_nat (hs (release i (attempted run k i s)) - hs s)
         ≤ lastHS (release i (attempted run k i s)))%Z).
    { simpl. rewrite Nat.sub_diag. split; lia. }
    destruct (op_out (run k)) as [v|e]; [exact Hrel|].
    destruct (negb (transient e) || (k =? OP_RETRIES)); [exact Hrel|].
    set (s1 := invalidate e i (attempted run k i s)).
    assert (H1 : hs s1 = hs s ∧ lastHS s1 = lastHS s).
    { subst s1. unfold invalidate. destruct (refused e); split; reflexivity. }
    destruct H1 as [Hh1 Hl1].
    destruct (ready_paced net i s1) as [Hm Hp]. rewrite Hh1, Hl1 in *.
    destruct (ready net i s1) as [s4 [e'|]]; simpl in *; [split; assumption|].
    destruct (IH (S k) s4) as [Hm' Hp'].
    apply (pace_trans _ (lastHS s4) _ _ (hs s4)); assumption.
Qed.

(** X2: over a whole proxied call the handshakes keep their distance: if the
    call made [h] of them, the last one started at least
    [h * CONNECT_GAP_MS] after the last handshake before the call. *)
Theorem call_paced {V : Type} net (run : nat → attempt V) s :
  hs s ≤ hs (call net run s).1.1 ∧
  (lastHS s + CONNECT_GAP_MS * Z.of_nat (hs (call net run s).1.1 - hs s)
   ≤ lastHS (call net run s).1.1)%Z.
Proof.
  unfold call. destruct (acquire_paced net s) as [Hm Hp].
  destruct (acquire net s) as [s1 [i|e]]; simpl in *; [|split; assumption].
  unfold op. destruct (op_loop_paced net run (S OP_RETRIES) 0 i s1) as [Hm' Hp'].
  destruct (op_loop net run (S OP_RETRIES) 0 i s1) as [s2 r]. simpl in *.
  apply (pace_trans _ (lastHS s1) _ _ (hs s1)); assumption.
Qed.

(** ** The repair loop *)

Lemma connect_frame net i s :
  clients (connect net i s).1 = clients s ∧
  pool (connect net i s).1 =
    (if (connect net i s).2 is None then alter (set_ok true) i (pool s) else pool s).
Proof.
  unfold connect, awaitBreaker.
  destruct (now s <? breakerUntil s)%Z; simpl;
    match goal with |- context [(0 <? ?g)%Z] => destruct (0 <? g)%Z end;
    simpl; destruct (hs_err _); simpl; split; reflexivity.
Qed.

Lemma ready_loop_budget net n k i s :
  hs (ready_loop net n k i s).1 ≤ hs s + n ∧
  ∀ e, (ready_loop net n k i s).2 = Some e → 0 < n → n + k = LOCAL_RETRIES →
    hs (ready_loop net n k i s).1 = hs s + n ∧
    hs_err (net (hs s + n - 1)) = Some e ∧
    ∀ j, j < n → hs_err (net (hs s + j)) ≠ None.
Proof.
  revert k s. induction n as [|n IH]; intros k s; simpl.
  - split; [lia|]. intros e [=].
  - set (s1 := if ok_at s i then s else recreate i s).
    assert (H1 : hs s1 = hs s) by (subst s1; destruct (ok_at s i); reflexivity).
    destruct (connect_shape net i s1) as (_ & Hh & Hres). rewrite H1 in Hh, Hres.
    destruct (connect net i s1) as [s2 [err|]]; simpl in *.
    + set (s3 := if refused err then failure s2 else s2).
      assert (H3 : hs s3 = hs s2) by (subst s3; destruct (refused err); reflexivity).
      clearbody s3. case_exit k; simpl.
      * split; [lia|]. intros e0 [= <-] _ Hnk. unfold LOCAL_RETRIES in Hnk.
        assert (n = 0) as -> by lia. split; [lia|].
        replace (hs s + 1 - 1) with (hs s) by lia. split; [congruence|].
        intros j Hj. assert (j = 0) as -> by lia. rewrite Nat.add_0_r. congruence.
      * destruct (IH (S k) (sleep (BACKOFF_MS * (Z.of_nat k + 1))
                    (set_pool (alter (set_ok false) i) s3))) as [Hle Hsome].
        simpl in Hle, Hsome. split; [lia|].
        intros e0 He0 _ Hnk. unfold LOCAL_RETRIES in *.
        destruct (Hsome e0 He0) as (Hn & Hlast & Hall); [lia|lia|].
        rewrite H3, Hh in Hn, Hlast, Hall. split; [lia|].
        split; [replace (hs s + S n - 1) with (S (hs s) + n - 1) by lia; exact Hlast|].
        intros j Hj. destruct j as [|j]; [rewrite Nat.add_0_r; congruence|].
        replace (hs s + S j) with (S (hs s) + j) by lia. apply Hall. lia.
    + split; [lia|]. intros e [=].
Qed.

Lemma ready_gives_up net i s :
  hs (ready net i s).1 ≤ hs s + LOCAL_RETRIES ∧
  ∀ e, (ready net i s).2 = Some e →
    ok_at s i = false ∧
    hs (ready net i s).1 = hs s + LOCAL_RETRIES ∧
    hs_err (net (hs s + LOCAL_RETRIES - 1)) = Some e ∧
    ∀ j, j < LOCAL_RETRIES → hs_err (net (hs s + j)) ≠ None.
Proof.
  unfold ready. destruct (ok_at s i); simpl.
  - split; [lia|]. intros e [=].
  - destruct (ready_loop_budget net LOCAL_RETRIES 0 i s) as [Hle Hsome].
    split; [exact Hle|]. intros e He. split; [reflexivity|].
    apply Hsome; [exact He|unfold LOCAL_RETRIES; lia|lia].
Qed.

(** X3: [#ready] never makes more than [LOCAL_RETRIES] handshakes; it throws
    only after exactly [LOCAL_RETRIES] of them failed in a row, and what it
    throws is the error of the last one. *)
Theorem ready_budget net i s :
  hs (ready net i s).1 ≤ hs s + LOCAL_RETRIES ∧
  ∀ e, (ready net i s).2 = Some e →
    ok_at s i = false ∧
    hs (ready net i s).1 = hs s + LOCAL_RETRIES ∧
    hs_err (net (hs s + LOCAL_RETRIES - 1)) = Some e ∧
    ∀ j, j < LOCAL_RETRIES → hs_err (net (hs s + j)) ≠ None.
Proof. exact (ready_gives_up net i s). Qed.

Lemma ready_budget_witness :
  hs (ready refusing 0 (pushEntry init)).1 = 6 ∧
  ∀ j, j < LOCAL_RETRIES → hs_err (refusing j) ≠ None.
Proof.
  destruct (ready_budget refusing 0 (pushEntry init)) as [_ H].
  destruct (H (Error "ECONNREFUSED" "Error: connect ECONNREFUSED 10.4.0.2:22"))
    as (_ & Hn & _ & Hall); [vm_compute; reflexivity|].
  split; [exact Hn|exact Hall].
Defined.

(** A repair that succeeds has made a handshake on a client created during
    the repair. *)
Lemma ready_loop_fresh net n k i s :
  i < length (pool s) → ok_at s i = false → 0 < n → n + k = LOCAL_RETRIES →
  (ready_loop net n k i s).2 = None →
  hs s < hs (ready_loop net n k i s).1 ∧
  ∃ e', pool (ready_loop net n k i s).1 !! i = Some e' ∧ clients s ≤ client e'.
Proof.
  revert k s. induction n as [|n IH]; intros k s Hi Hok Hn Hnk; [lia|]. simpl.
  rewrite Hok.
  destruct (connect_shape net i (recreate i s)) as (Hlen & Hh & _).
  destruct (connect_frame net i (recreate i s)) as (Hcl & Hpool).
  destruct (recreate_shape i s) as [Hrl Hrh]. rewrite Hrh in Hh.
  destruct (lookup_lt_is_Some_2 (pool s) i Hi) as [e0 He0].
  destruct (connect net i (recreate i s)) as [s2 [err|]]; simpl in *.
  - set (s3 := if refused err then failure s2 else s2).
    assert (H3 : hs s3 = hs s2 ∧ pool s3 = pool s2 ∧ clients s3 = clients s2).
    { subst s3. destruct (refused err); repeat split; reflexivity. }
    destruct H3 as (Hh3 & Hp3 & Hc3). clearbody s3.
    case_exit k; simpl; [discriminate|]. intros Hnone.
    unfold LOCAL_RETRIES in *.
    destruct (IH (S k) (sleep (BACKOFF_MS * (Z.of_nat k + 1))
                (set_pool (alter (set_ok false) i) s3))) as (Hlt & e' & He' & Hc').
    + simpl. rewrite length_alter, Hp3. lia.
    + unfold ok_at. simpl. rewrite list_lookup_alter_eq, Hp3, Hpool.
      unfold recreate. simpl. rewrite list_lookup_alter_eq, He0. reflexivity.
    + lia.
    + lia.
    + exact Hnone.
    + simpl in Hlt, Hc'. split; [lia|]. exists e'. split; [exact He'|lia].
  - intros _. split; [lia|]. rewrite Hpool. unfold recreate. simpl.
    rewrite !list_lookup_alter_eq, He0. simpl. eexists. split; [reflexivity|].
    simpl. lia.
Qed.

(** ** Leasing *)

Lemma reap_busy s j : busy_at (reap s) j = busy_at s j.
Proof.
  unfold busy_at, reap. simpl. rewrite list_lookup_fmap.
  destruct (pool s !! j) as [e|]; simpl; [|reflexivity].
  unfold reapEntry. destruct (_ && _); reflexivity.
Qed.

(** The entry [#acquire] works on, and the state in which [#ready] is
    called for it. *)
Lemma acquire_cases net s :
  ∃ t i,
    acquire net s =
      (match ready net i t with
       | (s4, Some err) => (s4, inr err)
       | (s4, None) => (set_pool (alter (set_busy true) i) s4, inl i)
       end) ∧
    i < length (pool t) ∧ hs t = hs s ∧ clients s ≤ clients t ∧
    (∀ j, busy_at t j = busy_at s j) ∧
    (∀ j, releases j (events t) = releases j (events s)) ∧
    ((length (pool s) < MAX_CONN ∧ i = length (pool s) ∧
      t = pushEntry (bump_next (reap s))) ∨
     (MAX_CONN ≤ length (pool s) ∧ i = next s `mod` length (pool s) ∧
      t = bump_next (reap s))).
Proof.
  unfold acquire. simpl. rewrite length_map.
  destruct (Nat.ltb_spec (length (pool s)) MAX_CONN) as [Hlt|Hge].
  - rewrite orb_true_r. exists (pushEntry (bump_next (reap s))), (length (pool s)).
    split; [reflexivity|]. simpl. rewrite length_app, length_map. simpl.
    split; [lia|]. split; [reflexivity|]. split; [lia|]. split; [|split].
    + intros j. unfold busy_at. simpl.
      destruct (Nat.lt_ge_cases j (length (pool s))) as [Hj|Hj].
      * rewrite lookup_app_l by (rewrite length_map; exact Hj).
        apply (reap_busy s j).
      * rewrite (lookup_ge_None_2 (pool s) j) by exact Hj.
        rewrite lookup_app_r by (rewrite length_map; exact Hj).
        rewrite length_map. destruct (j - length (pool s)) as [|m]; reflexivity.
    + intros j. rewrite releases_app, releases_single by discriminate. lia.
    + left. auto.
  - assert ((length (pool s) =? 0) = false) as ->
      by (apply Nat.eqb_neq; unfold MAX_CONN in *; lia).
    simpl. exists (bump_next (reap s)), (next s `mod` length (pool s)).
    split; [reflexivity|]. simpl. rewrite length_map.
    split; [apply Nat.mod_upper_bound; unfold MAX_CONN in *; lia|].
    split; [reflexivity|]. split; [lia|]. split; [|split].
    + intros j. apply (reap_busy s j).
    + reflexivity.
    + right. auto.
Qed.

(** X4: idle reclamation: when [#acquire] hands out an existing entry that
    was free and idle for more than [IDLE_MS], the entry carries a client
    created during this call, connected by a handshake made during it. *)
Theorem acquire_reclaims_idle net s s' i e :
  acquire net s = (s', inl i) →
  pool s !! i = Some e → busy e = false → (IDLE_MS < now s - lastUse e)%Z →
  hs s < hs s' ∧
  ∃ e', pool s' !! i = Some e' ∧ clients s ≤ client e' ∧ ok e' = true.
Proof.
  intros Ha He Hfree Hidle.
  pose proof (lookup_lt_Some _ _ _ He) as Hi.
  destruct (acquire_cases net s) as (t & i0 & Heq & Hi0 & Hh & Hc & _ & _ & Hcase).
  rewrite Heq in Ha. clear Heq.
  assert (Hready2 : (ready net i0 t).2 = None ∧ i0 = i ∧
            s' = set_pool (alter (set_busy true) i0) (ready net i0 t).1).
  { destruct (ready net i0 t) as [s4 [err|]]; [discriminate|].
    injection Ha as <- <-. auto. }
  destruct Hready2 as (Hnone & -> & ->).
  destruct Hcase as [(Hlt & -> & _)|(Hge & _ & ->)]; [lia|].
  assert (Hok : ok_at (bump_next (reap s)) i = false).
  { unfold ok_at, reap. simpl. rewrite list_lookup_fmap, He. simpl.
    unfold reapEntry. rewrite Hfree. simpl.
    destruct (ok e) eqn:Hoke; simpl; [|exact Hoke].
    destruct (Z.ltb_spec IDLE_MS (now s - lastUse e)); [reflexivity|lia]. }
  pose proof (ready_ok net i (bump_next (reap s)) Hi0 Hnone) as Hokafter.
  unfold ready in *. rewrite Hok in *.
  pose proof (ready_loop_fresh net LOCAL_RETRIES 0 i (bump_next (reap s)) Hi0 Hok) as Hf.
  set (r := ready_loop net LOCAL_RETRIES 0 i (bump_next (reap s))) in *.
  destruct Hf as (Hlt & e' & He' & Hc'); [unfold LOCAL_RETRIES; lia|lia|exact Hnone|].
  clearbody r. simpl in *. split; [lia|]. exists (set_busy true e').
  rewrite list_lookup_alter_eq, He'. split; [reflexivity|]. simpl.
  split; [lia|]. unfold ok_at in Hokafter. rewrite He' in Hokafter. exact Hokafter.
Qed.

Lemma acquire_reclaims_idle_witness :
  hs (set_now 200000 (release 0 (leased MAX_CONN))) <
  hs (acquire good (set_now 200000 (release 0 (leased MAX_CONN)))).1.
Proof.
  set (s := set_now 200000 (release 0 (leased MAX_CONN))).
  assert (Ha : acquire good s = ((acquire good s).1, inl 0)) by (vm_compute; reflexivity).
  destruct (acquire_reclaims_idle good s _ 0
              {| client := 1; busy := false; lastUse := 10000; ok := true |} Ha)
    as [H _]; [vm_compute; reflexivity|reflexivity|vm_compute; reflexivity|exact H].
Defined.

Lemma acquire_error_frame net s s' e :
  acquire net s = (s', inr e) →
  (∀ j, busy_at s' j = busy_at s j) ∧
  (∀ j, releases j (events s') = releases j (events s)) ∧
  hs s' = hs s + LOCAL_RETRIES.
Proof.
  intros Ha.
  destruct (acquire_cases net s) as (t & i & Heq & Hi & Hh & _ & Hb & Hr & _).
  rewrite Heq in Ha. clear Heq.
  pose proof (λ j, ready_busy net i j t) as Hrb.
  pose proof (λ j, ready_releases net i j t) as Hrr.
  destruct (ready_gives_up net i t) as [_ Hbud].
  destruct (ready net i t) as [s4 [err|]]; [|discriminate].
  injection Ha as <- <-. simpl in *.
  destruct (Hbud err eq_refl) as (_ & Hn & _).
  split; [intros j; rewrite <- Hb; apply Hrb|].
  split; [intros j; rewrite <- Hr; apply Hrr|lia].
Qed.

(** X5: a failed [#acquire] takes no lease: every busy flag is as before, also
    that of the entry it may have added, no release is recorded, and it has
    cost exactly [LOCAL_RETRIES] handshakes. *)
Theorem acquire_error_no_lease net s s' e :
  acquire net s = (s', inr e) →
  (∀ j, busy_at s' j = busy_at s j) ∧
  (∀ j, releases j (events s') = releases j (events s)) ∧
  hs s' = hs s + LOCAL_RETRIES.
Proof. exact (acquire_error_frame net s s' e). Qed.

Lemma acquire_error_no_lease_witness :
  busy_at (acquire refusing (leased 3)).1 3 = false ∧
  hs (acquire refusing (leased 3)).1 = hs (leased 3) + LOCAL_RETRIES.
Proof.
  assert (Ha : acquire refusing (leased 3) =
               ((acquire refusing (leased 3)).1,
                inr (Error "ECONNREFUSED" "Error: connect ECONNREFUSED 10.4.0.2:22")))
    by (vm_compute; reflexivity).
  destruct (acquire_error_no_lease refusing (leased 3) _ _ Ha) as (Hb & _ & Hh).
  split; [rewrite Hb; reflexivity|exact Hh].
Defined.

(** X6: a proxied call that got no lease threw the error of [#acquire]; one
    that got a lease either released it exactly once, leaving the entry
    free, or ended with an error while the entry is still marked busy and
    no release has run (the repair inside the retry failed). *)
Theorem call_lease {V : Type} net (run : nat → attempt V) s :
  match (call net run s).1.2 with
  | None =>
      (∃ e, (call net run s).2 = Thrown e) ∧
      ∀ j, busy_at (call net run s).1.1 j = busy_at s j
  | Some i =>
      i < length (pool (call net run s).1.1) ∧
      ((busy_at (call net run s).1.1 i = false ∧
        releases i (events (call net run s).1.1) = S (releases i (events s))) ∨
       (∃ e, (call net run s).2 = Thrown e ∧
             busy_at (call net run s).1.1 i = true ∧
             releases i (events (call net run s).1.1) = releases i (events s)))
  end.
Proof.
  unfold call.
  destruct (acquire net s) as [s1 [i|e]] eqn:Ha; simpl.
  - destruct (acquire_cases net s) as (t & i0 & Heq & Hi & _ & _ & _ & Hr & _).
    rewrite Heq in Ha. clear Heq.
    pose proof (ready_shape net i0 t) as Hsh.
    pose proof (ready_releases net i0 i0 t) as Hrr.
    destruct (ready net i0 t) as [s4 [err|]]; [discriminate|].
    injection Ha as <- <-. simpl in *.
    set (s1 := set_pool (alter (set_busy true) i0) s4).
    assert (Hi1 : i0 < length (pool s1)) by (subst s1; simpl; rewrite length_alter; lia).
    assert (Hb1 : busy_at s1 i0 = true).
    { subst s1. unfold busy_at. simpl. rewrite list_lookup_alter_eq.
      destruct (lookup_lt_is_Some_2 (pool s4) i0) as [e0 ->]; [lia|reflexivity]. }
    assert (Hr1 : releases i0 (events s1) = releases i0 (events s)).
    { subst s1. simpl. rewrite Hrr. apply Hr. }
    pose proof (op_loop_shape net run (S OP_RETRIES) 0 i0 s1) as Ho.
    destruct (op_loop_lease net run (S OP_RETRIES) 0 i0 s1 Hi1) as [Hl|Hl]; [lia|lia| |];
      unfold op; destruct (op_loop net run (S OP_RETRIES) 0 i0 s1) as [s2 r];
      simpl in *; (split; [lia|]).
    + left. rewrite <- Hr1. exact Hl.
    + right. destruct Hl as (e & He & Hb & Hrel). exists e.
      split; [exact He|]. split; congruence.
  - destruct (acquire_error_frame net s s1 e Ha) as (Hb & _).
    split; [exists e; reflexivity|exact Hb].
Qed.

(** ** Classifying errors *)

Lemma ignoreCase_app a b :
  Str.ignoreCase (a +:+ b) = Str.ignoreCase a +:+ Str.ignoreCase b.
Proof. induction a as [|c a IH]; simpl; [reflexivity|rewrite IH; reflexivity]. Qed.

Lemma prefix_app p b : String.prefix p (p +:+ b) = true.
Proof.
  induction p as [|c p IH]; simpl; [destruct b; reflexivity|].
  destruct (Ascii.ascii_dec c c); [exact IH|contradiction].
Qed.

Lemma includes_prefix s p : String.prefix p s = true → Str.includes s p = true.
Proof. destruct s; simpl; intros ->; reflexivity. Qed.

Lemma includes_app a p b : Str.includes (a +:+ p +:+ b) p = true.
Proof.
  induction a as [|c a IH].
  - change ("" +:+ p +:+ b) with (p +:+ b). apply includes_prefix, prefix_app.
  - change (String c a +:+ p +:+ b) with (String c (a +:+ p +:+ b)).
    simpl. rewrite IH.
    match goal with |- (if ?t then _ else _) = _ => destruct t; reflexivity end.
Qed.

(** X7: [transient] looks for its symptoms anywhere in the rendering of the
    error and in any letter case; the error code plays no part. *)
Theorem transient_symptom c a x b :
  Str.ignoreCase x ∈ transient_symptoms →
  transient (Error c (a +:+ x +:+ b)) = true.
Proof.
  intros Hx. unfold transient. apply existsb_exists.
  exists (Str.ignoreCase x). split; [apply list_elem_of_In, Hx|].
  simpl. rewrite !ignoreCase_app. apply includes_app.
Qed.

Lemma transient_symptom_witness :
  transient (Error "" "Error: Socket closed by peer") = true.
Proof.
  apply (transient_symptom "" "Error: " "Socket" " closed by peer").
  vm_compute. repeat constructor.
Defined.

End SftpPoolMore.

(** * Further properties of the scheduler *)

Module SchedulerMore.
Import Scheduler SchedulerFacts.
Local Open Scope nat_scope.
Local Open Scope list_scope.

(** ** What a batch is made of *)

Section Batches.

Variable cfg : config.

Lemma pickLarge_inv cs q p q' :
  pickLarge cfg cs q = Some (p, q') →
  ∃ c it rest, c ∈ cs ∧ queueOf q c = it :: rest ∧
    isLarge (TH_MB cfg) it = true ∧ p = Pick c (name it) true ∧
    q' = <[c := rest]> q.
Proof.
  induction cs as [|c0 cs IH]; simpl; [discriminate|].
  destruct (queueOf q c0) as [|it0 rest0] eqn:Hq0.
  - intros H. destruct (IH H) as (c & it & rest & Hc & ?).
    exists c, it, rest. rewrite elem_of_cons. tauto.
  - destruct (isLarge (TH_MB cfg) it0) eqn:Hl0.
    + intros [= <- <-]. exists c0, it0, rest0. rewrite elem_of_cons. auto.
    + intros H. destruct (IH H) as (c & it & rest & Hc & ?).
      exists c, it, rest. rewrite elem_of_cons. tauto.
Qed.

Lemma pickLarge_None_inv cs q :
  pickLarge cfg cs q = None → ∀ c, c ∈ cs → ¬ largeHead cfg q c.
Proof.
  induction cs as [|c0 cs IH]; simpl; intros Hn c Hc; [inversion Hc|].
  intros (it & rest & Hq & Hl).
  destruct (queueOf q c0) as [|it0 rest0] eqn:Hq0.
  - apply elem_of_cons in Hc as [->|Hc]; [congruence|].
    apply (IH Hn c Hc). exists it, rest. auto.
  - destruct (isLarge (TH_MB cfg) it0) eqn:Hl0; [discriminate|].
    apply elem_of_cons in Hc as [->|Hc]; [congruence|].
    apply (IH Hn c Hc). exists it, rest. auto.
Qed.

Lemma smallRun_elem c l p :
  p ∈ smallRun cfg c l →
  ctx p = c ∧ large p = false ∧
  ∃ it, it ∈ l ∧ name it = file p ∧ isLarge (TH_MB cfg) it = false.
Proof.
  induction l as [|it rest IH]; simpl; [intros H; inversion H|].
  destruct (isLarge (TH_MB cfg) it) eqn:Hl; [intros H; inversion H|].
  intros H. apply elem_of_cons in H as [->|H].
  - simpl. repeat split. exists it. rewrite elem_of_cons. auto.
  - destruct (IH H) as (Hc & Hf & it' & Hin & Hn & Hs).
    repeat split; try assumption. exists it'. rewrite elem_of_cons. auto.
Qed.

Lemma queueOf_insert (q : gmap string (list item)) c l c' :
  queueOf (<[c := l]> q) c' = if decide (c' = c) then l else queueOf q c'.
Proof.
  unfold queueOf. destruct (decide (c' = c)) as [->|Hne].
  - rewrite lookup_insert_eq. reflexivity.
  - rewrite lookup_insert_ne by congruence. reflexivity.
Qed.

(** The second loop only adds picks, never beyond the capacity, and each
    pick it adds is a small job waiting in the queue of its source. *)
Lemma pickSmall_sound cs max q picks :
  (∃ l, (pickSmall cfg cs max q picks).1 = picks ++ l) ∧
  length (pickSmall cfg cs max q picks).1 ≤ Nat.max (length picks) (Z.to_nat max) ∧
  ∀ p, p ∈ (pickSmall cfg cs max q picks).1 →
    p ∈ picks ∨
    (ctx p ∈ cs ∧ large p = false ∧
     ∃ it, it ∈ queueOf q (ctx p) ∧ name it = file p ∧
           isLarge (TH_MB cfg) it = false).
Proof.
  revert q picks. induction cs as [|c0 cs IH]; intros q picks; simpl.
  - split; [exists []; rewrite app_nil_r; reflexivity|]. split; [lia|auto].
  - rewrite takeSmall_spec.
    set (n := Z.to_nat (max - Z.of_nat (length picks))).
    set (r0 := take n (smallRun cfg c0 (queueOf q c0))).
    set (q1 := <[c0 := drop (length r0) (queueOf q c0)]> q).
    assert (Hr0 : ∀ p, p ∈ r0 →
              ctx p = c0 ∧ large p = false ∧
              ∃ it, it ∈ queueOf q c0 ∧ name it = file p ∧
                    isLarge (TH_MB cfg) it = false).
    { intros p Hp. apply smallRun_elem. eapply subseteq_take, Hp. }
    assert (Hlen : length r0 ≤ n) by (subst r0; rewrite length_take; lia).
    destruct (Z.eqb_spec (Z.of_nat (length (picks ++ r0))) max) as [Hfull|Hmore]; simpl.
    + split; [exists r0; reflexivity|]. split; [rewrite length_app; lia|].
      intros p Hp. apply elem_of_app in Hp as [Hp|Hp]; [auto|]. right.
      destruct (Hr0 p Hp) as (Hc & Hl & Hit). rewrite Hc.
      split; [apply elem_of_cons; auto|]. split; [exact Hl|exact Hit].
    + destruct (IH q1 (picks ++ r0)) as ([l Hl] & Hb & Hin).
      split; [exists (r0 ++ l); rewrite Hl, app_assoc; reflexivity|].
      split; [rewrite length_app in Hb; lia|].
      intros p Hp. destruct (Hin p Hp) as [Hp'|(Hc & Hlg & it & Hit & Hnm & Hsm)].
      * apply elem_of_app in Hp' as [Hp'|Hp']; [auto|]. right.
        destruct (Hr0 p Hp') as (Hc & Hlg & Hit). rewrite Hc.
        split; [apply elem_of_cons; auto|]. split; [exact Hlg|exact Hit].
      * right. split; [apply elem_of_cons; auto|]. split; [exact Hlg|].
        exists it. split; [|auto]. unfold q1 in Hit. rewrite queueOf_insert in Hit.
        destruct (decide (ctx p = c0)) as [->|_]; [|exact Hit].
        eapply subseteq_drop, Hit.
Qed.

Lemma pickBatch_elem max q p :
  p ∈ (pickBatch cfg max q).1 →
  ctx p ∈ CTXS cfg ∧
  (∃ it, it ∈ queueOf q (ctx p) ∧ name it = file p ∧
         large p = isLarge (TH_MB cfg) it) ∧
  (large p = true → (pickBatch cfg max q).1 = [p]).
Proof.
  unfold pickBatch. destruct (pickLarge cfg (CTXS cfg) q) as [[p0 q']|] eqn:Hl; simpl.
  - intros Hp. apply list_elem_of_singleton in Hp. subst p0.
    destruct (pickLarge_inv _ _ _ _ Hl) as (c & it & rest & Hc & Hq & Hlg & -> & _).
    simpl. split; [exact Hc|]. split; [|reflexivity].
    exists it. rewrite Hq, elem_of_cons. auto.
  - intros Hp. destruct (pickSmall_sound (CTXS cfg) max q []) as (_ & _ & Hin).
    destruct (Hin p Hp) as [Hnil|(Hc & Hlg & it & Hit & Hnm & Hsm)]; [inversion Hnil|].
    split; [exact Hc|]. split; [|rewrite Hlg; discriminate].
    exists it. rewrite Hlg, Hsm. auto.
Qed.

Lemma pickBatch_length max q :
  length (pickBatch cfg max q).1 ≤ Z.to_nat (Z.max 1 max).
Proof.
  unfold pickBatch. destruct (pickLarge cfg (CTXS cfg) q) as [[p0 q']|]; simpl; [lia|].
  destruct (pickSmall_sound (CTXS cfg) max q []) as (_ & Hb & _). simpl in Hb. lia.
Qed.

(** X8: every job of a batch waits in the queue of a configured source, its
    [large] flag says whether its size is at or above the threshold, and a
    batch that holds a large job holds nothing else; a batch never exceeds
    the capacity asked for (one job when a large job is picked). *)
Theorem pickBatch_sound max q :
  length (pickBatch cfg max q).1 ≤ Z.to_nat (Z.max 1 max) ∧
  ∀ p, p ∈ (pickBatch cfg max q).1 →
    ctx p ∈ CTXS cfg ∧
    (∃ it, it ∈ queueOf q (ctx p) ∧ name it = file p ∧
           large p = isLarge (TH_MB cfg) it) ∧
    (large p = true → (pickBatch cfg max q).1 = [p]).
Proof. split; [apply pickBatch_length|apply pickBatch_elem]. Qed.

Lemma pickSmall_progress cs (max : Z) q :
  (1 ≤ max)%Z → (∀ c, c ∈ cs → ¬ largeHead cfg q c) →
  (∃ c, c ∈ cs ∧ queueOf q c ≠ []) →
  (pickSmall cfg cs max q []).1 ≠ [].
Proof.
  intros Hmax. revert q. induction cs as [|c0 cs IH]; intros q Hsmall (c & Hc & Hne).
  - inversion Hc.
  - simpl. rewrite takeSmall_spec. simpl. rewrite Z.sub_0_r.
    destruct (queueOf q c0) as [|it rest] eqn:Hq0.
    + simpl. rewrite take_nil. simpl.
      destruct max as [|pm|pm]; [lia| |lia].
      assert (Hsame : ∀ c', queueOf (<[c0 := []]> q) c' = queueOf q c').
      { intros c'. rewrite queueOf_insert. destruct (decide (c' = c0)) as [->|]; auto. }
      apply IH.
      * intros c' Hc' (it & rest & Hq & Hl). rewrite Hsame in Hq.
        apply (Hsmall c'); [apply elem_of_cons; auto|]. exists it, rest. auto.
      * apply elem_of_cons in Hc as [->|Hc]; [congruence|].
        exists c. rewrite Hsame. auto.
    + assert (Hit : isLarge (TH_MB cfg) it = false).
      { destruct (isLarge (TH_MB cfg) it) eqn:E; [|reflexivity].
        exfalso. apply (Hsmall c0); [apply elem_of_cons; auto|].
        exists it, rest. auto. }
      simpl. rewrite Hit.
      replace (Z.to_nat max) with (S (Z.to_nat max - 1)) by lia. simpl.
      match goal with |- context [pickSmall cfg cs max ?q1 ?pk] =>
        destruct (pickSmall_sound cs max q1 pk) as ([l Hl] & _) end.
      match goal with |- context [if ?t then _ else _] => destruct t end;
        simpl; [discriminate|].
      rewrite Hl. discriminate.
Qed.

Lemma pickBatch_nonempty (max : Z) q :
  (1 ≤ max)%Z → (∃ c, c ∈ CTXS cfg ∧ queueOf q c ≠ []) →
  (pickBatch cfg max q).1 ≠ [].
Proof.
  intros Hmax Hex. unfold pickBatch.
  destruct (pickLarge cfg (CTXS cfg) q) as [[p0 q']|] eqn:Hl; simpl; [discriminate|].
  apply pickSmall_progress; [exact Hmax|apply pickLarge_None_inv, Hl|exact Hex].
Qed.

Lemma pickBatch_from max q :
  (pickBatch cfg max q).1 ≠ [] → ∃ c, c ∈ CTXS cfg ∧ queueOf q c ≠ [].
Proof.
  destruct (pickBatch cfg max q).1 as [|p b] eqn:Hb; [congruence|]. intros _.
  destruct (pickBatch_elem max q p) as (Hc & (it & Hit & _) & _).
  { rewrite Hb. apply elem_of_cons. auto. }
  exists (ctx p). split; [exact Hc|]. intros Hnil. rewrite Hnil in Hit. inversion Hit.
Qed.

(** X9: with room for at least one job, the batch is empty exactly when every
    configured source has an empty queue. *)
Theorem pickBatch_progress (max : Z) q :
  (1 ≤ max)%Z →
  ((pickBatch cfg max q).1 ≠ [] ↔ ∃ c, c ∈ CTXS cfg ∧ queueOf q c ≠ []).
Proof.
  intros Hmax. split; [apply pickBatch_from|apply pickBatch_nonempty, Hmax].
Qed.

Lemma smallRun_names c l k :
  file <$> take k (smallRun cfg c l) =
  name <$> take (length (take k (smallRun cfg c l))) l.
Proof.
  revert k. induction l as [|it rest IH]; intros k; simpl.
  - rewrite take_nil. reflexivity.
  - destruct (isLarge (TH_MB cfg) it); [rewrite take_nil; reflexivity|].
    destruct k as [|k]; simpl; [reflexivity|]. rewrite IH. reflexivity.
Qed.

Lemma pickedFrom_take_runs (q : gmap string (list item)) c cs :
  NoDup cs → ∀ m, ∃ m',
    pickedFrom c (take m (flat_map (λ c', smallRun cfg c' (queueOf q c')) cs)) =
    take m' (smallRun cfg c (queueOf q c)).
Proof.
  induction 1 as [|c0 cs Hc0 Hnd IH]; intros m; simpl.
  - exists 0. rewrite take_nil. reflexivity.
  - rewrite take_app. unfold pickedFrom. rewrite filter_app.
    fold (pickedFrom c (take m (smallRun cfg c0 (queueOf q c0)))).
    match goal with |- context [filter _ (take ?k (flat_map ?f cs))] =>
      fold (pickedFrom c (take k (flat_map f cs))); set (k' := k) end.
    destruct (decide (c = c0)) as [->|Hne].
    + exists m. rewrite (runs_not_from cfg q c0 cs k' Hc0), app_nil_r.
      apply pickedFrom_all, Forall_take, smallRun_ctx.
    + destruct (IH k') as [m' Hm']. exists m'. rewrite Hm'.
      rewrite (pickedFrom_none c (take m _)); [reflexivity|].
      apply Forall_take. eapply Forall_impl; [apply smallRun_ctx|].
      simpl. intros p -> ->. contradiction.
Qed.

(** X10: picking loses and duplicates nothing: for every source the jobs of
    the batch that come from it are the first jobs of its queue, in queue
    order, and its queue afterwards is what follows them. *)
Theorem pickBatch_conserves max q c :
  NoDup (CTXS cfg) →
  queueOf (pickBatch cfg max q).2 c =
    drop (length (pickedFrom c (pickBatch cfg max q).1)) (queueOf q c) ∧
  file <$> pickedFrom c (pickBatch cfg max q).1 =
    name <$> take (length (pickedFrom c (pickBatch cfg max q).1)) (queueOf q c).
Proof.
  intros Hnd. unfold pickBatch.
  destruct (pickLarge cfg (CTXS cfg) q) as [[p0 q']|] eqn:Hl; simpl.
  - destruct (pickLarge_inv _ _ _ _ Hl) as (c0 & it & rest & _ & Hq & _ & -> & ->).
    rewrite queueOf_insert. unfold pickedFrom.
    destruct (decide (c = c0)) as [->|Hne].
    + rewrite filter_cons_True by reflexivity. rewrite Hq. simpl. auto.
    + rewrite filter_cons_False by (simpl; congruence). simpl. auto.
  - destruct (pickSmall_spec cfg (CTXS cfg) Hnd max q []) as [Hp Hq].
    simpl in Hp, Hq. rewrite Z.sub_0_r in Hp, Hq. rewrite Hp.
    split; [apply Hq|].
    destruct (pickedFrom_take_runs q c (CTXS cfg) Hnd (Z.to_nat max)) as [m' ->].
    apply smallRun_names.
Qed.

End Batches.

Lemma pickBatch_conserves_witness :
  queueOf (pickBatch twoCtx 2 twoQueues).2 "CAN" = [] ∧
  queueOf (pickBatch twoCtx 2 twoQueues).2 "CAS" = [Item "KSB1_c.xlsx" (1 # 1)].
Proof.
  destruct (pickBatch_conserves twoCtx 2 twoQueues "CAN" twoCtx_NoDup) as [H1 _].
  destruct (pickBatch_conserves twoCtx 2 twoQueues "CAS" twoCtx_NoDup) as [H2 _].
  rewrite H1, H2. split; vm_compute; reflexivity.
Defined.

Lemma pickBatch_progress_witness :
  (pickBatch defaults 5 exampleQueue).1 ≠ [].
Proof.
  apply (pickBatch_progress defaults 5 exampleQueue); [lia|].
  exists "CAN". split; [repeat constructor|]. vm_compute. discriminate.
Defined.

Lemma pickBatch_sound_witness :
  Forall (λ p, ctx p ∈ CTXS defaults) (pickBatch defaults 5 exampleQueue).1.
Proof.
  apply Forall_forall. intros p Hp.
  destruct (pickBatch_sound defaults 5 exampleQueue) as [_ H].
  destruct (H p Hp) as (Hc & _). exact Hc.
Defined.

End SchedulerMore.

(** * Properties of ticks, batches in flight and the manual run *)

Module ControlFacts.
Import Scheduler SchedulerFacts SchedulerMore Control.
Local Open Scope nat_scope.
Local Open Scope list_scope.
Local Set Warnings "-clear-no-such-hyp".

Lemma tickBody_split cfg e s :
  tickBody cfg e s =
  if largeInFlight s then Report s [] [] false
  else match scanPhase cfg e s with
       | None => Report s [] [] true
       | Some s1 => dispatch cfg e s1
       end.
Proof. reflexivity. Qed.

(** ** One job *)

Section Jobs.

Variable cfg : config.
Variable e : env.

(** Case analysis on how [processOne] goes. *)
Ltac job_cases p s :=
  unfold processOne, settle;
  change (failureCount (enter p s) (jobKey p)) with (failureCount s (jobKey p));
  destruct (MAX_FAILURES cfg <=? failureCount s (jobKey p));
  [|destruct (work e (jobKey p));
    try destruct (Str.includes _ "TIMEOUT" && _)];
  simpl.

Lemma processOne_fields p s :
  queues (processOne cfg e p s).1 = queues s ∧
  phase (processOne cfg e p s).1 = phase s ∧
  ticking (processOne cfg e p s).1 = ticking s.
Proof. job_cases p s; auto. Qed.

Lemma processOne_processed p s :
  processedOK s ⊆ processedOK (processOne cfg e p s).1 ∧
  processedOK (processOne cfg e p s).1 ⊆ {[jobKey p]} ∪ processedOK s ∧
  (work e (jobKey p) = Resolved → jobKey p ∈ processedOK (processOne cfg e p s).1).
Proof.
  unfold processOne, settle.
  change (failureCount (enter p s) (jobKey p)) with (failureCount s (jobKey p)).
  destruct (MAX_FAILURES cfg <=? failureCount s (jobKey p)); simpl;
    [set_solver|].
  destruct (work e (jobKey p)); try destruct (Str.includes _ "TIMEOUT" && _);
    simpl; (split; [set_solver|split; [set_solver|]]); intros H;
    try discriminate; set_solver.
Qed.

Lemma processOne_failed p s k :
  k ≠ jobKey p →
  failedFiles (processOne cfg e p s).1 !! k = failedFiles s !! k.
Proof.
  intros Hne. job_cases p s; try reflexivity;
    rewrite ?lookup_delete_ne, ?lookup_insert_ne by congruence; reflexivity.
Qed.

Lemma processOne_inFlight p s :
  inFlight (processOne cfg e p s).1 ⊆ {[jobKey p]} ∪ inFlight s ∧
  (work e (jobKey p) ≠ Pending →
   inFlight (processOne cfg e p s).1 = inFlight s ∖ {[jobKey p]} ∧
   flags (processOne cfg e p s).1 = delete (jobKey p) (flags s)).
Proof.
  assert (Hdel : delete (jobKey p) (<[jobKey p := large p]> (flags s)) =
                 delete (jobKey p) (flags s)) by apply delete_insert_eq.
  job_cases p s; (split; [set_solver|]); intros Hw; try congruence;
    (split; [set_solver|exact Hdel]).
Qed.

Lemma processOne_flags p s :
  dom (flags s) = inFlight s →
  dom (flags (processOne cfg e p s).1) = inFlight (processOne cfg e p s).1.
Proof.
  intros Hd. job_cases p s; rewrite ?dom_delete_L, ?dom_insert_L, Hd; reflexivity.
Qed.

(** ** A batch *)

Lemma processBatch_cons p b s :
  (processBatch cfg e (p :: b) s).1 =
  (processBatch cfg e b (processOne cfg e p s).1).1.
Proof.
  simpl. destruct (processOne cfg e p s) as [s1 r1]. simpl.
  destruct (processBatch cfg e b s1) as [s2 r2]. reflexivity.
Qed.

Lemma processBatch_fields b s :
  queues (processBatch cfg e b s).1 = queues s ∧
  phase (processBatch cfg e b s).1 = phase s ∧
  ticking (processBatch cfg e b s).1 = ticking s.
Proof.
  revert s. induction b as [|p b IH]; intros s; [simpl; auto|].
  rewrite processBatch_cons.
  destruct (IH (processOne cfg e p s).1) as (-> & -> & ->).
  apply processOne_fields.
Qed.

Lemma processBatch_flags b s :
  dom (flags s) = inFlight s →
  dom (flags (processBatch cfg e b s).1) = inFlight (processBatch cfg e b s).1.
Proof.
  revert s. induction b as [|p b IH]; intros s Hd; [exact Hd|].
  rewrite processBatch_cons. apply IH, processOne_flags, Hd.
Qed.

Lemma size_add (k : string) (X Y : gset string) :
  Y ⊆ {[k]} ∪ X → size Y ≤ S (size X).
Proof.
  intros H. apply subseteq_size in H. rewrite size_union_alt in H.
  rewrite size_singleton in H.
  assert (size (X ∖ {[k]}) ≤ size X) by (apply subseteq_size; set_solver).
  lia.
Qed.

Lemma processBatch_size b s :
  size (inFlight (processBatch cfg e b s).1) ≤ size (inFlight s) + length b.
Proof.
  revert s. induction b as [|p b IH]; intros s; [simpl; lia|].
  rewrite processBatch_cons. specialize (IH (processOne cfg e p s).1).
  destruct (processOne_inFlight p s) as [Hs _].
  apply size_add in Hs. simpl. lia.
Qed.

Lemma processBatch_mono b s :
  processedOK s ⊆ processedOK (processBatch cfg e b s).1.
Proof.
  revert s. induction b as [|p b IH]; intros s; [reflexivity|].
  rewrite processBatch_cons.
  destruct (processOne_processed p s) as (H & _).
  etransitivity; [exact H|apply IH].
Qed.

(** X11: the jobs of a batch do not disturb one another. A job whose worker
    resolves is recorded as processed whatever the other jobs of the batch
    do; nothing that was processed is forgotten; and for a key that no job
    of the batch has, neither the processed set nor the failure counter
    changes. *)
Theorem batch_isolation b s :
  processedOK s ⊆ processedOK (processBatch cfg e b s).1 ∧
  (∀ p, p ∈ b → work e (jobKey p) = Resolved →
        jobKey p ∈ processedOK (processBatch cfg e b s).1) ∧
  (∀ k, k ∉ jobKey <$> b →
        (k ∈ processedOK (processBatch cfg e b s).1 → k ∈ processedOK s) ∧
        failedFiles (processBatch cfg e b s).1 !! k = failedFiles s !! k).
Proof.
  split; [apply processBatch_mono|]. split.
  - revert s. induction b as [|p0 b IH]; intros s p Hp Hw.
    + inversion Hp.
    + rewrite processBatch_cons. apply elem_of_cons in Hp as [->|Hp].
      * apply processBatch_mono. apply processOne_processed, Hw.
      * apply IH; assumption.
  - revert s. induction b as [|p0 b IH]; intros s k Hk; [simpl; auto|].
    rewrite processBatch_cons. rewrite fmap_cons in Hk.
    apply not_elem_of_cons in Hk as [Hne Hk].
    destruct (IH (processOne cfg e p0 s).1 k Hk) as [H1 H2].
    rewrite H2, processOne_failed by exact Hne. split; [|reflexivity].
    intros Hin. apply H1 in Hin.
    destruct (processOne_processed p0 s) as (_ & Hsub & _).
    apply Hsub in Hin. set_solver.
Qed.

(** X12: when every worker of a batch has settled (resolved, rejected or
    timed out) by the time the batch is left, the [finally] blocks have
    taken exactly the keys of the batch out of [inFlight] and [flags];
    the entries of other keys are as before. *)
Theorem batch_cleanup b s :
  (∀ p, p ∈ b → work e (jobKey p) ≠ Pending) →
  inFlight (processBatch cfg e b s).1 = inFlight s ∖ list_to_set (jobKey <$> b) ∧
  (∀ k, k ∈ jobKey <$> b → flags (processBatch cfg e b s).1 !! k = None) ∧
  (∀ k, k ∉ jobKey <$> b → flags (processBatch cfg e b s).1 !! k = flags s !! k).
Proof.
  revert s. induction b as [|p b IH]; intros s Hw.
  - simpl. split; [set_solver|]. split; [|reflexivity].
    intros k Hk. inversion Hk.
  - rewrite processBatch_cons.
    assert (Hp : work e (jobKey p) ≠ Pending) by (apply Hw; left).
    destruct (processOne_inFlight p s) as [_ H1].
    destruct (H1 Hp) as [Hi Hf].
    destruct (IH (processOne cfg e p s).1) as (IH1 & IH2 & IH3).
    { intros p' Hp'. apply Hw. right. exact Hp'. }
    rewrite IH1, Hi, fmap_cons. split; [set_solver|]. split.
    + intros k Hk.
      destruct (decide (k ∈ jobKey <$> b)) as [Hin|Hout]; [apply IH2, Hin|].
      rewrite IH3, Hf by exact Hout.
      apply elem_of_cons in Hk as [->|Hk]; [apply lookup_delete_eq|contradiction].
    + intros k Hk. apply not_elem_of_cons in Hk as [Hne Hk].
      rewrite IH3, Hf by exact Hk. apply lookup_delete_ne. congruence.
Qed.

(** ** A tick *)

Lemma scanAll_frame s s1 :
  scanAll cfg e s = Some s1 →
  inFlight s1 = inFlight s ∧ flags s1 = flags s ∧
  processedOK s1 = processedOK s ∧ failedFiles s1 = failedFiles s ∧
  phase s1 = phase s ∧ ticking s1 = ticking s.
Proof.
  unfold scanAll. intros H.
  destruct (mapM _ (CTXS cfg)) as [tmp|]; simpl in H; [|discriminate].
  destruct (size (inFlight s) =? 0); injection H as <-; simpl; auto 6.
Qed.

Lemma scanAll_Some s :
  (∀ c, c ∈ CTXS cfg → is_Some (scan e c)) → is_Some (scanAll cfg e s).
Proof.
  intros Hs. unfold scanAll.
  destruct (mapM _ (CTXS cfg)) as [tmp|] eqn:Hm; simpl.
  - destruct (size (inFlight s) =? 0); eauto.
  - exfalso. assert (Hi : is_Some (mapM (λ c, l ← scan e c;
        Some (c, scanCtx c l (processedOK s))) (CTXS cfg))).
    { apply mapM_is_Some, Forall_forall. intros c Hc. simpl.
      destruct (Hs c Hc) as [l ->]. simpl. eauto. }
    rewrite Hm in Hi. destruct Hi as [? Hi]. discriminate.
Qed.

Lemma scanPhase_frame s s1 :
  scanPhase cfg e s = Some s1 →
  inFlight s1 = inFlight s ∧ flags s1 = flags s ∧
  processedOK s1 = processedOK s ∧ failedFiles s1 = failedFiles s ∧
  ticking s1 = ticking s.
Proof.
  unfold scanPhase. intros H.
  destruct (queuesEmpty s && (size (inFlight s) =? 0));
    [|injection H as <-; auto 6].
  destruct (phase s); [| |injection H as <-; simpl; auto 6];
    (destruct (scanAll cfg e s) as [s2|] eqn:Hs; simpl in H; [|discriminate];
     injection H as <-; simpl;
     destruct (scanAll_frame _ _ Hs) as (? & ? & ? & ? & _ & ?); auto 6).
Qed.

Lemma scanPhase_phase s s1 :
  scanPhase cfg e s = Some s1 →
  phase s1 = if queuesEmpty s && (size (inFlight s) =? 0)
             then nextPhase (phase s) else phase s.
Proof.
  unfold scanPhase. intros H.
  destruct (queuesEmpty s && (size (inFlight s) =? 0));
    [|injection H as <-; reflexivity].
  destruct (phase s); [| |injection H as <-; reflexivity];
    (destruct (scanAll cfg e s) as [s2|]; simpl in H; [|discriminate];
     injection H as <-; reflexivity).
Qed.

(** The state after [dispatch] is that of [processBatch] on the picked
    batch; an empty batch leaves only the queues rewritten. *)
Lemma dispatch_after s1 :
  ∃ b q, length b ≤ Z.to_nat (PARALLEL_LIMIT cfg) - size (inFlight s1) ∧
         after (dispatch cfg e s1) = (processBatch cfg e b (set_queues q s1)).1.
Proof.
  unfold dispatch.
  set (avail := Z.max 0 (PARALLEL_LIMIT cfg - Z.of_nat (size (inFlight s1)))).
  destruct (avail <=? 0)%Z eqn:Ha.
  - exists [], (queues s1). split; [simpl; lia|]. destruct s1; reflexivity.
  - apply Z.leb_gt in Ha.
    pose proof (pickBatch_length cfg avail (queues s1)) as Hl.
    destruct (pickBatch cfg avail (queues s1)) as [b q]. simpl in Hl.
    exists b, q. split; [subst avail; lia|].
    destruct b as [|p b]; [reflexivity|].
    destruct (processBatch cfg e (p :: b) (set_queues q s1)); reflexivity.
Qed.

(** What [tick] leaves behind: the state it got, or that of a batch run
    on a state that differs from it in queues and phase only. *)
Lemma tick_after s :
  after (tick cfg e s) = s ∨
  ∃ s1 b q,
    scanPhase cfg e (set_ticking true s) = Some s1 ∧
    ticking s = false ∧ largeInFlight s = false ∧
    length b ≤ Z.to_nat (PARALLEL_LIMIT cfg) - size (inFlight s) ∧
    after (tick cfg e s) =
      set_ticking false (processBatch cfg e b (set_queues q s1)).1.
Proof.
  unfold tick. destruct (ticking s) eqn:Ht; [left; reflexivity|].
  rewrite tickBody_split.
  change (largeInFlight (set_ticking true s)) with (largeInFlight s).
  destruct (largeInFlight s) eqn:Hl;
    [left; simpl; apply set_ticking_back, Ht|].
  destruct (scanPhase cfg e (set_ticking true s)) as [s1|] eqn:Hs;
    [|left; simpl; apply set_ticking_back, Ht].
  right. destruct (dispatch_after s1) as (b & q & Hb & ->).
  exists s1, b, q. destruct (scanPhase_frame _ _ Hs) as (Hi & _).
  rewrite Hi in Hb. simpl in Hb. auto.
Qed.

End Jobs.

Section Ticks.

Variable cfg : config.
Variable e : env.

(** X13: a tick never starts more jobs than the limit leaves room for: the
    number of keys in flight after it is at most [PARALLEL_LIMIT], or what
    it was before when that was already more. *)
Theorem tick_capacity s :
  size (inFlight (after (tick cfg e s))) ≤
  Nat.max (size (inFlight s)) (Z.to_nat (PARALLEL_LIMIT cfg)).
Proof.
  destruct (tick_after cfg e s) as [->|(s1 & b & q & Hs & _ & _ & Hb & ->)];
    [lia|].
  destruct (scanPhase_frame _ _ _ _ Hs) as (Hi & _). simpl in Hi.
  pose proof (processBatch_size cfg e b (set_queues q s1)) as H.
  simpl in *. rewrite Hi in H. lia.
Qed.

Lemma tick_dom s :
  dom (flags s) = inFlight s →
  dom (flags (after (tick cfg e s))) = inFlight (after (tick cfg e s)).
Proof.
  intros Hd.
  destruct (tick_after cfg e s) as [->|(s1 & b & q & Hs & _ & _ & _ & ->)];
    [exact Hd|].
  destruct (scanPhase_frame _ _ _ _ Hs) as (Hi & Hf & _). simpl in Hi, Hf.
  simpl. apply processBatch_flags. simpl. congruence.
Qed.

(** X14: [flags] and [inFlight] go together: when they hold the same keys
    before a tick they hold the same keys after it, also when workers are
    still running at its end. *)
Theorem tick_flags s :
  dom (flags s) = inFlight s →
  dom (flags (after (tick cfg e s))) = inFlight (after (tick cfg e s)).
Proof. exact (tick_dom s). Qed.

(** X15: a tick does not forget. Every key recorded as processed before the
    tick is recorded after it, whatever the scans and workers do. *)
Theorem tick_keeps_processed s :
  processedOK s ⊆ processedOK (after (tick cfg e s)).
Proof.
  destruct (tick_after cfg e s) as [->|(s1 & b & q & Hs & _ & _ & _ & ->)];
    [reflexivity|].
  destruct (scanPhase_frame _ _ _ _ Hs) as (_ & _ & Hp & _). simpl in Hp.
  simpl. rewrite <- Hp.
  apply (processBatch_mono cfg e b (set_queues q s1)).
Qed.

Lemma nextPhase_neq p : nextPhase p ≠ p.
Proof. destruct p; discriminate. Qed.

Lemma tick_phase_quiet s :
  ticking s = false → largeInFlight s = false →
  (∀ c, c ∈ CTXS cfg → is_Some (scan e c)) →
  phase (after (tick cfg e s)) =
  if queuesEmpty s && (size (inFlight s) =? 0)
  then nextPhase (phase s) else phase s.
Proof.
  intros Ht Hl Hs. unfold tick. rewrite Ht, tickBody_split.
  change (largeInFlight (set_ticking true s)) with (largeInFlight s).
  rewrite Hl.
  destruct (scanPhase cfg e (set_ticking true s)) as [s1|] eqn:Hsp.
  - destruct (dispatch_after cfg e s1) as (b & q & _ & ->). simpl.
    destruct (processBatch_fields cfg e b (set_queues q s1)) as (_ & -> & _).
    simpl. apply (scanPhase_phase _ _ _ _ Hsp).
  - exfalso. unfold scanPhase in Hsp.
    destruct (queuesEmpty _ && _); [|discriminate].
    destruct (scanAll_Some cfg e (set_ticking true s) Hs) as [s2 Hs2].
    rewrite Hs2 in Hsp. destruct (phase _); discriminate.
Qed.

(** X16: the phase moves one step at a time and only on a quiet tick. After
    a tick the phase is the one before or its successor in the cycle
    IDLE, BOOTED, RESCANNED, IDLE; it is the successor only if the tick
    found all queues empty and nothing in flight; and a tick that is not
    skipped, finds all queues empty and nothing in flight, and whose scans
    do not throw, does move it. *)
Theorem tick_phase s :
  (phase (after (tick cfg e s)) = phase s ∨
   phase (after (tick cfg e s)) = nextPhase (phase s)) ∧
  (phase (after (tick cfg e s)) ≠ phase s →
   ticking s = false ∧ queuesEmpty s = true ∧ size (inFlight s) = 0) ∧
  (ticking s = false → largeInFlight s = false →
   queuesEmpty s = true → size (inFlight s) = 0 →
   (∀ c, c ∈ CTXS cfg → is_Some (scan e c)) →
   phase (after (tick cfg e s)) = nextPhase (phase s)).
Proof.
  assert (Hcases : phase (after (tick cfg e s)) = phase s ∨
    (phase (after (tick cfg e s)) = nextPhase (phase s) ∧
     ticking s = false ∧ queuesEmpty s = true ∧ size (inFlight s) = 0)).
  { destruct (tick_after cfg e s) as [->|(s1 & b & q & Hs & Ht & _ & _ & ->)];
      [left; reflexivity|].
    simpl. destruct (processBatch_fields cfg e b (set_queues q s1)) as (_ & -> & _).
    simpl. rewrite (scanPhase_phase _ _ _ _ Hs).
    change (queuesEmpty (set_ticking true s)) with (queuesEmpty s). simpl.
    destruct (queuesEmpty s) eqn:Hq; [|left; reflexivity].
    destruct (size (inFlight s) =? 0) eqn:Hz; [|left; reflexivity].
    right. apply Nat.eqb_eq in Hz. auto. }
  split; [tauto|]. split.
  - intros Hne. destruct Hcases as [?|(_ & ?)]; [contradiction|assumption].
  - intros Ht Hl Hq Hz Hs. rewrite (tick_phase_quiet s Ht Hl Hs), Hq, Hz.
    reflexivity.
Qed.

Lemma queuesEmpty_queueOf s c :
  queuesEmpty s = true → queueOf (queues s) c = [].
Proof.
  unfold queuesEmpty, queueOf. intros H. apply bool_decide_eq_true in H.
  destruct (queues s !! c) as [l|] eqn:Hl; [|reflexivity]. simpl.
  apply H in Hl. destruct l; [reflexivity|discriminate].
Qed.

(** X24: a tick that has work and room starts work. When the tick is not
    skipped by the guard or the barrier, some configured source has a
    non-empty queue, and fewer than [PARALLEL_LIMIT] keys are in flight,
    the tick hands out a non-empty batch and its [catch] logs nothing. *)
Theorem tick_progress s :
  ticking s = false → largeInFlight s = false →
  (∃ c, c ∈ CTXS cfg ∧ queueOf (queues s) c ≠ []) →
  (Z.of_nat (size (inFlight s)) < PARALLEL_LIMIT cfg)%Z →
  batch (tick cfg e s) ≠ [] ∧ threw (tick cfg e s) = false.
Proof.
  intros Ht Hl Hex Hroom. unfold tick. rewrite Ht, tickBody_split.
  change (largeInFlight (set_ticking true s)) with (largeInFlight s).
  rewrite Hl.
  assert (Hq : queuesEmpty (set_ticking true s) = false).
  { destruct (queuesEmpty (set_ticking true s)) eqn:Hq; [|reflexivity].
    destruct Hex as (c & _ & Hne). exfalso. apply Hne.
    apply (queuesEmpty_queueOf (set_ticking true s) c Hq). }
  unfold scanPhase. rewrite Hq. simpl andb. cbv iota.
  unfold dispatch. simpl inFlight. simpl queues.
  set (avail := Z.max 0 (PARALLEL_LIMIT cfg - Z.of_nat (size (inFlight s)))).
  assert (Ha : (1 ≤ avail)%Z) by (subst avail; lia).
  destruct (avail <=? 0)%Z eqn:Hle; [apply Z.leb_le in Hle; lia|].
  pose proof (pickBatch_nonempty cfg avail (queues s) Ha Hex) as Hb.
  destruct (pickBatch cfg avail (queues s)) as [b q]. simpl in Hb.
  destruct b as [|p b]; [congruence|].
  destruct (processBatch cfg e (p :: b) _). simpl. split; [discriminate|reflexivity].
Qed.

End Ticks.

Lemma rescanned_tick cfg e s :
  ticking s = false → largeInFlight s = false →
  queuesEmpty s = true → size (inFlight s) = 0 → phase s = RESCANNED →
  tick cfg e s =
  if (Z.max 0 (PARALLEL_LIMIT cfg - 0) <=? 0)%Z
  then Report (set_phase IDLE s) [] [] false
  else Report (set_queues
                 (pickBatch cfg (Z.max 0 (PARALLEL_LIMIT cfg - 0)) (queues s)).2
                 (set_phase IDLE s)) [] [] false.
Proof.
  intros Ht Hl Hq Hz Hp. unfold tick. rewrite Ht, tickBody_split.
  change (largeInFlight (set_ticking true s)) with (largeInFlight s).
  rewrite Hl. unfold scanPhase.
  change (queuesEmpty (set_ticking true s)) with (queuesEmpty s).
  simpl inFlight. simpl phase. rewrite Hq, Hz, Hp. simpl andb. cbv iota.
  unfold dispatch. simpl inFlight. simpl queues. rewrite Hz.
  change (Z.of_nat 0) with 0%Z.
  set (avail := Z.max 0 (PARALLEL_LIMIT cfg - 0)).
  destruct (avail <=? 0)%Z.
  - simpl. destruct s; simpl in *; subst; reflexivity.
  - pose proof (pickBatch_from cfg avail (queues s)) as Hfrom.
    destruct (pickBatch cfg avail (queues s)) as [b q]. simpl in Hfrom.
    destruct b as [|p b].
    + simpl. destruct s; simpl in *; subst; reflexivity.
    + exfalso. destruct Hfrom as (c & _ & Hne); [discriminate|].
      apply Hne, queuesEmpty_queueOf, Hq.
Qed.

(** X25: the third signal is blind. A tick that passes the guard and the
    barrier in phase RESCANNED with all queues empty and nothing in flight
    does not consult the store and starts no worker: whatever the store
    holds and the workers would do, it only puts the phase back to IDLE
    and hands out an empty batch. *)
Theorem rescanned_tick_blind cfg e e' s :
  ticking s = false → largeInFlight s = false →
  queuesEmpty s = true → size (inFlight s) = 0 → phase s = RESCANNED →
  tick cfg e s = tick cfg e' s ∧
  phase (after (tick cfg e s)) = IDLE ∧
  batch (tick cfg e s) = [] ∧
  processedOK (after (tick cfg e s)) = processedOK s.
Proof.
  intros Ht Hl Hq Hz Hp.
  rewrite (rescanned_tick cfg e s Ht Hl Hq Hz Hp).
  rewrite (rescanned_tick cfg e' s Ht Hl Hq Hz Hp).
  destruct (_ <=? 0)%Z; simpl; auto.
Qed.

(** ** The manual run *)

Section Manual.

Variable cfg : config.
Variables ticks checks : nat → env.

Lemma runLoop_S n it c s :
  runLoop cfg ticks checks (S n) it c s =
  let s0 := if ticking s then set_ticking false s else s in
  let s1 := after (tick cfg (ticks (S it)) s0) in
  if hasPending s1 then runLoop cfg ticks checks n (S it) 0 s1
  else match phase s1 with
       | IDLE =>
           if MAX_CONSECUTIVE_EMPTY <=? S c then
             match scanAll cfg (checks (S it)) s1 with
             | None => (s1, S it, Crashed)
             | Some s2 =>
                 if queuesEmpty s2 && (size (inFlight s2) =? 0)
                 then (s2, S it, Completed)
                 else runLoop cfg ticks checks n (S it) 0 s2
             end
           else runLoop cfg ticks checks n (S it) (S c) s1
       | _ => runLoop cfg ticks checks n (S it) 0 (set_phase IDLE s1)
       end.
Proof. reflexivity. Qed.

Lemma no_flight_no_large s :
  dom (flags s) = inFlight s → size (inFlight s) = 0 → largeInFlight s = false.
Proof.
  intros Hd Hz. apply size_empty_iff in Hz. apply leibniz_equiv in Hz.
  rewrite Hz in Hd. apply dom_empty_iff_L in Hd.
  unfold largeInFlight. rewrite Hd. apply bool_decide_eq_false.
  apply map_Exists_empty.
Qed.

Lemma hasPending_false s :
  hasPending s = false → queuesEmpty s = true ∧ size (inFlight s) = 0.
Proof.
  unfold hasPending. intros H. apply orb_false_iff in H as [H1 H2].
  apply negb_false_iff in H1, H2. apply Nat.eqb_eq in H2. auto.
Qed.

Lemma runLoop_limit n :
  (∀ i c, c ∈ CTXS cfg → is_Some (scan (ticks i) c)) →
  ∀ it c s, atLoopHead c s →
  (runLoop cfg ticks checks n it c s).2 = LimitReached ∧
  (runLoop cfg ticks checks n it c s).1.2 = it + n.
Proof.
  intros Hs. induction n as [|n IH]; intros it c s (Hd & Hc & Hrest).
  - simpl. split; [reflexivity|lia].
  - rewrite runLoop_S.
    set (s0 := if ticking s then set_ticking false s else s).
    assert (H0 : ticking s0 = false ∧ flags s0 = flags s ∧
                 inFlight s0 = inFlight s ∧ phase s0 = phase s ∧
                 queues s0 = queues s).
    { subst s0. destruct (ticking s) eqn:Ht; simpl; auto. }
    destruct H0 as (Ht0 & Hf0 & Hi0 & Hp0 & Hq0).
    assert (Hd0 : dom (flags s0) = inFlight s0) by congruence.
    pose proof (tick_dom cfg (ticks (S it)) s0 Hd0) as Hd1.
    assert (Hnext : ∀ c' s', atLoopHead c' s' →
      (runLoop cfg ticks checks n (S it) c' s').2 = LimitReached ∧
      (runLoop cfg ticks checks n (S it) c' s').1.2 = it + S n).
    { intros c' s' H'. destruct (IH (S it) c' s' H') as [-> ->].
      split; [reflexivity|lia]. }
    cbv zeta. set (s1 := after (tick cfg (ticks (S it)) s0)) in *.
    destruct (hasPending s1) eqn:Hp1.
    { apply Hnext. split; [exact Hd1|]. split; [lia|]. intros; lia. }
    destruct (phase s1) eqn:Hph.
    + destruct c as [|c].
      * change (MAX_CONSECUTIVE_EMPTY <=? 1) with false. cbv iota.
        apply Hnext. split; [exact Hd1|]. split; [lia|]. auto.
      * exfalso. assert (c = 0) by lia. subst c.
        destruct (Hrest eq_refl) as [Hidle Hquiet].
        apply hasPending_false in Hquiet as [Hq Hz].
        assert (Hq' : queuesEmpty s0 = true)
          by (unfold queuesEmpty in *; rewrite Hq0; exact Hq).
        assert (Hl : largeInFlight s0 = false).
        { apply no_flight_no_large; congruence. }
        pose proof (tick_phase_quiet cfg (ticks (S it)) s0 Ht0 Hl (Hs (S it)))
          as Hph'.
        fold s1 in Hph'. rewrite Hq', Hi0, Hz, Hp0, Hidle in Hph'.
        simpl in Hph'. congruence.
    + apply Hnext. split; [exact Hd1|]. split; [lia|]. intros; lia.
    + apply Hnext. split; [exact Hd1|]. split; [lia|]. intros; lia.
Qed.

(** X17: a manual run served on its own cannot finish by its completion
    branch while the store answers. When no scan of its ticks throws, the
    loop of [runUntilComplete] never reaches the final check: every quiet
    tick leaves the phase at BOOTED, the loop then puts the phase back to
    IDLE and the counter of empty ticks back to 0, and the run ends only
    by reaching [MAX_ITERATIONS], after exactly that many ticks, whether
    there is work or not. *)
Theorem run_hits_limit s :
  (∀ i c, c ∈ CTXS cfg → is_Some (scan (ticks i) c)) →
  (run cfg ticks checks s).2 = LimitReached ∧
  (run cfg ticks checks s).1.2 = MAX_ITERATIONS.
Proof.
  intros Hs. unfold run.
  destruct (runLoop_limit MAX_ITERATIONS Hs 0 0 (reset s)) as [H1 H2].
  - split; [reflexivity|]. split; [lia|]. intros; lia.
  - split; [exact H1|exact H2].
Qed.

End Manual.

Lemma run_hits_limit_witness :
  (run defaults (λ _, storeBare) (λ _, emptyStore) start).2 = LimitReached.
Proof.
  apply (run_hits_limit defaults (λ _, storeBare) (λ _, emptyStore) start).
  intros i c _. simpl. eauto.
Defined.

(** ** The answer of [/status] *)

Lemma prefix_colon c s :
  String.prefix ":" (String c s) = Ascii.eqb c (Ascii.ascii_of_nat 58).
Proof.
  change (String.prefix ":" (String c s)) with
    (if Ascii.ascii_dec (Ascii.ascii_of_nat 58) c
     then String.prefix "" s else false).
  destruct (Ascii.ascii_dec (Ascii.ascii_of_nat 58) c) as [<-|Hne].
  - destruct s; reflexivity.
  - symmetry. apply Ascii.eqb_neq. congruence.
Qed.

Lemma noColon_cons c s :
  noColon (String c s) →
  Ascii.eqb c (Ascii.ascii_of_nat 58) = false ∧ noColon s.
Proof.
  unfold noColon. intros H.
  change (Str.includes (String c s) ":") with
    (if String.prefix ":" (String c s) then true else Str.includes s ":") in H.
  rewrite prefix_colon in H.
  destruct (Ascii.eqb c _); [discriminate|auto].
Qed.

Lemma split_noColon f : noColon f → split f = [f].
Proof.
  induction f as [|c f IH]; intros H; [reflexivity|].
  apply noColon_cons in H as [Hc Hf]. simpl. rewrite Hc, (IH Hf). reflexivity.
Qed.

Lemma split_key c f : noColon c → split (c +:+ ":" +:+ f) = c :: split f.
Proof.
  induction c as [|a c IH]; intros H; [reflexivity|].
  apply noColon_cons in H as [Ha Hc].
  change (String a c +:+ ":" +:+ f) with (String a (c +:+ ":" +:+ f)).
  simpl. rewrite Ha, (IH Hc). reflexivity.
Qed.

(** X18: what [/status] reports for a job in flight. The key [ctx:file] is
    taken apart at its colons, so for a source name without a colon the
    reported source is the source; the reported file is the file when its
    name has no colon, and a file name with a colon is reported cut off at
    its first colon. *)
Theorem status_key_parts c f :
  noColon c →
  (keyParts (keyOf c f)).1 = Some c ∧
  (noColon f → (keyParts (keyOf c f)).2 = Some f) ∧
  (∀ a b, noColon a → f = a +:+ ":" +:+ b → (keyParts (keyOf c f)).2 = Some a).
Proof.
  intros Hc. unfold keyParts, keyOf. rewrite (split_key c f Hc). simpl.
  split; [reflexivity|]. split.
  - intros Hf. rewrite (split_noColon f Hf). reflexivity.
  - intros a b Ha ->. rewrite (split_key a b Ha). reflexivity.
Qed.

Lemma totalPending_zero (m : gmap string (list item)) :
  map_fold (λ _ (q : list item) acc, acc + length q) 0 m = 0 ↔
  map_Forall (λ _ (q : list item), length q = 0) m.
Proof.
  apply (map_fold_weak_ind (λ r m, r = 0 ↔
    map_Forall (λ _ (q : list item), length q = 0) m)).
  - split; [intros _; apply map_Forall_empty|reflexivity].
  - intros k q m' r Hk IH. rewrite map_Forall_insert by exact Hk.
    split; [intros H|intros [H1 H2]].
    + split; [lia|apply IH; lia].
    + apply IH in H2. lia.
Qed.

(** X19: [/status] and the scheduler agree on what is left. The total it
    reports as pending is 0 exactly when [queuesEmpty] holds, and a tick
    hands out at most as many jobs as it reports as available capacity. *)
Theorem status_agrees cfg e s :
  (totalPending s = 0 ↔ queuesEmpty s = true) ∧
  (Z.of_nat (length (batch (tick cfg e s))) ≤ available cfg s)%Z.
Proof.
  split.
  - unfold totalPending, queuesEmpty. rewrite totalPending_zero.
    symmetry. apply bool_decide_eq_true.
  - unfold available, tick. destruct (ticking s); [simpl; lia|].
    rewrite tickBody_split.
    destruct (largeInFlight _); [simpl; lia|].
    destruct (scanPhase cfg e (set_ticking true s)) as [s1|] eqn:Hs;
      [|simpl; lia].
    destruct (scanPhase_frame _ _ _ _ Hs) as (Hi & _). simpl in Hi.
    simpl. unfold dispatch. rewrite Hi.
    set (avail := Z.max 0 (PARALLEL_LIMIT cfg - Z.of_nat (size (inFlight s)))).
    destruct (avail <=? 0)%Z eqn:Ha; [simpl; lia|].
    apply Z.leb_gt in Ha.
    pose proof (pickBatch_length cfg avail (queues s1)) as Hl.
    destruct (pickBatch cfg avail (queues s1)) as [b q]. simpl in Hl.
    destruct b as [|p b]; [simpl; lia|].
    destruct (processBatch cfg e (p :: b) (set_queues q s1)). simpl batch.
    lia.
Qed.

(** ** Scans *)

(** X20: what a scan can enqueue. Every item of a scan result stands for a
    regular file of the listing whose name ends in .xlsx in any case and
    contains one of the patterns, with its size in MB as [sizeMB]; and a
    larger processed set never adds an item. *)
Theorem scan_filters c l done :
  (∀ it, it ∈ scanCtx c l done →
     ∃ f, f ∈ xlsList l ∧ name it = f_name f ∧ f_type f = "-" ∧
          Str.endsWith (Str.toLowerCase (f_name f)) ".xlsx" = true ∧
          existsb (Str.includes (f_name f)) PATTERNS = true ∧
          sizeMB it = (Z.of_N (f_size f) # 1048576)%Q) ∧
  (∀ done' it, done ⊆ done' → it ∈ scanCtx c l done' → it ∈ scanCtx c l done).
Proof.
  split.
  - intros it Hit. apply scanCtx_elem in Hit as (f & Hin & Hf).
    exists f. split; [exact Hin|]. unfold scanFile in Hf.
    destruct (String.eqb (f_type f) "-") eqn:Hty; [|discriminate].
    destruct (Str.endsWith _ ".xlsx") eqn:Hx; [|discriminate].
    destruct (existsb _ PATTERNS) eqn:Hp; [|discriminate].
    simpl in Hf. apply String.eqb_eq in Hty.
    destruct (hasKnfo l (f_name f) && hasMeta l (f_name f)); [discriminate|].
    destruct (bool_decide _ && _); [discriminate|].
    injection Hf as <-. simpl. auto 6.
  - intros done' it Hsub Hit. apply scanCtx_elem in Hit as (f & Hin & Hf).
    apply scanCtx_elem. exists f. split; [exact Hin|].
    unfold scanFile in *.
    destruct (negb _ || negb _); [discriminate|].
    destruct (negb (existsb _ PATTERNS)); [discriminate|].
    destruct (hasKnfo l (f_name f) && hasMeta l (f_name f)); [discriminate|].
    destruct (bool_decide (keyOf c (f_name f) ∈ done') && _) eqn:Hd';
      [discriminate|].
    destruct (bool_decide (keyOf c (f_name f) ∈ done) && _) eqn:Hd;
      [|exact Hf].
    exfalso. apply andb_true_iff in Hd as [Hd1 Hd2].
    apply bool_decide_eq_true in Hd1. rewrite Hd2, andb_true_r in Hd'.
    apply bool_decide_eq_false in Hd'. apply Hd', Hsub, Hd1.
Qed.

Lemma status_key_parts_witness :
  keyParts (keyOf "CAN" "MB51_2024.xlsx") = (Some "CAN", Some "MB51_2024.xlsx") ∧
  (keyParts (keyOf "CAN" "MB51_10:30.xlsx")).2 = Some "MB51_10".
Proof.
  destruct (status_key_parts "CAN" "MB51_2024.xlsx" eq_refl) as (H1 & H2 & _).
  destruct (status_key_parts "CAN" "MB51_10:30.xlsx" eq_refl) as (_ & _ & H3).
  split.
  - rewrite (surjective_pairing (keyParts _)), H1, (H2 eq_refl). reflexivity.
  - apply (H3 "MB51_10" "30.xlsx" eq_refl eq_refl).
Defined.

Lemma tick_progress_witness :
  batch (tick twoCtx allResolve (with_queues twoQueues)) ≠ [].
Proof.
  apply (tick_progress twoCtx allResolve (with_queues twoQueues)).
  - reflexivity.
  - vm_compute. reflexivity.
  - exists "CAN". split; [left|]. vm_compute. discriminate.
  - vm_compute. reflexivity.
Defined.

Lemma rescanned_tick_blind_witness :
  tick defaults storeBare rescanned = tick defaults allReject rescanned.
Proof.
  apply (rescanned_tick_blind defaults storeBare allReject rescanned);
    vm_compute; reflexivity.
Defined.

Lemma tick_flags_witness :
  dom (flags (after (tick twoCtx allPending (with_queues twoQueues)))) =
  inFlight (after (tick twoCtx allPending (with_queues twoQueues))).
Proof.
  apply (tick_flags twoCtx allPending (with_queues twoQueues)).
  vm_compute. reflexivity.
Defined.

Lemma tick_phase_witness :
  phase (after (tick defaults emptyStore start)) = BOOTED.
Proof.
  destruct (tick_phase defaults emptyStore start) as (_ & _ & H).
  apply H; try reflexivity. intros c _. simpl. eauto.
Defined.

Lemma batch_isolation_witness :
  keyOf "CAN" "KOB1_a.xlsx" ∈
    processedOK (processBatch twoCtx onePoison
                   [poison; Pick "CAN" "KOB1_a.xlsx" false] start).1.
Proof.
  destruct (batch_isolation twoCtx onePoison
              [poison; Pick "CAN" "KOB1_a.xlsx" false] start) as (_ & H & _).
  apply (H (Pick "CAN" "KOB1_a.xlsx" false)).
  - right. left.
  - reflexivity.
Defined.

Lemma scan_filters_witness :
  Forall (λ it, name it = "MB51_bad.xlsx") (scanCtx "CAN" bare ∅).
Proof.
  apply Forall_forall. intros it Hit.
  destruct (scan_filters "CAN" bare ∅) as [H _].
  destruct (H it Hit) as (f & Hf & -> & _).
  apply list_elem_of_singleton in Hf. subst f. reflexivity.
Defined.

Lemma batch_cleanup_witness :
  inFlight (processBatch twoCtx allReject [poison] start).1 = ∅.
Proof.
  destruct (batch_cleanup twoCtx allReject [poison] start) as [H _].
  - intros p _. simpl. discriminate.
  - rewrite H. vm_compute. reflexivity.
Defined.

End ControlFacts.


(** * Properties of the JSON helpers of the worker *)

Module KnfoFacts.
Import Knfo.
Local Open Scope nat_scope.
Local Open Scope list_scope.

(** Induction over values, with the hypothesis for every member of an
    array and every entry of an object. *)
Lemma value_ind' (P : value → Prop) :
  P VNull → P VUndefined → (∀ b, P (VBool b)) → (∀ q, P (VNum q)) →
  (∀ s, P (VStr s)) →
  (∀ l, Forall P l → P (VArr l)) →
  (∀ l, Forall (λ kv : string * value, P kv.2) l → P (VObj l)) →
  ∀ v, P v.
Proof.
  intros Hn Hu Hb Hq Hs Ha Ho. fix IH 1.
  intros [| |b|q|s|l|l];
    [exact Hn|exact Hu|apply Hb|apply Hq|apply Hs| |].
  - apply Ha. revert l. fix IHl 1. intros [|x l]; constructor.
    + apply IH.
    + apply IHl.
  - apply Ho. revert l. fix IHl 1. intros [|[k x] l]; constructor.
    + apply IH.
    + apply IHl.
Qed.

(** ** [removeEmptyAttributes] *)

Lemma removeEmptyAttributes_arr l :
  removeEmptyAttributes (VArr l) =
  VArr (List.filter (λ v, negb (isEmpty v)) (List.map removeEmptyAttributes l)).
Proof. reflexivity. Qed.

Lemma removeEmptyAttributes_obj l :
  removeEmptyAttributes (VObj l) = VObj (cleanEntries l).
Proof. reflexivity. Qed.

Lemma cleanEntries_cons k v l :
  cleanEntries ((k, v) :: l) =
  if isEmpty (removeEmptyAttributes v) || String.eqb k "__proto__"
  then cleanEntries l
  else (k, removeEmptyAttributes v) :: cleanEntries l.
Proof. reflexivity. Qed.

Lemma clean_arr l : clean (VArr l) = forallb (cleanItem clean) l.
Proof. reflexivity. Qed.

Lemma clean_obj l : clean (VObj l) = forallb (cleanEntry clean) l.
Proof. reflexivity. Qed.

Lemma removeEmptyAttributes_isEmpty v :
  isEmpty (removeEmptyAttributes v) = isEmpty v.
Proof. destruct v; reflexivity. Qed.

Lemma removeEmptyAttributes_clean v : clean (removeEmptyAttributes v) = true.
Proof.
  induction v as [| |b|q|s|l IH|l IH] using value_ind'; try reflexivity.
  - rewrite removeEmptyAttributes_arr, clean_arr.
    induction IH as [|x l Hx _ IHl]; [reflexivity|]. simpl.
    destruct (isEmpty (removeEmptyAttributes x)) eqn:He; simpl; [exact IHl|].
    unfold cleanItem at 1. rewrite He, Hx. exact IHl.
  - rewrite removeEmptyAttributes_obj, clean_obj.
    induction IH as [|[k x] l Hx _ IHl]; [reflexivity|].
    rewrite cleanEntries_cons. simpl in Hx.
    destruct (isEmpty (removeEmptyAttributes x)) eqn:He; simpl; [exact IHl|].
    destruct (String.eqb k "__proto__") eqn:Hk; simpl; [exact IHl|].
    rewrite Hk, He, Hx. exact IHl.
Qed.

Lemma removeEmptyAttributes_fixed v :
  clean v = true → removeEmptyAttributes v = v.
Proof.
  induction v as [| |b|q|s|l IH|l IH] using value_ind'; try reflexivity.
  - rewrite removeEmptyAttributes_arr, clean_arr. intros Hc. f_equal.
    induction IH as [|x l Hx _ IHl]; [reflexivity|]. simpl in Hc.
    apply andb_true_iff in Hc as [Hc1 Hc2]. unfold cleanItem in Hc1.
    apply andb_true_iff in Hc1 as [He Hcx].
    simpl. rewrite (Hx Hcx), He, (IHl Hc2). reflexivity.
  - rewrite removeEmptyAttributes_obj, clean_obj. intros Hc. f_equal.
    induction IH as [|[k x] l Hx _ IHl]; [reflexivity|]. simpl in Hc, Hx.
    apply andb_true_iff in Hc as [Hc1 Hc2].
    apply andb_true_iff in Hc1 as [Hc1 Hcx].
    apply andb_true_iff in Hc1 as [Hk He].
    apply negb_true_iff in Hk, He.
    rewrite cleanEntries_cons, (Hx Hcx), He, Hk, (IHl Hc2). reflexivity.
Qed.

(** X21: [removeEmptyAttributes] leaves no empty attribute at any depth,
    and does so in one pass. Its result has no array member and no object
    entry that is [null], [undefined] or the empty string; the values it
    leaves unchanged are exactly those that are already like that, so a
    second pass changes nothing; and it never turns a value into an empty
    one: an object or array whose members were all removed stays, as an
    empty object or array. *)
Theorem removeEmptyAttributes_spec v :
  clean (removeEmptyAttributes v) = true ∧
  (removeEmptyAttributes v = v ↔ clean v = true) ∧
  removeEmptyAttributes (removeEmptyAttributes v) = removeEmptyAttributes v ∧
  isEmpty (removeEmptyAttributes v) = isEmpty v.
Proof.
  split; [apply removeEmptyAttributes_clean|]. split; [|split].
  - split; [intros <-; apply removeEmptyAttributes_clean|
            apply removeEmptyAttributes_fixed].
  - apply removeEmptyAttributes_fixed, removeEmptyAttributes_clean.
  - apply removeEmptyAttributes_isEmpty.
Qed.

(** ** [pruneFrequencySinglesDeep] *)

Local Abbreviation prune := pruneFrequencySinglesDeep.

Lemma prune_arr l n :
  prune (VArr l) n = (VArr (pruneItems l n).1, (pruneItems l n).2).
Proof.
  change (prune (VArr l) n) with
    (let '(arr, m) := pruneItems l n in (VArr arr, m)).
  destruct (pruneItems l n); reflexivity.
Qed.

Lemma prune_obj l n :
  prune (VObj l) n = (VObj (pruneEntries l n).1, (pruneEntries l n).2).
Proof.
  change (prune (VObj l) n) with
    (let '(out, m) := pruneEntries l n in (VObj out, m)).
  destruct (pruneEntries l n); reflexivity.
Qed.

Lemma pruneItems_cons x l n :
  pruneItems (x :: l) n =
  ((prune x n).1 :: (pruneItems l (prune x n).2).1,
   (pruneItems l (prune x n).2).2).
Proof.
  change (pruneItems (x :: l) n) with
    (let '(x', n1) := prune x n in
     let '(r, n2) := pruneItems l n1 in (x' :: r, n2)).
  destruct (prune x n) as [x' n1]. simpl.
  destruct (pruneItems l n1); reflexivity.
Qed.

Lemma pruneEntries_cons k v l n :
  pruneEntries ((k, v) :: l) n =
  if String.eqb k "frequencySingles" then pruneEntries l (S n)
  else ((k, (prune v n).1) :: (pruneEntries l (prune v n).2).1,
        (pruneEntries l (prune v n).2).2).
Proof.
  change (pruneEntries ((k, v) :: l) n) with
    (if String.eqb k "frequencySingles" then pruneEntries l (S n)
     else let '(v', n1) := prune v n in
          let '(r, n2) := pruneEntries l n1 in ((k, v') :: r, n2)).
  destruct (String.eqb k "frequencySingles"); [reflexivity|].
  destruct (prune v n) as [v' n1]. simpl.
  destruct (pruneEntries l n1); reflexivity.
Qed.

Lemma noSingles_arr l : noSingles (VArr l) = forallb noSingles l.
Proof. reflexivity. Qed.

Lemma noSingles_obj l :
  noSingles (VObj l) = forallb (noSinglesEntry noSingles) l.
Proof. reflexivity. Qed.

Lemma pruneItems_pruned l :
  Forall pruned l →
  ∀ n,
    forallb noSingles (pruneItems l n).1 = true ∧
    n ≤ (pruneItems l n).2 ∧
    ((pruneItems l n).2 = n → (pruneItems l n).1 = l) ∧
    (forallb noSingles l = true → (pruneItems l n).2 = n) ∧
    (forallb (cleanItem clean) l = true →
     forallb (cleanItem clean) (pruneItems l n).1 = true) ∧
    (pruneItems l n).1 = (pruneItems l 0).1 ∧
    (pruneItems l n).2 = n + (pruneItems l 0).2.
Proof.
  induction 1 as [|x l Hx _ IH]; intros n.
  - simpl. repeat split; auto.
  - rewrite !pruneItems_cons.
    destruct (Hx n) as (X1 & X2 & X3 & X4 & X5 & X6 & X7 & X8).
    destruct (IH (prune x n).2) as (L1 & L2 & L3 & L4 & L5 & L6 & L7).
    destruct (IH (prune x 0).2) as (_ & _ & _ & _ & _ & M6 & M7).
    cbn [fst snd forallb].
    split; [rewrite X1, L1; reflexivity|]. split; [lia|].
    split; [intros He; rewrite X3, L3 by lia; reflexivity|].
    split.
    { intros Hn. apply andb_true_iff in Hn as [Hn1 Hn2].
      rewrite (L4 Hn2). exact (X4 Hn1). }
    split.
    { intros Hc. apply andb_true_iff in Hc as [Hc1 Hc2].
      unfold cleanItem in Hc1 |- * at 1.
      apply andb_true_iff in Hc1 as [He Hcx].
      rewrite X5, He, (X6 Hcx), (L5 Hc2). reflexivity. }
    split; [rewrite X7, L6, M6; reflexivity|].
    rewrite L7, M7, X8. lia.
Qed.

Lemma pruneEntries_pruned l :
  Forall (λ kv : string * value, pruned kv.2) l →
  ∀ n,
    forallb (noSinglesEntry noSingles) (pruneEntries l n).1 = true ∧
    n ≤ (pruneEntries l n).2 ∧
    ((pruneEntries l n).2 = n → (pruneEntries l n).1 = l) ∧
    (forallb (noSinglesEntry noSingles) l = true → (pruneEntries l n).2 = n) ∧
    (forallb (cleanEntry clean) l = true →
     forallb (cleanEntry clean) (pruneEntries l n).1 = true) ∧
    (pruneEntries l n).1 = (pruneEntries l 0).1 ∧
    (pruneEntries l n).2 = n + (pruneEntries l 0).2.
Proof.
  induction 1 as [|[k x] l Hx _ IH]; intros n.
  - simpl. repeat split; auto.
  - rewrite !pruneEntries_cons. simpl in Hx.
    destruct (String.eqb k "frequencySingles") eqn:Hk.
    + destruct (IH (S n)) as (L1 & L2 & L3 & L4 & L5 & L6 & L7).
      destruct (IH 1) as (_ & _ & _ & _ & _ & M6 & M7).
      split; [exact L1|]. split; [lia|]. split; [lia|].
      split; [simpl; rewrite Hk; discriminate|].
      split.
      { intros Hc. simpl in Hc. apply andb_true_iff in Hc as [_ Hc2].
        exact (L5 Hc2). }
      split; [rewrite L6, M6; reflexivity|]. rewrite L7, M7. lia.
    + destruct (Hx n) as (X1 & X2 & X3 & X4 & X5 & X6 & X7 & X8).
      destruct (IH (prune x n).2) as (L1 & L2 & L3 & L4 & L5 & L6 & L7).
      destruct (IH (prune x 0).2) as (_ & _ & _ & _ & _ & M6 & M7).
      cbn [fst snd forallb noSinglesEntry cleanEntry].
      split; [rewrite Hk, X1, L1; reflexivity|]. split; [lia|].
      split; [intros He; rewrite X3, L3 by lia; reflexivity|].
      split.
      { intros Hn. apply andb_true_iff in Hn as [Hn1 Hn2].
        apply andb_true_iff in Hn1 as [_ Hn1].
        rewrite (L4 Hn2). exact (X4 Hn1). }
      split.
      { intros Hc. apply andb_true_iff in Hc as [Hc1 Hc2].
        apply andb_true_iff in Hc1 as [Hc1 Hcx].
        apply andb_true_iff in Hc1 as [Hp He].
        rewrite X5, Hp, He, (X6 Hcx), (L5 Hc2). reflexivity. }
      split; [rewrite X7, L6, M6; reflexivity|].
      rewrite L7, M7, X8. lia.
Qed.

Lemma prune_pruned v : pruned v.
Proof.
  induction v as [| |b|q|s|l IH|l IH] using value_ind';
    try (intros n; simpl; repeat split; auto; lia).
  - intros n. rewrite !prune_arr. cbn [fst snd].
    rewrite !noSingles_arr, !clean_arr.
    destruct (pruneItems_pruned l IH n) as (L1 & L2 & L3 & L4 & L5 & L6 & L7).
    split; [exact L1|]. split; [exact L2|].
    split; [intros He; rewrite (L3 He); reflexivity|].
    split; [exact L4|]. split; [reflexivity|]. split; [exact L5|].
    split; [rewrite L6; reflexivity|exact L7].
  - intros n. rewrite !prune_obj. cbn [fst snd].
    rewrite !noSingles_obj, !clean_obj.
    destruct (pruneEntries_pruned l IH n) as (L1 & L2 & L3 & L4 & L5 & L6 & L7).
    split; [exact L1|]. split; [exact L2|].
    split; [intros He; rewrite (L3 He); reflexivity|].
    split; [exact L4|]. split; [reflexivity|]. split; [exact L5|].
    split; [rewrite L6; reflexivity|exact L7].
Qed.

(** X22: [pruneFrequencySinglesDeep] leaves no key [frequencySingles] at
    any depth; the counter it is given only grows, by an amount that
    depends on the value alone; and the counter is unchanged exactly when
    the result is the value it was given, that is when there was nothing
    to remove. *)
Theorem prune_spec v n :
  noSingles (prune v n).1 = true ∧
  (prune v n).2 = n + (prune v 0).2 ∧
  ((prune v n).2 = n ↔ (prune v n).1 = v) ∧
  ((prune v n).2 = n ↔ noSingles v = true).
Proof.
  destruct (prune_pruned v n) as (P1 & P2 & P3 & P4 & _ & _ & _ & P8).
  split; [exact P1|]. split; [exact P8|].
  assert (Hback : (prune v n).1 = v → noSingles v = true)
    by (intros <-; exact P1).
  split; split; auto.
Qed.

(** X23: the two cleaning passes of the worker go together. Pruning the
    result of [removeEmptyAttributes] gives a value that has no empty
    attribute and no key [frequencySingles] at any depth: removing the
    keys brings back no empty attribute. *)
Theorem prune_after_clean v n :
  clean (prune (removeEmptyAttributes v) n).1 = true ∧
  noSingles (prune (removeEmptyAttributes v) n).1 = true.
Proof.
  destruct (prune_pruned (removeEmptyAttributes v) n)
    as (P1 & _ & _ & _ & _ & P6 & _).
  split; [apply P6, removeEmptyAttributes_clean|exact P1].
Qed.

End KnfoFacts.
